(** * mapast: a pointer-free syntax tree in a flat map, and its unparser

    A shallow embedding of [tree.go] (node tags, the address function [O],
    [Poke], [Which], the constructors and the unparsing walk [Code]) and of
    the comment classifier [LookupComments], followed by the properties
    that the specification states about them. *)

From Stdlib Require Import ZArith Lia List String Ascii Bool.
From Stdlib Require Import DecimalString.
From Stdlib.Strings Require Import Byte.
From stdpp Require Import gmap strings list.
Import ListNotations.

Local Open Scope string_scope.
Local Open Scope Z_scope.

(** ** Machine integers

    [uint64] values are integers in [0, 2^64) with the wrap-around written
    out; [int] is taken to be 64 bits wide (two's complement); [byte] is an
    integer in [0, 256). *)

Definition wrap64 (z : Z) : Z := z mod 2 ^ 64.
Definition add64 (a b : Z) : Z := wrap64 (a + b).
Definition sub64 (a b : Z) : Z := wrap64 (a - b).
Definition mul64 (a b : Z) : Z := wrap64 (a * b).
Definition shl64 (a n : Z) : Z := wrap64 (Z.shiftl a n).
Definition shr64 (a n : Z) : Z := Z.shiftr a n.

(** [int(x)] for a [uint64] x, and [uint64(x)], [byte(x)] for an [int] x. *)
Definition to_int (z : Z) : Z := if z <? 2 ^ 63 then z else z - 2 ^ 64.
Definition to_uint64 (z : Z) : Z := wrap64 z.
Definition to_byte (z : Z) : Z := z mod 256.
Definition int_add (a b : Z) : Z := to_int (wrap64 (a + b)).

(** [const uint64big = ^uint64(0) - 1] *)
Definition uint64big : Z := 2 ^ 64 - 2.

(** ** The address function *)

Definition O (n : Z) : Z :=
  let v := add64 (mul64 n 3935559000370003845) 2691343689449507681 in
  let v := Z.lxor v (shr64 v 21) in
  let v := Z.lxor v (shl64 v 37) in
  let v := Z.lxor v (shr64 v 4) in
  let v := mul64 v 4768777513237032717 in
  let v := Z.lxor v (shl64 v 20) in
  let v := Z.lxor v (shr64 v 41) in
  let v := Z.lxor v (shl64 v 5) in
  v.

(** ** Byte slices

    A Go slice value is a pointer to its first element (a backing array and
    an offset in it), a length and a capacity. The record below keeps the
    pointer and the capacity, and carries the [len] visible bytes themselves
    in place of the length. [None] is the nil slice. *)

Definition MaxSubnodes : Z := 1000000.

Inductive array : Type :=
| arrRootMatter | arrFileMatter | arrPackageDef | arrImportStmt
| arrImportsDef | arrTypedIdent | arrRootOfType | arrTypDefStmt
| arrStructType | arrBranchStmt | arrGoDferStmt | arrReturnStmt
| arrIncDecStmt | arrVarDefStmt | arrLblGotoCnt | arrIfceTypExp
| arrCommentRow
| storage                 (* make([]byte, MaxSubnodes) *)
| foreign (id : N).       (* any array that is not this package's *)

Record slice : Type := Slice {
  arr : array;            (* backing array *)
  off : Z;                (* index of element 0 in the backing array *)
  bytes : string;         (* the bytes at indices 0 .. len-1 *)
  capacity : Z
}.

Abbreviation byteslice := (option slice).

Definition len (x : byteslice) : Z :=
  match x with
  | None => 0
  | Some s => Z.of_nat (String.length (bytes s))
  end.

Definition cap (x : byteslice) : Z :=
  match x with
  | None => 0
  | Some s => capacity s
  end.

(** [string(x)] *)
Definition text (x : byteslice) : string :=
  match x with
  | None => EmptyString
  | Some s => bytes s
  end.

Inductive fault : Type := IndexOutOfRange | SliceBounds.

Inductive res (A : Type) : Type :=
| Ret (a : A)
| Panic (e : fault)
| Starved.

Arguments Ret {A} a.
Arguments Panic {A} e.
Arguments Starved {A}.

#[global] Instance array_eq_dec : EqDecision array.
Proof. solve_decision. Defined.

(** [&x[0]]: the address of element 0, an index expression checked against
    the length. *)
Definition addr0 (x : byteslice) : res (array * Z) :=
  match x with
  | None => Panic IndexOutOfRange
  | Some s => if len x =? 0 then Panic IndexOutOfRange else Ret (arr s, off s)
  end.

(** ** The node families

    The twenty-three package-level slice variables. Seventeen are
    [[]byte("Name")], each with an array of its own; six are carved from
    [storage] at offsets 0, 16, .., 80. *)

Inductive family : Type :=
| RootMatter | FileMatter | PackageDef | ImportStmt | ImportsDef
| TypedIdent | RootOfType | TypDefStmt | StructType | BranchStmt
| GoDferStmt | ReturnStmt | IncDecStmt | VarDefStmt | LblGotoCnt
| IfceTypExp | CommentRow
| Expression | BlocOfCode | ToplevFunc | AssignStmt | ClosureExp
| IfceMethod.

#[global] Instance family_eq_dec : EqDecision family.
Proof. solve_decision. Defined.

(** [&F[0]] for a family variable F. *)
Definition family_addr (f : family) : array * Z :=
  match f with
  | RootMatter => (arrRootMatter, 0) | FileMatter => (arrFileMatter, 0)
  | PackageDef => (arrPackageDef, 0) | ImportStmt => (arrImportStmt, 0)
  | ImportsDef => (arrImportsDef, 0) | TypedIdent => (arrTypedIdent, 0)
  | RootOfType => (arrRootOfType, 0) | TypDefStmt => (arrTypDefStmt, 0)
  | StructType => (arrStructType, 0) | BranchStmt => (arrBranchStmt, 0)
  | GoDferStmt => (arrGoDferStmt, 0) | ReturnStmt => (arrReturnStmt, 0)
  | IncDecStmt => (arrIncDecStmt, 0) | VarDefStmt => (arrVarDefStmt, 0)
  | LblGotoCnt => (arrLblGotoCnt, 0) | IfceTypExp => (arrIfceTypExp, 0)
  | CommentRow => (arrCommentRow, 0)
  | Expression => (storage, 0)
  | BlocOfCode => (storage, 16)
  | ToplevFunc => (storage, 32)
  | AssignStmt => (storage, 48)
  | ClosureExp => (storage, 64)
  | IfceMethod => (storage, 80)
  end.

(** The literal a text family is initialised from; the storage families
    hold zero bytes. *)
Definition family_name (f : family) : string :=
  match f with
  | RootMatter => "RootMatter" | FileMatter => "FileMatter"
  | PackageDef => "PackageDef" | ImportStmt => "ImportStmt"
  | ImportsDef => "ImportsDef" | TypedIdent => "TypedIdent"
  | RootOfType => "RootOfType" | TypDefStmt => "TypDefStmt"
  | StructType => "StructType" | BranchStmt => "BranchStmt"
  | GoDferStmt => "GoDferStmt" | ReturnStmt => "ReturnStmt"
  | IncDecStmt => "IncDecStmt" | VarDefStmt => "VarDefStmt"
  | LblGotoCnt => "LblGotoCnt" | IfceTypExp => "IfceTypExp"
  | CommentRow => "CommentRow"
  | _ => EmptyString
  end.

Definition in_storage (f : family) : bool :=
  match f with
  | Expression | BlocOfCode | ToplevFunc | AssignStmt | ClosureExp
  | IfceMethod => true
  | _ => false
  end.

Fixpoint zeros (n : nat) : string :=
  match n with
  | 0%nat => EmptyString
  | S m => String Ascii.zero (zeros m)
  end.

(** [len(F) = cap(F)]: ten for a text family (the array that the literal
    fills; a run-time that rounds the allocation up would give more, and
    nothing below depends on the value but the bound of the two-index
    slices), and what is left of [storage] from the family's offset on. *)
Definition family_cap (f : family) : Z :=
  if in_storage f then MaxSubnodes - snd (family_addr f) else 10.

(** The first [n] bytes of a family variable. *)
Definition family_bytes (f : family) (n : Z) : string :=
  if in_storage f then zeros (Z.to_nat n)
  else substring 0 (Z.to_nat n) (family_name f).

(** [F[:hi]] and [F[:hi:max]], with Go's bounds checks. *)
Definition slice2 (f : family) (hi : Z) : res slice :=
  if (0 <=? hi) && (hi <=? family_cap f) then
    Ret {| arr := fst (family_addr f); off := snd (family_addr f);
           bytes := family_bytes f hi; capacity := family_cap f |}
  else Panic SliceBounds.

Definition slice3 (f : family) (hi max : Z) : res slice :=
  if (0 <=? hi) && (hi <=? max) && (max <=? family_cap f) then
    Ret {| arr := fst (family_addr f); off := snd (family_addr f);
           bytes := family_bytes f hi; capacity := max |}
  else Panic SliceBounds.

(** ** Kinds *)

Definition BlocOfCodePlain : Z := 0.
Definition BlocOfCodeIf : Z := 1.
Definition BlocOfCodeIfElse : Z := 2.
Definition BlocOfCodeSwitch : Z := 3.
Definition BlocOfCodeFor : Z := 4.
Definition BlocOfCodeForRange : Z := 5.
Definition BlocOfCodeTypeSwitch : Z := 6.
Definition BlocOfCodeSelect : Z := 7.
Definition BlocOfCodeCase : Z := 8.
Definition BlocOfCodeDefault : Z := 9.
Definition BlocOfCodeNone : Z := 10.
Definition BlocOfCodeCommunicate : Z := 11.
Definition BlocOfCodeCommunicateDefault : Z := 12.
Definition BlocOfCodeTotalCount : Z := 13.

Definition BranchStmtSemi : Z := 0.
Definition BranchStmtBreak : Z := 1.
Definition BranchStmtContinue : Z := 2.
Definition BranchStmtFallthrough : Z := 3.
Definition BranchStmtGoto : Z := 4.

Definition GoDferStmtGo : Z := 0.
Definition GoDferStmtDefer : Z := 1.

Definition ExpressionBrackets : Z := 0.
Definition ExpressionOrOr : Z := 1.
Definition ExpressionAndAnd : Z := 2.
Definition ExpressionEqual : Z := 3.
Definition ExpressionNotEq : Z := 4.
Definition ExpressionLessThan : Z := 5.
Definition ExpressionLessEq : Z := 6.
Definition ExpressionGrtEq : Z := 7.
Definition ExpressionGrtThan : Z := 8.
Definition ExpressionPlus : Z := 9.
Definition ExpressionMinus : Z := 10.
Definition ExpressionOr : Z := 11.
Definition ExpressionXor : Z := 12.
Definition ExpressionMul : Z := 13.
Definition ExpressionDiv : Z := 14.
Definition ExpressionMod : Z := 15.
Definition ExpressionAnd : Z := 16.
Definition ExpressionAndNot : Z := 17.
Definition ExpressionLSh : Z := 18.
Definition ExpressionRSh : Z := 19.
Definition ExpressionNot : Z := 20.
Definition ExpressionDot : Z := 21.
Definition ExpressionSlice : Z := 22.
Definition ExpressionComposite : Z := 23.
Definition ExpressionCall : Z := 24.
Definition ExpressionArrow : Z := 25.
Definition ExpressionArrayType : Z := 26.
Definition ExpressionSliceType : Z := 27.
Definition ExpressionKeyVal : Z := 28.
Definition ExpressionType : Z := 29.
Definition ExpressionCallDotDotDot : Z := 30.
Definition ExpressionComposed : Z := 31.
Definition ExpressionIndex : Z := 32.
Definition ExpressionMap : Z := 33.
Definition ExpressionIdentifier : Z := 34.
Definition ExpressionChan : Z := 35.
Definition ExpressionInChan : Z := 36.
Definition ExpressionOutChan : Z := 37.
Definition ExpressionTotalCount : Z := 38.

Definition IncDecStmtPlusPlus : Z := 0.
Definition IncDecStmtMinusMinus : Z := 1.

Definition AssignStmtEqual : Z := 0.
Definition AssignStmtColonEq : Z := 1.
Definition AssignStmtAndNot : Z := 2.
Definition AssignStmtAdd : Z := 3.
Definition AssignStmtSub : Z := 4.
Definition AssignStmtMul : Z := 5.
Definition AssignStmtQuo : Z := 6.
Definition AssignStmtRem : Z := 7.
Definition AssignStmtAnd : Z := 8.
Definition AssignStmtOr : Z := 9.
Definition AssignStmtXor : Z := 10.
Definition AssignStmtShl : Z := 11.
Definition AssignStmtShr : Z := 12.
Definition AssignStmtIotaIsLast : Z := 13.
Definition AssignStmtTypeIsLast : Z := 14.
Definition AssignStmtMoreEqual : Z := 15.
Definition AssignStmtMoreColonEq : Z := 16.
Definition AssignStmtMoreEqualRange : Z := 17.
Definition AssignStmtMoreColonEqRange : Z := 18.
Definition AssignStmtTotalCount : Z := 19.

Definition VarDefStmtVar : Z := 0.
Definition VarDefStmtConst : Z := 1.
Definition VarDefStmtTotalCount : Z := 2.

Definition LblGotoCntLabel : Z := 0.
Definition LblGotoCntGoto : Z := 1.
Definition LblGotoCntContinue : Z := 2.
Definition LblGotoCntBreak : Z := 3.

Definition TypedIdentNormal : Z := 0.
Definition TypedIdentEquals : Z := 1.
Definition TypedIdentEllipsis : Z := 2.
Definition TypedIdentTagged : Z := 3.

Definition TypDefStmtNormal : Z := 0.
Definition TypDefStmtAlias : Z := 1.

Definition CommentRowEnder : Z := 0.
Definition CommentRowNormal : Z := 1.
Definition CommentRowSeparate : Z := 2.

Definition PackageDefNormal : Z := 0.
Definition PackageDefSeparate : Z := 1.

(** ** Constructors

    [kind] is a [byte], [receiver] a [bool], the counts are [uint64]. *)

Definition ToplevFuncNode (receiver : bool) (argc : Z) : res slice :=
  let recv := if receiver then 1 else 0 in
  slice3 ToplevFunc (recv + 1) (int_add (int_add (to_int argc) recv) 1).

Definition BlocOfCodeNode (kind headelemscount : Z) : res slice :=
  slice3 BlocOfCode (kind + 1)
         (int_add (to_int headelemscount) BlocOfCodeTotalCount).

Definition ExpressionNode (kind elemscount : Z) : res slice :=
  slice3 Expression (kind + 1)
         (to_int (add64 elemscount ExpressionTotalCount)).

Definition BranchStmtNode (kind : Z) : res slice :=
  slice2 BranchStmt (kind + 1).

Definition IncDecStmtNode (kind : Z) : res slice :=
  slice2 IncDecStmt (kind + 1).

Definition AssignStmtNode (kind elemscount : Z) : res slice :=
  slice3 AssignStmt (kind + 1)
         (to_int (add64 elemscount AssignStmtTotalCount)).

Definition ClosureExpNode (paramscount : Z) : res slice :=
  slice2 ClosureExp (int_add (to_int paramscount) 1).

Definition GoDferStmtNode (kind : Z) : res slice :=
  slice2 GoDferStmt (kind + 1).

Definition LblGotoCntNode (kind : Z) : res slice :=
  slice2 LblGotoCnt (kind + 1).

Definition VarDefStmtNode (kind : Z) : res slice :=
  slice2 VarDefStmt (kind + 1).

Definition TypDefStmtNode (kind : Z) : res slice :=
  slice2 TypDefStmt (kind + 1).

(** ** Which

    The chain of pointer comparisons of [Which], in the order of the
    source; [None] when no family starts at the pointer. *)

Definition same (p q : array * Z) : bool :=
  bool_decide (fst p = fst q) && (snd p =? snd q).

Definition family_at (p : array * Z) : option family :=
  if same p (family_addr RootMatter) then Some RootMatter
  else if same p (family_addr FileMatter) then Some FileMatter
  else if same p (family_addr PackageDef) then Some PackageDef
  else if same p (family_addr ImportStmt) then Some ImportStmt
  else if same p (family_addr ImportsDef) then Some ImportsDef
  else if same p (family_addr ToplevFunc) then Some ToplevFunc
  else if same p (family_addr TypedIdent) then Some TypedIdent
  else if same p (family_addr RootOfType) then Some RootOfType
  else if same p (family_addr BlocOfCode) then Some BlocOfCode
  else if same p (family_addr TypDefStmt) then Some TypDefStmt
  else if same p (family_addr StructType) then Some StructType
  else if same p (family_addr BranchStmt) then Some BranchStmt
  else if same p (family_addr GoDferStmt) then Some GoDferStmt
  else if same p (family_addr Expression) then Some Expression
  else if same p (family_addr ReturnStmt) then Some ReturnStmt
  else if same p (family_addr IncDecStmt) then Some IncDecStmt
  else if same p (family_addr AssignStmt) then Some AssignStmt
  else if same p (family_addr VarDefStmt) then Some VarDefStmt
  else if same p (family_addr LblGotoCnt) then Some LblGotoCnt
  else if same p (family_addr ClosureExp) then Some ClosureExp
  else if same p (family_addr IfceTypExp) then Some IfceTypExp
  else if same p (family_addr IfceMethod) then Some IfceMethod
  else if same p (family_addr CommentRow) then Some CommentRow
  else None.

(** [Which(node)]: the family variable the node is carved from ([Some f]),
    or nil ([None]); it panics on a non-nil node of length zero. *)
Definition Which (node : byteslice) : res (option family) :=
  match node with
  | None => Ret None
  | Some _ =>
      match addr0 node with
      | Ret p => Ret (family_at p)
      | Panic e => Panic e
      | Starved => Starved
      end
  end.

(** ** The render pass as a computation

    [Code] reads the map it is given, calls [print] and may panic; its
    model runs in a state monad over the map and the strings printed so
    far, with an outcome that is a value, a panic, or fuel exhaustion (the
    recursion of [Code] need not end on a cyclic store). *)

Record world : Type := World {
  ast : gmap Z byteslice;
  printed : list string
}.

Definition M (A : Type) : Type := world -> res A * world.

Definition ret {A : Type} (a : A) : M A := fun w => (Ret a, w).

Definition bind {A B : Type} (m : M A) (k : A -> M B) : M B :=
  fun w =>
    match m w with
    | (Ret a, w') => k a w'
    | (Panic e, w') => (Panic e, w')
    | (Starved, w') => (Starved, w')
    end.

Definition lift {A : Type} (r : res A) : M A := fun w => (r, w).

Declare Scope M_scope.

Delimit Scope M_scope with M.

Bind Scope M_scope with M.

Notation "x <- m ;; k" := (bind m (fun x => k))
  (at level 100, m at next level, k at level 200, right associativity)
  : M_scope.

Notation "m ;; k" := (bind m (fun _ => k))
  (at level 100, k at level 200, right associativity) : M_scope.

Local Open Scope M_scope.

(** [ast[key]]: the zero value, nil, when the key is missing. *)
Definition index (key : Z) : M byteslice :=
  fun w => (Ret (default None (ast w !! key)), w).

(** [print(s)] *)
Definition print (s : string) : M unit :=
  fun w => (Ret tt, {| ast := ast w; printed := printed w ++ [s] |}).

(** [_, ok := ast[iterator]] *)
Definition present (m : gmap Z byteslice) (iterator : Z) : bool :=
  match m !! iterator with Some _ => true | None => false end.

Definition Poke (iterator : Z) : M bool :=
  fun w => (Ret (present (ast w) iterator), w).

Definition when (b : bool) (m : M unit) : M unit :=
  if b then m else ret tt.

(** A [switch] over constants; a case lists the values that reach its body
    (its own and those that fall through to it). *)
Fixpoint switch {A : Type} (x : Z) (cases : list (list Z * A)) (default : A)
  : A :=
  match cases with
  | [] => default
  | (ks, a) :: rest =>
      if existsb (Z.eqb x) ks then a else switch x rest default
  end.

Definition is_nil (x : byteslice) : bool :=
  match x with None => true | Some _ => false end.

(** [&x[0] == &F[0]] and [&x[0] != &F[0]] *)
Definition heads (f : family) (x : byteslice) : res bool :=
  match addr0 x with
  | Ret p => Ret (same p (family_addr f))
  | Panic e => Panic e
  | Starved => Starved
  end.

Definition differs (f : family) (x : byteslice) : res bool :=
  match addr0 x with
  | Ret p => Ret (negb (same p (family_addr f)))
  | Panic e => Panic e
  | Starved => Starved
  end.

(** [x == nil || c] and [x != nil && c], the right operand evaluated only
    when the left one does not decide. *)
Definition nil_or (x : byteslice) (c : res bool) : res bool :=
  if is_nil x then Ret true else c.

Definition nonnil_and (x : byteslice) (c : res bool) : res bool :=
  if is_nil x then Ret false else c.

(** *** Before the children (tree.go, the first switch of [Code])

    [node] is [ast[iterator]], known not to be nil. *)

(** The keyword that introduces a block of kind [op]. *)
Definition introducer (op : Z) : M unit :=
  switch op
    [ ([BlocOfCodePlain], ret tt);
      ([BlocOfCodeIf; BlocOfCodeIfElse], print "if ");
      ([BlocOfCodeFor], print "for ");
      ([BlocOfCodeForRange], print "for range ");
      ([BlocOfCodeSwitch; BlocOfCodeTypeSwitch], print "switch ");
      ([BlocOfCodeSelect], print "select ");
      ([BlocOfCodeCase], print "case ");
      ([BlocOfCodeCommunicateDefault; BlocOfCodeDefault],
         print "default:" ;; print EmptyString);
      ([BlocOfCodeCommunicate], print "case ");
      ([BlocOfCodeNone], ret tt) ]
    (ret tt).

Definition open_BlocOfCode (node : byteslice) : M unit :=
  introducer (to_byte (len node - 1)) ;;
  when (cap node =? BlocOfCodeTotalCount)
    (when (len node - 1 <? BlocOfCodeCase)
       (print "{" ;; print EmptyString)).

Definition open_Expression (node : byteslice) : M unit :=
  let op := to_byte (len node - 1) in
  let l := to_byte (cap node - ExpressionTotalCount) in
  if l =? 1 then
    switch op
      [ ([ExpressionBrackets], print "(");
        ([ExpressionPlus], print "+");
        ([ExpressionMinus], print "-");
        ([ExpressionXor], print "^");
        ([ExpressionMul], print "*");
        ([ExpressionAnd], print "&");
        ([ExpressionNot], print "!");
        ([ExpressionArrow], print "<-");
        ([ExpressionChan], print "chan ");
        ([ExpressionInChan], print "chan<- ");
        ([ExpressionOutChan], print "<-chan ");
        ([ExpressionComposed], print "{") ]
      (ret tt)
  else
    switch op
      [ ([ExpressionArrayType], print "[]");
        ([ExpressionComposed], print "{" ;; when (l =? 0) (print "}"));
        ([ExpressionSliceType], print "[");
        ([ExpressionMap], print "map[") ]
      (ret tt).

Definition open_switch (tag : option family) (ast_o_iterator : string)
    (node : byteslice) (iterator parent : Z) : M unit :=
  match tag with
  | Some CommentRow =>
      when (len node - 1 =? CommentRowSeparate) (print EmptyString) ;;
      print ast_o_iterator
  | Some PackageDef =>
      when (len node - 1 =? PackageDefSeparate) (print EmptyString) ;;
      print "package " ;;
      print ast_o_iterator
  | Some ImportStmt =>
      up <- index parent ;;
      defparent <- lift (nonnil_and up (heads ImportsDef up)) ;;
      when (negb defparent) (print "import ") ;;
      print ast_o_iterator ;;
      x <- index (add64 (O iterator) 1) ;;
      let another := text x in
      when (0 <? len x) (print " " ;; print another) ;;
      when defparent (print EmptyString)
  | Some ImportsDef =>
      print "import (" ;;
      print EmptyString
  | Some ToplevFunc =>
      print "func " ;;
      when (len node =? 2) (print "(")
  | Some BlocOfCode => open_BlocOfCode node
  | Some RootOfType => ret tt
  | Some TypDefStmt =>
      print "type " ;;
      print ast_o_iterator ;;
      print " " ;;
      let op := to_byte (len node - 1) in
      when (op =? TypDefStmtAlias) (print "= ")
  | Some StructType =>
      print "struct{" ;;
      x <- index (O iterator) ;;
      when (negb (is_nil x)) (print EmptyString)
  | Some IfceTypExp =>
      print "interface{" ;;
      x <- index (O iterator) ;;
      when (negb (is_nil x)) (print EmptyString)
  | Some GoDferStmt =>
      switch (to_byte (len node - 1))
        [ ([GoDferStmtGo], print "go ");
          ([GoDferStmtDefer], print "defer ") ]
        (ret tt)
  | Some BranchStmt =>
      switch (to_byte (len node - 1))
        [ ([BranchStmtSemi], print ";");
          ([BranchStmtBreak], print "break");
          ([BranchStmtContinue], print "continue");
          ([BranchStmtFallthrough], print "fallthrough");
          ([BranchStmtGoto], print "goto") ]
        (ret tt)
  | Some Expression => open_Expression node
  | Some ReturnStmt => print "return "
  | Some VarDefStmt =>
      let op := to_byte (len node - 1) in
      x1 <- index (add64 (O iterator) 1) ;;
      let multi := 0 <? len x1 in
      x0 <- index (O iterator) ;;
      let none := len x0 =? 0 in
      switch op
        [ ([VarDefStmtVar], print "var ");
          ([VarDefStmtConst], print "const ") ]
        (ret tt) ;;
      if multi then print "(" ;; print EmptyString
      else when none (print "()")
  | Some LblGotoCnt =>
      let op := to_byte (len node - 1) in
      switch op
        [ ([LblGotoCntGoto], print "goto ");
          ([LblGotoCntContinue], print "continue ");
          ([LblGotoCntBreak], print "break ") ]
        (ret tt)
  | Some ClosureExp =>
      print "func(" ;;
      x <- index (O iterator) ;;
      end_ <- lift (nil_or x (heads BlocOfCode x)) ;;
      let separ := to_uint64 (len node - 1) in
      when (separ =? 0) (print ")(") ;;
      when end_ (print ")")
  | Some TypedIdent =>
      x <- index (add64 (O iterator) 1) ;;
      c <- lift (nil_or x (differs RootOfType x)) ;;
      when c
        (let op := to_byte (len node - 1) in
         switch op [ ([TypedIdentEllipsis], print "...") ] (ret tt))
  | _ => ret tt
  end.

(** [if ast[iterator] != nil { switch &(ast[iterator])[0] { ... } }]: the
    cases are addresses of the first bytes of families, which are all
    different, so that the case taken is the family found at the address. *)
Definition Code_open (ast_o_iterator : string) (iterator parent : Z)
  : M unit :=
  node <- index iterator ;;
  if is_nil node then ret tt else
  p <- lift (addr0 node) ;;
  open_switch (family_at p) ast_o_iterator node iterator parent.

(** *** After each child, and once more at the end (the second switch)

    [i] is the loop index after the test of [Poke]: the index of the child
    just rendered, or [uint64big] when the run has ended. *)

Definition each_ToplevFunc (ast_o_iterator : string) (node : byteslice)
    (iterator i : Z) : M unit :=
  x0 <- index (add64 (O iterator) i) ;;
  alpha <- lift (nil_or x0 (heads BlocOfCode x0)) ;;
  x1 <- index (add64 (add64 (O iterator) i) 1) ;;
  beta <- lift (nil_or x1 (heads BlocOfCode x1)) ;;
  let gamma := cap node =? len node in
  let epsil := negb (len node - 1 =? 0) in
  let omega := negb (i =? uint64big) in
  let theta := i =? 0 in
  let phi := i =? 1 in
  let rho := add64 i 1 =? to_uint64 (cap node) in
  (if alpha then ret tt
   else if beta then
     if gamma && omega && Bool.eqb epsil phi && negb (Bool.eqb theta phi)
     then
       when phi (print ") ") ;;
       print ast_o_iterator ;;
       print "()"
     else print ")"
   else
     (if negb theta then
        if epsil && phi then
          print ") " ;;
          print ast_o_iterator ;;
          print "("
        else when (negb rho) (print ", ")
      else when (negb epsil) (print ast_o_iterator ;; print "(")) ;;
     when rho (print ")(")) ;;
  when (i =? uint64big) (print EmptyString).

Definition each_TypedIdent (node : byteslice) (iterator i : Z) : M unit :=
  x <- index (add64 (O iterator) i) ;;
  c <- lift (nonnil_and x (differs RootOfType x)) ;;
  when c
    (y <- index (sub64 (add64 (O iterator) i) 1) ;;
     c1 <- lift (nonnil_and y (heads RootOfType y)) ;;
     when c1 (print " ") ;;
     print (text x) ;;
     z <- index (add64 (add64 (O iterator) i) 1) ;;
     c2 <- lift (nonnil_and z (differs RootOfType z)) ;;
     if c2 then print ", "
     else
       let op := to_byte (len node - 1) in
       switch op
         [ ([TypedIdentTagged; TypedIdentNormal], print " ");
           ([TypedIdentEquals], print " = ");
           ([TypedIdentEllipsis], print " ...") ]
         (ret tt)).

Definition each_BlocOfCode (node : byteslice) (i : Z) : M unit :=
  if negb (i =? uint64big) then
    if add64 (add64 i BlocOfCodeTotalCount) 1 =? to_uint64 (cap node) then
      if len node - 1 =? BlocOfCodeCase then
        print ":" ;; print EmptyString
      else if len node - 1 =? BlocOfCodeCommunicate then
        print ":" ;; print EmptyString
      else when (len node - 1 <? BlocOfCodeCase)
             (print "{" ;; print EmptyString)
    else if to_uint64 (cap node) <? add64 (add64 i BlocOfCodeTotalCount) 1
    then print EmptyString
    else if add64 (add64 i BlocOfCodeTotalCount) 1 <? to_uint64 (cap node)
    then when (len node - 1 =? BlocOfCodeCase) (print ", ")
    else ret tt
  else if i =? uint64big then
    when (len node - 1 <? BlocOfCodeCase) (print "}") ;;
    when (len node - 1 =? BlocOfCodeIfElse) (print " else")
  else ret tt.

Definition each_Expression (node : byteslice) (iterator i : Z) : M unit :=
  let caseheader := true in
  let blockheader := true in
  let op := to_byte (len node - 1) in
  let l := to_uint64 (cap node - ExpressionTotalCount) in
  x <- index (add64 (O iterator) i) ;;
  w <- lift (Which x) ;;
  when (bool_decide (w = None)) (when (0 <? len x) (print (text x))) ;;
  when (negb (i =? uint64big))
    (let i := add64 i 1 in
     (if Bool.eqb (1 <=? i) (1 <? l) && negb (i =? l) then
        if i =? 0 then ret tt
        else
          switch op
            [ ([ExpressionDot], print ".");
              ([ExpressionCallDotDotDot; ExpressionCall],
                 if i =? 1 then print "(" else print ",");
              ([ExpressionOrOr], print " || ");
              ([ExpressionAndAnd], print " && ");
              ([ExpressionEqual], print " == ");
              ([ExpressionNotEq], print " != ");
              ([ExpressionLessThan], print " < ");
              ([ExpressionLessEq], print " <= ");
              ([ExpressionGrtEq], print " >= ");
              ([ExpressionGrtThan], print " > ");
              ([ExpressionPlus], print " + ");
              ([ExpressionMinus], print " - ");
              ([ExpressionOr], print " | ");
              ([ExpressionXor], print " ^ ");
              ([ExpressionMul], print " * ");
              ([ExpressionDiv], print " / ");
              ([ExpressionMod], print " % ");
              ([ExpressionAnd], print " & ");
              ([ExpressionAndNot], print " &^ ");
              ([ExpressionLSh], print " << ");
              ([ExpressionRSh], print " >> ");
              ([ExpressionArrow], print " <- ");
              ([ExpressionKeyVal], print ":");
              ([ExpressionIndex], print "[");
              ([ExpressionSlice],
                 if i =? 1 then print "[" else print ":");
              ([ExpressionComposite],
                 if i =? 1 then print "{" else print ", ");
              ([ExpressionComposed], print ", ");
              ([ExpressionMap; ExpressionSliceType], print "]");
              ([ExpressionType], print ".(") ]
            (ret tt)
      else if (i =? 1) && (l =? 1) then
        switch op
          [ ([ExpressionBrackets], print ")");
            ([ExpressionCallDotDotDot; ExpressionCall], print "()");
            ([ExpressionComposed], print "}");
            ([ExpressionComposite], print "{}");
            ([ExpressionType], print ".(type)") ]
          (ret tt)
      else if (i =? l) && (0 <? i) then
        switch op
          [ ([ExpressionIndex], print "]");
            ([ExpressionSlice],
               if l =? 2 then print ":]" else print "]");
            ([ExpressionComposed; ExpressionComposite], print "}");
            ([ExpressionCallDotDotDot], print "...)");
            ([ExpressionCall], print ")");
            ([ExpressionType], print ")") ]
          (ret tt)
      else ret tt) ;;
     when (i =? l)
       (if caseheader then ret tt
        else when blockheader (print " "))).

Definition each_AssignStmt (node : byteslice) (iterator i : Z) : M unit :=
  let blockheader := true in
  let op := to_byte (len node - 1) in
  let l := to_uint64 (cap node - AssignStmtTotalCount) in
  x <- index (add64 (O iterator) i) ;;
  w <- lift (Which x) ;;
  when (bool_decide (w = None)) (when (0 <? len x) (print (text x))) ;;
  when (negb (i =? uint64big))
    (let i := add64 i 1 in
     if i =? l then
       if blockheader then print " " else print EmptyString
     else if (add64 i 1 =? l) && (AssignStmtTypeIsLast <? op) then
       switch op
         [ ([AssignStmtMoreEqual], print " = ");
           ([AssignStmtMoreColonEq], print " := ");
           ([AssignStmtMoreEqualRange], print " = range ");
           ([AssignStmtMoreColonEqRange], print " := range ");
           ([AssignStmtIotaIsLast], print ", ") ]
         (ret tt)
     else if (i =? Z.shiftr (add64 l 1) 1)
             && negb (op =? AssignStmtTypeIsLast) then
       switch op
         [ ([AssignStmtEqual], print " = ");
           ([AssignStmtColonEq], print " := ");
           ([AssignStmtAdd], print " += ");
           ([AssignStmtSub], print " -= ");
           ([AssignStmtMul], print " *= ");
           ([AssignStmtQuo], print " /= ");
           ([AssignStmtRem], print " %= ");
           ([AssignStmtAnd], print " &= ");
           ([AssignStmtOr], print " |= ");
           ([AssignStmtXor], print " ^= ");
           ([AssignStmtShl], print " <<= ");
           ([AssignStmtShr], print " >>= ");
           ([AssignStmtAndNot], print " &^= ");
           ([AssignStmtMoreEqual; AssignStmtMoreColonEq;
             AssignStmtMoreEqualRange; AssignStmtMoreColonEqRange],
              print ", ");
           ([AssignStmtIotaIsLast], print ", ") ]
         (ret tt)
     else if (i =? Z.shiftr l 1) && (op <? AssignStmtTypeIsLast) then
       print " "
     else if (0 <? i)
             && (negb (add64 i 1 =? l)
                 || negb (op =? AssignStmtTypeIsLast)) then
       print ", "
     else when (0 <? i) (print " ")).

Definition each_VarDefStmt (iterator i : Z) : M unit :=
  when (negb (i =? uint64big))
    (x <- index (add64 (O iterator) i) ;;
     y <- index (add64 (add64 (O iterator) i) 1) ;;
     when (negb (len x =? 0)) (when (negb (len y =? 0)) (print EmptyString)) ;;
     z <- index (sub64 (add64 (O iterator) i) 1) ;;
     when (negb (len z =? 0))
       (when (len y =? 0)
          (print EmptyString ;; print ")" ;; print EmptyString))).

Definition each_FileMatter (iterator i : Z) : M unit :=
  when (negb (i =? uint64big))
    (x1 <- index (add64 (add64 (O iterator) i) 1) ;;
     xyz <- lift (nil_or x1 (heads CommentRow x1)) ;;
     x0 <- index (add64 (add64 (O iterator) i) 0) ;;
     abc <- lift (nonnil_and x0 (heads CommentRow x0)) ;;
     def <- lift (nonnil_and x1 (heads CommentRow x1)) ;;
     let end_ := len x1 - 1 =? CommentRowEnder in
     let ene := len x0 - 1 =? CommentRowEnder in
     when (negb xyz || negb end_) (print EmptyString) ;;
     when (abc && def && end_ && ene) (print EmptyString)).

Definition each_ClosureExp (node : byteslice) (iterator i : Z) : M unit :=
  when (negb (i =? uint64big))
    (x1 <- index (add64 (add64 (O iterator) i) 1) ;;
     end_ <- lift (nil_or x1 (heads BlocOfCode x1)) ;;
     x0 <- index (add64 (add64 (O iterator) i) 0) ;;
     xyz <- lift (nil_or x0 (heads BlocOfCode x0)) ;;
     if end_ then when (negb xyz) (print ")")
     else
       when (negb xyz)
         (let separ := to_uint64 (len node - 1) in
          if add64 i 1 =? separ then print ")(" else print ", ")).

Definition each_IfceMethod (node : byteslice) (iterator i : Z) : M unit :=
  if i =? 0 then
    x <- index (add64 (add64 (O iterator) i) 1) ;;
    let end_ := is_nil x in
    if end_ then print "()"
    else
      let op := to_uint64 (len node - 1) in
      when (0 =? op) (print "()") ;;
      print "("
  else if negb (i =? uint64big) then
    x <- index (add64 (add64 (O iterator) i) 1) ;;
    let end_ := is_nil x in
    if end_ then print ")"
    else
      let op := to_uint64 (len node - 1) in
      if i =? op then print ")(" else print ", "
  else ret tt.

Definition each_switch (tag : option family) (ast_o_iterator : string)
    (node : byteslice) (iterator i : Z) : M unit :=
  match tag with
  | Some ImportsDef => when (i =? uint64big) (print ")")
  | Some ToplevFunc => each_ToplevFunc ast_o_iterator node iterator i
  | Some TypedIdent => each_TypedIdent node iterator i
  | Some BlocOfCode => each_BlocOfCode node i
  | Some TypDefStmt => when (i =? uint64big) (print EmptyString)
  | Some IfceTypExp | Some StructType =>
      if i =? uint64big then print "}" else print EmptyString
  | Some GoDferStmt => ret tt
  | Some Expression => each_Expression node iterator i
  | Some ReturnStmt =>
      if negb (i =? uint64big) then
        x <- index (add64 (add64 (O iterator) i) 1) ;;
        when (negb (is_nil x)) (print ", ")
      else ret tt
  | Some IncDecStmt =>
      (if i =? 0 then
         x <- index (O iterator) ;;
         w <- lift (Which x) ;;
         when (bool_decide (w = None))
           (when (0 <? Z.of_nat (String.length ast_o_iterator))
              (print ast_o_iterator))
       else ret tt) ;;
      when (i =? uint64big)
        (let op := to_byte (len node - 1) in
         switch op
           [ ([IncDecStmtPlusPlus], print "++");
             ([IncDecStmtMinusMinus], print "--") ]
           (ret tt))
  | Some AssignStmt => each_AssignStmt node iterator i
  | Some RootOfType =>
      if i =? uint64big then
        x <- index (O iterator) ;;
        w <- lift (Which x) ;;
        when (bool_decide (w = None))
          (when (0 <? Z.of_nat (String.length ast_o_iterator))
             (print ast_o_iterator))
      else ret tt
  | Some LblGotoCnt =>
      when (i =? uint64big)
        (let op := to_byte (len node - 1) in
         switch op
           [ ([LblGotoCntBreak; LblGotoCntContinue; LblGotoCntGoto],
                print ast_o_iterator);
             ([LblGotoCntLabel], print ast_o_iterator ;; print ": ") ]
           (ret tt))
  | Some VarDefStmt => each_VarDefStmt iterator i
  | Some FileMatter => each_FileMatter iterator i
  | Some ClosureExp => each_ClosureExp node iterator i
  | Some IfceMethod => each_IfceMethod node iterator i
  | _ => ret tt
  end.

Definition Code_each (ast_o_iterator : string) (iterator i : Z) : M unit :=
  node <- index iterator ;;
  if is_nil node then ret tt else
  p <- lift (addr0 node) ;;
  each_switch (family_at p) ast_o_iterator node iterator i.

(** *** The loop over the child run, and [Code]

    [for i := uint64(0); i < uint64big; i++]: a present key is rendered by
    a recursive call ([visit]), an absent one sets [i] to [uint64big]; the
    second switch ([after]) then runs on that [i]. Each turn of the loop
    and each level of the recursion takes one unit of fuel. *)

Fixpoint Code_loop (visit : Z -> Z -> M unit) (after : Z -> M unit)
    (fuel : nat) (iterator i : Z) : M unit :=
  if i <? uint64big then
    match fuel with
    | 0%nat => lift Starved
    | S fuel' =>
        ok <- Poke (add64 (O iterator) i) ;;
        i <- (if ok then visit (add64 (O iterator) i) iterator ;; ret i
              else ret uint64big) ;;
        after i ;;
        Code_loop visit after fuel' iterator (add64 i 1)
    end
  else ret tt.

Fixpoint Code (fuel : nat) (iterator parent : Z) : M unit :=
  match fuel with
  | 0%nat => lift Starved
  | S fuel' =>
      x <- index (O iterator) ;;
      let ast_o_iterator := text x in
      Code_open ast_o_iterator iterator parent ;;
      Code_loop (Code fuel') (Code_each ast_o_iterator iterator) fuel'
                iterator 0
  end.

(** ** The comment classifier

    [LookupComments(file, EnderSepar)] scans the bytes of a source file
    once and adds keys to the two sets it is given: [EnderSepar[0]], the
    comments that end a line of code, and [EnderSepar[1]], what follows
    an empty line. *)

Record scan : Type := Scan {
  whitespace : bool;
  cleanline : bool;
  sawender : bool;
  Ender : gset Z;          (* EnderSepar[0] *)
  Separ : gset Z           (* EnderSepar[1] *)
}.

(** [c > ' '] *)
Definition above_space (c : byte) : bool := (32 <? Byte.to_N c)%N.

(** One turn of the loop, at index [i] with [c = file[i]] and
    [d = file[i+1]]. *)
Definition LookupComments_turn (i : Z) (c d : byte) (st : scan) : scan :=
  if Byte.eqb c "010" then
    {| whitespace := true;
       cleanline := if whitespace st then true else cleanline st;
       sawender := false;
       Ender := Ender st; Separ := Separ st |}
  else
    let st :=
      if Byte.eqb c "/" && Byte.eqb d "/" && negb (whitespace st)
         && negb (sawender st)
      then {| whitespace := whitespace st; cleanline := cleanline st;
              sawender := true;
              Ender := {[ (i + 1) / 2 ]} ∪ Ender st; Separ := Separ st |}
      else st in
    let st :=
      if Byte.eqb c "/" && Byte.eqb d "*" && negb (whitespace st)
         && negb (sawender st)
      then {| whitespace := whitespace st; cleanline := cleanline st;
              sawender := true;
              Ender := {[ (i + 1) / 2 ]} ∪ Ender st; Separ := Separ st |}
      else st in
    let st :=
      if Byte.eqb c "/" && Byte.eqb d "/" && cleanline st
      then {| whitespace := whitespace st; cleanline := false;
              sawender := sawender st;
              Ender := Ender st; Separ := {[ (i + 1) / 2 ]} ∪ Separ st |}
      else st in
    let st :=
      if Byte.eqb c "/" && Byte.eqb d "*" && cleanline st
      then {| whitespace := whitespace st; cleanline := false;
              sawender := sawender st;
              Ender := Ender st; Separ := {[ (i + 1) / 2 ]} ∪ Separ st |}
      else st in
    let st :=
      if Byte.eqb c "p" && Byte.eqb d "a" && cleanline st
      then {| whitespace := whitespace st; cleanline := false;
              sawender := sawender st;
              Ender := Ender st; Separ := {[ (i + 1) / 2 ]} ∪ Separ st |}
      else st in
    if above_space c
    then {| whitespace := false; cleanline := false;
            sawender := sawender st;
            Ender := Ender st; Separ := Separ st |}
    else st.

(** The state after the turns [i = 0 .. n-1] of
    [for i := 0; i+1 < len(file); i++]. *)
Fixpoint LookupComments_upto (file : list byte) (start : scan) (n : nat)
  : scan :=
  match n with
  | 0%nat => start
  | S m =>
      let st := LookupComments_upto file start m in
      match file !! m, file !! S m with
      | Some c, Some d => LookupComments_turn (Z.of_nat m) c d st
      | _, _ => st
      end
  end.

Definition LookupComments (file : list byte) (EnderSepar : gset Z * gset Z)
  : gset Z * gset Z :=
  let start := {| whitespace := false; cleanline := false;
                  sawender := false;
                  Ender := fst EnderSepar; Separ := snd EnderSepar |} in
  let st := LookupComments_upto file start (length file - 1) in
  (Ender st, Separ st).

(** ** The dump

    [itoA], and [Dump] as a computation like [Code]: the [print] it is
    given appends to the strings printed, and the recursion and the loop
    each take one unit of fuel. *)

(** [string(a[k:])] for an array of bytes. *)
Definition string_of_bytes (l : list Z) : string :=
  fold_right (fun b s => String (ascii_of_N (Z.to_N b)) s) EmptyString l.

(** [n / 10] and [n % 10] truncate toward zero; [byte(x)] and [+=] on a
    byte wrap. *)
Definition itoA (n : Z) : string :=
  if 9999 <? n then "many" else
  let a3 := to_byte (48 + to_byte (Z.rem n 10)) in
  let a2 := to_byte (48 + to_byte (Z.rem (Z.quot n 10) 10)) in
  let a1 := to_byte (48 + to_byte (Z.rem (Z.quot n 100) 10)) in
  let a0 := to_byte (48 + to_byte (Z.rem (Z.quot n 1000) 10)) in
  if a0 =? 48 then
    if a1 =? 48 then
      if a2 =? 48 then string_of_bytes [a3]
      else string_of_bytes [a2; a3]
    else string_of_bytes [a1; a2; a3]
  else string_of_bytes [a0; a1; a2; a3].

(** [s[:hi]] for a string, with Go's bounds check. *)
Definition upto (s : string) (hi : Z) : res string :=
  if (0 <=? hi) && (hi <=? Z.of_nat (String.length s)) then
    Ret (substring 0 (Z.to_nat hi) s)
  else Panic SliceBounds.

(** The literal that [Dump] cuts its indentation from. *)
Definition Dump_blanks : string :=
  "                                                      ".

(** [switch len(Which(ast[iterator]))]: [Which] returns the family
    variable, of length [family_cap]. *)
Definition Dump_family (f : family) : M unit :=
  switch (family_cap f)
    [ ([10], print (family_bytes f 10));
      ([MaxSubnodes], print "Expression");
      ([MaxSubnodes - 16], print "BlocOfCode");
      ([MaxSubnodes - 32], print "ToplevFunc");
      ([MaxSubnodes - 48], print "AssignStmt");
      ([MaxSubnodes - 64], print "ClosureExp");
      ([MaxSubnodes - 80], print "IfceMethod") ]
    (ret tt).

(** The line of one record; the value is [ok] of [nod, ok := ast[iterator]]. *)
Definition Dump_line (iterator pad : Z) : M bool :=
  indent <- lift (upto Dump_blanks pad) ;;
  print indent ;;
  ok <- Poke iterator ;;
  nod <- index iterator ;;
  if negb ok then
    print "[-]" ;; print EmptyString ;; ret false
  else if is_nil nod then
    print " [nil]" ;; print EmptyString ;; ret true
  else
    w <- lift (Which nod) ;;
    match w with
    | Some f =>
        print " [" ;;
        Dump_family f ;;
        print " " ;;
        print (itoA (len nod - 1)) ;;
        print " " ;;
        print (itoA (cap nod - 1)) ;;
        print "]" ;;
        print EmptyString ;;
        ret true
    | None =>
        print (" [string " ++ text nod ++ "]") ;;
        print EmptyString ;;
        ret true
    end.

(** [for i := uint64(0); true; i++]: the loop ends at the first call that
    returns false. *)
Fixpoint Dump_loop (visit : Z -> Z -> M bool) (fuel : nat)
    (iterator pad i : Z) : M bool :=
  match fuel with
  | 0%nat => lift Starved
  | S fuel' =>
      ok <- visit (add64 (O iterator) i) (int_add pad 1) ;;
      if negb ok then ret true
      else Dump_loop visit fuel' iterator pad (add64 i 1)
  end.

Fixpoint Dump (fuel : nat) (iterator pad : Z) : M bool :=
  match fuel with
  | 0%nat => lift Starved
  | S fuel' =>
      let pad := if 50 <? pad then 50 else pad in
      ok <- Dump_line iterator pad ;;
      if negb ok then ret false
      else Dump_loop (Dump fuel') fuel' iterator pad 0
  end.

(** * Vocabulary of the properties *)

(** ** Computations that only read the map and only print

    [emits m]: from every world, [m] leaves the map as it was and appends
    to the strings printed a list that, like the outcome, does not depend
    on what had been printed before. *)

Definition emits {A : Type} (m : M A) : Prop :=
  forall w, exists l,
    forall o,
      m {| ast := ast w; printed := o |}
      = (fst (m w), {| ast := ast w; printed := o ++ l |}).

Definition decodes (s : slice) (f : family) (variant : Z) : Prop :=
  Which (Some s) = Ret (Some f) /\ len (Some s) - 1 = variant.

(** ** The child run

    [child_run m a n]: the keys O(a)+0 .. O(a)+n-1 are in the map and
    O(a)+n is the first that is not. *)

Fixpoint range (i : Z) (n : nat) : list Z :=
  match n with
  | 0%nat => []
  | S n' => i :: range (i + 1) n'
  end.

Definition indices (n : nat) : list Z := range 0 n.

Definition child_run (m : gmap Z byteslice) (iterator : Z) (n : nat)
  : bool :=
  forallb (fun i => present m (add64 (O iterator) i)) (indices n)
  && negb (present m (add64 (O iterator) (Z.of_nat n)))
  && (Z.of_nat n <? uint64big).

Fixpoint for_each {A : Type} (l : list A) (f : A -> M unit) : M unit :=
  match l with
  | [] => ret tt
  | x :: rest => f x ;; for_each rest f
  end.

(** Two computations that run alike in every world whose map is [s]. *)
Definition agree {A : Type} (s : gmap Z byteslice) (m m' : M A) : Prop :=
  forall w, ast w = s -> m w = m' w.

(** ** Leaves, and stores to evaluate [Code] on *)

Definition textual (x : byteslice) : bool :=
  match x with
  | Some s =>
      match arr s with
      | foreign _ => negb (len x =? 0)
      | _ => false
      end
  | None => false
  end.

Definition out (w : world) (l : list string) : world :=
  {| ast := ast w; printed := printed w ++ l |}.

(** A leaf holding [s] in an array of its own, and the node a constructor
    returns (nil if it panics). *)
Definition leaf (id : N) (s : string) : byteslice :=
  Some {| arr := foreign id; off := 0; bytes := s;
          capacity := Z.of_nat (String.length s) |}.

Definition node_of (r : res slice) : byteslice :=
  match r with Ret s => Some s | _ => None end.

(** [f()] at the root. *)
Definition call_store : gmap Z byteslice :=
  <[ 0 := node_of (ExpressionNode ExpressionCall 1) ]>
  (<[ O 0 := leaf 1 "f" ]> ∅).

(** [T{}] at the root. *)
Definition empty_literal_store : gmap Z byteslice :=
  <[ 0 := node_of (ExpressionNode ExpressionComposite 1) ]>
  (<[ O 0 := leaf 1 "T" ]> ∅).

(** A composite literal with three key-value elements at the root: the
    type, then three ExpressionKeyVal nodes of two leaves each. *)
Definition keyed_literal (T k1 v1 k2 v2 k3 v3 : string)
  : gmap Z byteslice :=
  let e (i : Z) := add64 (O 0) i in
  <[ 0 := node_of (ExpressionNode ExpressionComposite 4) ]>
  (<[ e 0 := leaf 1 T ]>
  (<[ e 1 := node_of (ExpressionNode ExpressionKeyVal 2) ]>
  (<[ add64 (O (e 1)) 0 := leaf 2 k1 ]>
  (<[ add64 (O (e 1)) 1 := leaf 3 v1 ]>
  (<[ e 2 := node_of (ExpressionNode ExpressionKeyVal 2) ]>
  (<[ add64 (O (e 2)) 0 := leaf 4 k2 ]>
  (<[ add64 (O (e 2)) 1 := leaf 5 v2 ]>
  (<[ e 3 := node_of (ExpressionNode ExpressionKeyVal 2) ]>
  (<[ add64 (O (e 3)) 0 := leaf 6 k3 ]>
  (<[ add64 (O (e 3)) 1 := leaf 7 v3 ]> ∅)))))))))).

Definition keyed_literal_store : gmap Z byteslice :=
  keyed_literal "T" "k1" "v1" "k2" "v2" "k3" "v3".

(** A record that is not nil and has no bytes. *)
Definition empty_record : byteslice :=
  Some {| arr := foreign 1; off := 0; bytes := EmptyString; capacity := 0 |}.

(** A plain block whose first child is the empty record and whose second
    child is a break statement. *)
Definition broken_store : gmap Z byteslice :=
  <[ 0 := node_of (BlocOfCodeNode BlocOfCodePlain 0) ]>
  (<[ add64 (O 0) 0 := empty_record ]>
  (<[ add64 (O 0) 1 := node_of (BranchStmtNode BranchStmtBreak) ]> ∅)).

(** The same block with nil in place of the empty record. *)
Definition omitted_store : gmap Z byteslice :=
  <[ 0 := node_of (BlocOfCodeNode BlocOfCodePlain 0) ]>
  (<[ add64 (O 0) 0 := None ]>
  (<[ add64 (O 0) 1 := node_of (BranchStmtNode BranchStmtBreak) ]> ∅)).

(** [if x { } else], the condition an identifier. *)
Definition ifelse_store : gmap Z byteslice :=
  <[ 0 := node_of (BlocOfCodeNode BlocOfCodeIfElse 1) ]>
  (<[ O 0 := node_of (ExpressionNode ExpressionIdentifier 1) ]>
  (<[ O (O 0) := leaf 1 "x" ]> ∅)).

(** A comment that follows an empty line. *)
Definition comment_store : gmap Z byteslice :=
  <[ 0 := node_of (slice2 CommentRow (CommentRowSeparate + 1)) ]>
  (<[ O 0 := leaf 1 "// note" ]> ∅).

(** ** Positions in the input of the classifier *)

Definition newline_at (file : list byte) (i : nat) : Prop :=
  file !! i = Some ("010"%byte).

(** A byte that is not above the space: a blank, a tab, a line break. *)
Definition blank_at (file : list byte) (i : nat) : Prop :=
  exists c, file !! i = Some c /\ above_space c = false.

(** A comment marker, or the first two letters of the package keyword,
    starts at [i]. *)
Definition marker_at (file : list byte) (i : nat) : Prop :=
  file !! i = Some ("/"%byte)
  /\ (file !! S i = Some ("/"%byte) \/ file !! S i = Some ("*"%byte)).

Definition package_at (file : list byte) (i : nat) : Prop :=
  file !! i = Some ("p"%byte) /\ file !! S i = Some ("a"%byte).

(** Only whitespace lies between a line break and [i]. *)
Definition leading (file : list byte) (i : nat) : Prop :=
  exists m, (m < i)%nat /\ newline_at file m
            /\ forall k, (m < k < i)%nat -> blank_at file k.

(** Only whitespace lies between two line breaks and from there to [i]:
    [i] comes after an empty line that is not the first line. *)
Definition after_empty_line (file : list byte) (i : nat) : Prop :=
  exists m' m, (m' < m < i)%nat /\ newline_at file m' /\ newline_at file m
               /\ forall k, (m' < k < i)%nat -> blank_at file k.

(** A marker was recorded as ending the line, earlier on the line of [i]. *)
Definition ender_before (file : list byte) (i : nat) : Prop :=
  exists j, (j < i)%nat
            /\ (forall k, (j <= k < i)%nat -> ~ newline_at file k)
            /\ marker_at file j /\ ~ leading file j.

(** The words of the specification: content that is not whitespace
    precedes [i] on its line. *)
Definition content_before (file : list byte) (i : nat) : Prop :=
  exists j c, (j < i)%nat /\ file !! j = Some c /\ above_space c = true
              /\ forall k, (j < k < i)%nat -> ~ newline_at file k.

Definition first_line (file : list byte) (i : nat) : Prop :=
  forall k, (k < i)%nat -> ~ newline_at file k.

Definition key (i : nat) : Z := (Z.of_nat i + 1) / 2.

Definition is_marker (c d : byte) : bool :=
  Byte.eqb c "/" && (Byte.eqb d "/" || Byte.eqb d "*").

Definition is_package (c d : byte) : bool :=
  Byte.eqb c "p" && Byte.eqb d "a".

(** What the scan has recorded after the turns below [n]. *)
Definition recorded_ender (file : list byte) (n : nat) (k : Z) : Prop :=
  exists i, (i < n)%nat /\ k = key i /\ marker_at file i
            /\ ~ leading file i /\ ~ ender_before file i.

Definition recorded_separ (file : list byte) (n : nat) (k : Z) : Prop :=
  exists i, (i < n)%nat /\ k = key i
            /\ (marker_at file i \/ package_at file i)
            /\ after_empty_line file i.

(** ** The steps of [O]

    [v ^= v >> k] and [v ^= v << k]. *)

Definition xorshr (k v : Z) : Z := Z.lxor v (shr64 v k).

Definition xorshl (k v : Z) : Z := Z.lxor v (shl64 v k).

(** ** Numerals, indentation and names *)

(** The decimal numeral of [n], as the standard library prints it. *)
Definition decimal (n : Z) : string :=
  NilZero.string_of_uint (N.to_uint (Z.to_N n)).

Fixpoint blanks (n : nat) : string :=
  match n with
  | 0%nat => EmptyString
  | S m => String " " (blanks m)
  end.

(** The name of the package-level variable of a family. *)
Definition identifier (f : family) : string :=
  match f with
  | RootMatter => "RootMatter" | FileMatter => "FileMatter"
  | PackageDef => "PackageDef" | ImportStmt => "ImportStmt"
  | ImportsDef => "ImportsDef" | TypedIdent => "TypedIdent"
  | RootOfType => "RootOfType" | TypDefStmt => "TypDefStmt"
  | StructType => "StructType" | BranchStmt => "BranchStmt"
  | GoDferStmt => "GoDferStmt" | ReturnStmt => "ReturnStmt"
  | IncDecStmt => "IncDecStmt" | VarDefStmt => "VarDefStmt"
  | LblGotoCnt => "LblGotoCnt" | IfceTypExp => "IfceTypExp"
  | CommentRow => "CommentRow"
  | Expression => "Expression" | BlocOfCode => "BlocOfCode"
  | ToplevFunc => "ToplevFunc" | AssignStmt => "AssignStmt"
  | ClosureExp => "ClosureExp" | IfceMethod => "IfceMethod"
  end.

(** ** Finite trees

    [run_length m a budget i]: the number of keys present from O(a)+i on,
    when the first absent one is among the next [budget]. *)
Fixpoint run_length (m : gmap Z byteslice) (a : Z) (budget : nat) (i : Z)
  : option nat :=
  match budget with
  | 0%nat => None
  | S b =>
      if present m (add64 (O a) i)
      then option_map S (run_length m a b (i + 1))
      else Some 0%nat
  end.

(** [finite m h a]: below [a], every run of children and every path is
    shorter than [h]. *)
Fixpoint finite (m : gmap Z byteslice) (h : nat) (a : Z) : bool :=
  match h with
  | 0%nat => false
  | S h' =>
      match run_length m a h' 0 with
      | Some n =>
          (Z.of_nat n <? uint64big)
          && forallb (fun i => finite m h' (add64 (O a) i)) (indices n)
      | None => false
      end
  end.

(** ** Stores without empty records, and computations that return *)

(** No record of the map is empty without being nil. *)
Definition wellformed (m : gmap Z byteslice) : bool :=
  forallb (fun kx => is_nil (snd kx) || (0 <? len (snd kx)))
          (map_to_list m).

Definition sound (x : byteslice) : Prop :=
  forall s, x = Some s -> bytes s <> EmptyString.

(** [returns s m]: in every world whose map is [s], [m] returns a value,
    having printed some strings. *)
Definition returns {A : Type} (s : gmap Z byteslice) (m : M A) : Prop :=
  forall w, ast w = s -> exists a l, m w = (Ret a, out w l).

(** [out_of_range m]: the only panic of [m] is an index out of range. *)
Definition out_of_range {A : Type} (m : M A) : Prop :=
  forall w e, fst (m w) = Panic e -> e = IndexOutOfRange.

(** ** Operands *)

(** [m[k]]: nil when the key is missing. *)
Definition record (m : gmap Z byteslice) (k : Z) : byteslice :=
  default None (m !! k).

(** A record that a family starts at. *)
Definition structural (x : byteslice) : bool :=
  match Which x with
  | Ret (Some _) => true
  | _ => false
  end.

(** The children of [a] are leaves or nodes of families. *)
Definition operands (m : gmap Z byteslice) (a : Z) (n : nat) : bool :=
  forallb (fun i => let x := record m (add64 (O a) i) in
                    textual x || structural x) (indices n).

(** The operators that stand between two operands of an Expression, with
    the token that [Code] prints for each: the binary operators between
    blanks, the dot of a selector and the colon of a key-value pair bare. *)
Definition infix_operators : list (Z * string) :=
  [ (ExpressionOrOr, " || "); (ExpressionAndAnd, " && ");
    (ExpressionEqual, " == "); (ExpressionNotEq, " != ");
    (ExpressionLessThan, " < "); (ExpressionLessEq, " <= ");
    (ExpressionGrtEq, " >= "); (ExpressionGrtThan, " > ");
    (ExpressionPlus, " + "); (ExpressionMinus, " - ");
    (ExpressionOr, " | "); (ExpressionXor, " ^ ");
    (ExpressionMul, " * "); (ExpressionDiv, " / ");
    (ExpressionMod, " % "); (ExpressionAnd, " & ");
    (ExpressionAndNot, " &^ "); (ExpressionLSh, " << ");
    (ExpressionRSh, " >> "); (ExpressionArrow, " <- ");
    (ExpressionDot, "."); (ExpressionKeyVal, ":") ].

(** The forms with brackets: the token after the first operand, the token
    between two later operands, and the token after the last. *)
Definition bracket_forms : list (Z * (string * string * string)) :=
  [ (ExpressionCall, ("(", ",", ")"));
    (ExpressionCallDotDotDot, ("(", ",", "...)"));
    (ExpressionComposite, ("{", ", ", "}"));
    (ExpressionIndex, ("[", "[", "]"));
    (ExpressionType, (".(", ".(", ")")) ].

(** The forms of one operand: the tokens before it and after it. *)
Definition unary_forms : list (Z * (list string * list string)) :=
  [ (ExpressionBrackets, (["("], [")"]));
    (ExpressionPlus, (["+"], [])); (ExpressionMinus, (["-"], []));
    (ExpressionXor, (["^"], [])); (ExpressionMul, (["*"], []));
    (ExpressionAnd, (["&"], [])); (ExpressionNot, (["!"], []));
    (ExpressionArrow, (["<-"], [])); (ExpressionChan, (["chan "], []));
    (ExpressionInChan, (["chan<- "], []));
    (ExpressionOutChan, (["<-chan "], []));
    (ExpressionComposed, (["{"], ["}"]));
    (ExpressionCall, ([], ["()"]));
    (ExpressionCallDotDotDot, ([], ["()"]));
    (ExpressionComposite, ([], ["{}"]));
    (ExpressionType, ([], [".(type)"]));
    (ExpressionIdentifier, ([], [])) ].

(** The assignment operators, with the tokens of the language. *)
Definition assignment_operators : list (Z * string) :=
  [ (AssignStmtEqual, "="); (AssignStmtColonEq, ":=");
    (AssignStmtAndNot, "&^="); (AssignStmtAdd, "+=");
    (AssignStmtSub, "-="); (AssignStmtMul, "*=");
    (AssignStmtQuo, "/="); (AssignStmtRem, "%=");
    (AssignStmtAnd, "&="); (AssignStmtOr, "|=");
    (AssignStmtXor, "^="); (AssignStmtShl, "<<=");
    (AssignStmtShr, ">>=") ].

(** The children of [a] are not nil. *)
Definition solid (m : gmap Z byteslice) (a : Z) (n : nat) : bool :=
  forallb (fun i => negb (is_nil (record m (add64 (O a) i)))) (indices n).

Definition incdec_operators : list (Z * string) :=
  [ (IncDecStmtPlusPlus, "++"); (IncDecStmtMinusMinus, "--") ].

(** The statements that are a keyword. *)
Definition branch_keywords : list (Z * string) :=
  [ (BranchStmtSemi, ";"); (BranchStmtBreak, "break");
    (BranchStmtContinue, "continue");
    (BranchStmtFallthrough, "fallthrough"); (BranchStmtGoto, "goto") ].

(** ** More stores to evaluate [Code] and [Dump] on *)

(** An identifier: an ExpressionIdentifier node over a leaf. *)
Definition identifier_at (a : Z) (id : N) (name : string)
    (m : gmap Z byteslice) : gmap Z byteslice :=
  <[ a := node_of (ExpressionNode ExpressionIdentifier 1) ]>
  (<[ O a := leaf id name ]> m).

(** [return a, b] at the root. *)
Definition return_store : gmap Z byteslice :=
  <[ 0 := node_of (slice2 ReturnStmt 1) ]>
  (identifier_at (add64 (O 0) 0) 1 "a"
  (identifier_at (add64 (O 0) 1) 2 "b" ∅)).

(** [a + b] and [x = y] at the root, the operands leaves. *)
Definition sum_store : gmap Z byteslice :=
  <[ 0 := node_of (ExpressionNode ExpressionPlus 2) ]>
  (<[ add64 (O 0) 0 := leaf 1 "a" ]>
  (<[ add64 (O 0) 1 := leaf 2 "b" ]> ∅)).

Definition assign_store : gmap Z byteslice :=
  <[ 0 := node_of (AssignStmtNode AssignStmtEqual 2) ]>
  (<[ add64 (O 0) 0 := leaf 1 "x" ]>
  (<[ add64 (O 0) 1 := leaf 2 "y" ]> ∅)).

(** An import group with one import. *)
Definition import_store : gmap Z byteslice :=
  <[ 0 := node_of (slice2 ImportsDef 1) ]>
  (<[ O 0 := node_of (slice2 ImportStmt 1) ]>
  (<[ O (O 0) := leaf 1 "fmt" ]> ∅)).

(** Nil at the root, over two branch statements. *)
Definition headless_store : gmap Z byteslice :=
  <[ 0 := None ]>
  (<[ add64 (O 0) 0 := node_of (BranchStmtNode BranchStmtBreak) ]>
  (<[ add64 (O 0) 1 := node_of (BranchStmtNode BranchStmtContinue) ]> ∅)).

(** Nil at the root, over the empty record. *)
Definition orphan_store : gmap Z byteslice :=
  <[ 0 := None ]> (<[ add64 (O 0) 0 := empty_record ]> ∅).

(** An identifier at the root, and a leaf at the key two below the key of
    its child. *)
Definition stray_store : gmap Z byteslice :=
  <[ add64 (O 0) uint64big := leaf 2 "y" ]> (identifier_at 0 1 "x" ∅).

(** [f(a,b)], [!x] and [i++] at the root, the operands leaves. *)
Definition call2_store : gmap Z byteslice :=
  <[ 0 := node_of (ExpressionNode ExpressionCall 3) ]>
  (<[ add64 (O 0) 0 := leaf 1 "f" ]>
  (<[ add64 (O 0) 1 := leaf 2 "a" ]>
  (<[ add64 (O 0) 2 := leaf 3 "b" ]> ∅))).

Definition negation_store : gmap Z byteslice :=
  <[ 0 := node_of (ExpressionNode ExpressionNot 1) ]>
  (<[ add64 (O 0) 0 := leaf 1 "x" ]> ∅).

Definition increment_store : gmap Z byteslice :=
  <[ 0 := node_of (IncDecStmtNode IncDecStmtPlusPlus) ]>
  (<[ add64 (O 0) 0 := leaf 1 "i" ]> ∅).

(** An import group of two imports, and a struct type of two fields that
    are identifiers. *)
Definition imports_store : gmap Z byteslice :=
  <[ 0 := node_of (slice2 ImportsDef 1) ]>
  (<[ add64 (O 0) 0 := node_of (slice2 ImportStmt 1) ]>
  (<[ O (add64 (O 0) 0) := leaf 1 "fmt" ]>
  (<[ add64 (O 0) 1 := node_of (slice2 ImportStmt 1) ]>
  (<[ O (add64 (O 0) 1) := leaf 2 "os" ]> ∅)))).

Definition struct_store : gmap Z byteslice :=
  <[ 0 := node_of (slice2 StructType 1) ]>
  (identifier_at (add64 (O 0) 0) 1 "a"
  (identifier_at (add64 (O 0) 1) 2 "b" ∅)).

(** [type T U], the name a leaf and the type an identifier. *)
Definition typedef_store : gmap Z byteslice :=
  <[ 0 := node_of (TypDefStmtNode TypDefStmtNormal) ]>
  (<[ add64 (O 0) 0 := leaf 1 "T" ]>
  (identifier_at (add64 (O 0) 1) 2 "U" ∅)).

(** A literal without a type, of two elements. *)
Definition composed_store : gmap Z byteslice :=
  <[ 0 := node_of (ExpressionNode ExpressionComposed 2) ]>
  (<[ add64 (O 0) 0 := leaf 1 "1" ]>
  (<[ add64 (O 0) 1 := leaf 2 "2" ]> ∅)).

(** * Properties *)

(** ** Machine arithmetic and the address function *)

Lemma wrap64_range (z : Z) : 0 <= wrap64 z < 2 ^ 64.
Proof. unfold wrap64. apply Z.mod_pos_bound. lia. Qed.

Lemma wrap64_small (z : Z) : 0 <= z < 2 ^ 64 -> wrap64 z = z.
Proof. intros H. unfold wrap64. now apply Z.mod_small. Qed.

Lemma add64_small (a b : Z) : 0 <= a + b < 2 ^ 64 -> add64 a b = a + b.
Proof. apply wrap64_small. Qed.

Lemma lxor_range (a b : Z) :
  0 <= a < 2 ^ 64 -> 0 <= b < 2 ^ 64 -> 0 <= Z.lxor a b < 2 ^ 64.
Proof.
  intros Ha Hb.
  assert (Hn : 0 <= Z.lxor a b) by (apply Z.lxor_nonneg; lia).
  split; [exact Hn|].
  destruct (Z.eq_dec (Z.lxor a b) 0) as [->|Hx]; [lia|].
  apply Z.log2_lt_pow2; [lia|].
  eapply Z.le_lt_trans; [apply Z.log2_lxor; lia|].
  assert (La : Z.log2 a < 64).
  { destruct (Z.eq_dec a 0) as [->|]; [cbn; lia|].
    apply Z.log2_lt_pow2; lia. }
  assert (Lb : Z.log2 b < 64).
  { destruct (Z.eq_dec b 0) as [->|]; [cbn; lia|].
    apply Z.log2_lt_pow2; lia. }
  lia.
Qed.

Lemma shr64_range (a n : Z) :
  0 <= a < 2 ^ 64 -> 0 <= n -> 0 <= shr64 a n < 2 ^ 64.
Proof.
  intros Ha Hn. unfold shr64. rewrite Z.shiftr_div_pow2 by lia.
  assert (0 < 2 ^ n) by (apply Z.pow_pos_nonneg; lia).
  split; [apply Z.div_pos; lia|].
  apply Z.le_lt_trans with a; [|lia].
  apply Z.div_le_upper_bound; [lia|]. nia.
Qed.

Lemma O_range (n : Z) : 0 <= O n < 2 ^ 64.
Proof.
  unfold O, add64, mul64, shl64.
  repeat first
    [ apply lxor_range | apply shr64_range | apply wrap64_range | lia ].
Qed.

Lemma O_wrap (n : Z) : O (wrap64 n) = O n.
Proof.
  unfold O. replace (mul64 (wrap64 n) 3935559000370003845)
    with (mul64 n 3935559000370003845); [reflexivity|].
  unfold mul64, wrap64. now rewrite Z.mul_mod_idemp_l by lia.
Qed.

Lemma add64_O_0 (n : Z) : add64 (O n) 0 = O n.
Proof. unfold add64. rewrite Z.add_0_r. apply wrap64_small, O_range. Qed.

Lemma O_steps (n : Z) :
  O n
  = xorshl 5 (xorshr 41 (xorshl 20
      (mul64 (xorshr 4 (xorshl 37 (xorshr 21
         (add64 (mul64 n 3935559000370003845) 2691343689449507681))))
         4768777513237032717))).
Proof. unfold O, xorshl, xorshr. reflexivity. Qed.

Lemma xorshr_range (k v : Z) :
  0 <= k -> 0 <= v < 2 ^ 64 -> 0 <= xorshr k v < 2 ^ 64.
Proof.
  intros Hk Hv. apply lxor_range; [exact Hv | now apply shr64_range].
Qed.

Lemma xorshl_range (k v : Z) :
  0 <= v < 2 ^ 64 -> 0 <= xorshl k v < 2 ^ 64.
Proof. intros Hv. apply lxor_range; [exact Hv | apply wrap64_range]. Qed.

Lemma testbit_above (x i : Z) :
  0 <= x < 2 ^ 64 -> 64 <= i -> Z.testbit x i = false.
Proof.
  intros Hx Hi. destruct (Z.eq_dec x 0) as [->|Hn]; [apply Z.bits_0|].
  apply Z.bits_above_log2; [lia|].
  assert (Z.log2 x < 64) by (apply Z.log2_lt_pow2; lia). lia.
Qed.

(** A shift to the right leaves the top bits as they were, and each bit
    below is recovered from the bit [k] places above it. *)
Lemma xorshr_inj (k x y : Z) :
  0 < k -> 0 <= x < 2 ^ 64 -> 0 <= y < 2 ^ 64 ->
  xorshr k x = xorshr k y -> x = y.
Proof.
  unfold xorshr. intros Hk Hx Hy H. apply Z.bits_inj'.
  assert (B : forall m i, (Z.to_nat (64 - i) <= m)%nat -> 0 <= i ->
                Z.testbit x i = Z.testbit y i).
  { induction m as [|m IH]; intros i Hm Hi.
    - now rewrite !testbit_above by lia.
    - pose proof (f_equal (fun z => Z.testbit z i) H) as E. cbv beta in E.
      unfold shr64 in E.
      rewrite !Z.lxor_spec, !Z.shiftr_spec in E by lia.
      rewrite (IH (i + k)) in E by lia.
      now destruct (Z.testbit x i), (Z.testbit y i), (Z.testbit y (i + k)). }
  intros i Hi. now apply (B (Z.to_nat (64 - i))).
Qed.

Lemma testbit_shl64 (x k i : Z) :
  0 <= i < 64 -> Z.testbit (shl64 x k) i = Z.testbit x (i - k).
Proof.
  intros Hi. unfold shl64, wrap64.
  rewrite Z.mod_pow2_bits_low by lia. now apply Z.shiftl_spec.
Qed.

(** A shift to the left, likewise, from the low bits up. *)
Lemma xorshl_inj (k x y : Z) :
  0 < k -> 0 <= x < 2 ^ 64 -> 0 <= y < 2 ^ 64 ->
  xorshl k x = xorshl k y -> x = y.
Proof.
  unfold xorshl. intros Hk Hx Hy H. apply Z.bits_inj'.
  assert (B : forall m i, (Z.to_nat i < m)%nat -> 0 <= i ->
                Z.testbit x i = Z.testbit y i).
  { induction m as [|m IH]; intros i Hm Hi; [lia|].
    destruct (Z_lt_le_dec i 64) as [Hlt|Hge];
      [|now rewrite !testbit_above by lia].
    pose proof (f_equal (fun z => Z.testbit z i) H) as E. cbv beta in E.
    rewrite !Z.lxor_spec, !testbit_shl64 in E by lia.
    destruct (Z_lt_le_dec (i - k) 0) as [Hneg|Hpos].
    - rewrite (Z.testbit_neg_r x (i - k)), (Z.testbit_neg_r y (i - k)) in E
        by lia.
      now destruct (Z.testbit x i), (Z.testbit y i).
    - rewrite (IH (i - k)) in E by lia.
      now destruct (Z.testbit x i), (Z.testbit y i), (Z.testbit y (i - k)). }
  intros i Hi. apply (B (S (Z.to_nat i))); lia.
Qed.

(** Multiplying by a constant that has an inverse modulo 2^64, an odd
    one, loses nothing. *)
Lemma mul64_inj (c cinv x y : Z) :
  wrap64 (c * cinv) = 1 ->
  0 <= x < 2 ^ 64 -> 0 <= y < 2 ^ 64 ->
  mul64 x c = mul64 y c -> x = y.
Proof.
  unfold mul64, wrap64. intros Hc Hx Hy H.
  assert (D : (x * c - y * c) mod 2 ^ 64 = 0)
    by (rewrite Zminus_mod, H, Z.sub_diag; reflexivity).
  apply Z.mod_divide in D; [|lia]. destruct D as [q D].
  pose proof (Z.div_mod (c * cinv) (2 ^ 64) ltac:(lia)) as I.
  rewrite Hc in I. set (t := c * cinv / 2 ^ 64) in I.
  assert (E : x - y = (q * cinv - (x - y) * t) * 2 ^ 64).
  { transitivity ((x - y) * (c * cinv) - (x - y) * t * 2 ^ 64).
    - rewrite I. ring.
    - replace ((x - y) * (c * cinv)) with ((x * c - y * c) * cinv) by ring.
      rewrite D. ring. }
  assert (q * cinv - (x - y) * t = 0) by nia. nia.
Qed.

Lemma add64_inj (d x y : Z) :
  0 <= x < 2 ^ 64 -> 0 <= y < 2 ^ 64 -> add64 x d = add64 y d -> x = y.
Proof.
  unfold add64, wrap64. intros Hx Hy H.
  assert (D : ((x + d) - (y + d)) mod 2 ^ 64 = 0)
    by (rewrite Zminus_mod, H, Z.sub_diag; reflexivity).
  apply Z.mod_divide in D; [|lia]. destruct D as [q D]. nia.
Qed.

Ltac in_range :=
  repeat first [ apply xorshl_range | apply xorshr_range; [lia|]
               | apply wrap64_range | assumption ].

(** X1. [O] loses nothing: two keys go to the same key only when they
    have the same 64-bit value, so that distinct nodes have distinct
    first children. *)
Theorem O_injective (a b : Z) : O a = O b -> wrap64 a = wrap64 b.
Proof.
  rewrite <- (O_wrap a), <- (O_wrap b).
  pose proof (wrap64_range a) as Ha. pose proof (wrap64_range b) as Hb.
  revert Ha Hb. generalize (wrap64 a) (wrap64 b). clear a b.
  intros a b Ha Hb H. rewrite !O_steps in H.
  apply xorshl_inj in H; [|lia|in_range..].
  apply xorshr_inj in H; [|lia|in_range..].
  apply xorshl_inj in H; [|lia|in_range..].
  apply (mul64_inj _ 1615231051170002885) in H; [|reflexivity|in_range..].
  apply xorshr_inj in H; [|lia|in_range..].
  apply xorshl_inj in H; [|lia|in_range..].
  apply xorshr_inj in H; [|lia|in_range..].
  apply add64_inj in H; [|apply wrap64_range..].
  now apply (mul64_inj _ 13700500150304694605) in H.
Qed.

Lemma O_injective_witness : wrap64 5 = wrap64 (5 + 2 ^ 64).
Proof. apply (O_injective 5 (5 + 2 ^ 64)). vm_compute. reflexivity. Defined.

Ltac machine :=
  unfold to_uint64, int_add, to_int, add64, wrap64 in *;
  change (2 ^ 64) with 18446744073709551616 in *;
  change (2 ^ 63) with 9223372036854775808 in *;
  repeat match goal with
         | H : context [if ?b then _ else _] |- _ => destruct b eqn:?
         | |- context [if ?b then _ else _] => destruct b eqn:?
         end;
  Z.to_euclidean_division_equations; lia.

(** ** Constructors and decoding *)

Lemma length_zeros (n : nat) : String.length (zeros n) = n.
Proof. induction n; cbn; congruence. Qed.

Lemma length_prefix (s : string) :
  forall n, (n <= String.length s)%nat ->
            String.length (substring 0 n s) = n.
Proof.
  induction s as [|c s IH]; intros [|n] H; cbn in *; try lia.
  rewrite IH; lia.
Qed.

Lemma family_cap_text (f : family) :
  in_storage f = false ->
  family_cap f = 10 /\ String.length (family_name f) = 10%nat.
Proof. destruct f; cbn; intros; try discriminate; split; reflexivity. Qed.

Lemma length_family_bytes (f : family) (n : Z) :
  0 <= n <= family_cap f ->
  Z.of_nat (String.length (family_bytes f n)) = n.
Proof.
  intros H. unfold family_bytes.
  destruct (in_storage f) eqn:E.
  - rewrite length_zeros. lia.
  - destruct (family_cap_text f E) as [Hc Hl].
    rewrite length_prefix; lia.
Qed.

Lemma family_at_addr (f : family) : family_at (family_addr f) = Some f.
Proof. destruct f; reflexivity. Qed.

Lemma family_at_foreign (id : N) (o : Z) : family_at (foreign id, o) = None.
Proof. reflexivity. Qed.

Lemma slice3_Ret (f : family) (hi max : Z) (s : slice) :
  slice3 f hi max = Ret s ->
  0 <= hi <= max /\ max <= family_cap f
  /\ (arr s, off s) = family_addr f
  /\ len (Some s) = hi /\ cap (Some s) = max.
Proof.
  unfold slice3. intros H.
  destruct (0 <=? hi) eqn:E1; destruct (hi <=? max) eqn:E2;
    destruct (max <=? family_cap f) eqn:E3; cbn in H; try discriminate.
  injection H as <-. cbn.
  rewrite length_family_bytes by lia.
  rewrite <- surjective_pairing. repeat split; lia.
Qed.

Lemma slice2_Ret (f : family) (hi : Z) (s : slice) :
  slice2 f hi = Ret s ->
  0 <= hi <= family_cap f
  /\ (arr s, off s) = family_addr f
  /\ len (Some s) = hi /\ cap (Some s) = family_cap f.
Proof.
  unfold slice2. intros H.
  destruct (0 <=? hi) eqn:E1; destruct (hi <=? family_cap f) eqn:E2;
    cbn in H; try discriminate.
  injection H as <-. cbn.
  rewrite length_family_bytes by lia.
  rewrite <- surjective_pairing. repeat split; lia.
Qed.

Lemma addr0_family (f : family) (s : slice) :
  (arr s, off s) = family_addr f -> 0 < len (Some s) ->
  addr0 (Some s) = Ret (family_addr f).
Proof.
  intros Hp Hl. unfold addr0.
  destruct (len (Some s) =? 0) eqn:E; [lia | now rewrite Hp].
Qed.

(** A node of a family, of positive length, is recognised by [Which]. *)
Lemma Which_family (f : family) (s : slice) :
  (arr s, off s) = family_addr f -> 0 < len (Some s) ->
  Which (Some s) = Ret (Some f).
Proof.
  intros Hp Hl. unfold Which, addr0.
  destruct (len (Some s) =? 0) eqn:E; [lia|].
  now rewrite Hp, family_at_addr.
Qed.

Lemma decodes_slice3 (f : family) (kind max : Z) (s : slice) :
  0 <= kind -> slice3 f (kind + 1) max = Ret s ->
  decodes s f kind /\ cap (Some s) = max /\ kind + 1 <= max <= family_cap f.
Proof.
  intros Hk H. apply slice3_Ret in H as (H1 & H2 & H3 & H4 & H5).
  split; [split|]; [apply Which_family; [assumption | lia] | lia | lia].
Qed.

Lemma decodes_slice2 (f : family) (kind : Z) (s : slice) :
  0 <= kind -> slice2 f (kind + 1) = Ret s ->
  decodes s f kind /\ cap (Some s) = family_cap f.
Proof.
  intros Hk H. apply slice2_Ret in H as (H1 & H3 & H4 & H5).
  split; [split|]; [apply Which_family; [assumption | lia] | lia | lia].
Qed.

(** C2 (as amended). A node built by a constructor is recognised by [Which]
    as of its own family, by the address of its first byte, and its length
    minus one is the kind argument. For Expression, BlocOfCode and
    AssignStmt the capacity minus the family's TotalCount is the count
    argument modulo 2^64, and the count itself when adding TotalCount to
    it does not wrap. The other constructors leave the capacity at that of
    the family variable (ToplevFunc: at argc + recv + 1), not at the
    length. [Which] is nil on nil and on every leaf of positive length,
    whatever its bytes, and the family of any record of positive length
    that starts at the first byte of a family variable, whatever its
    bytes: the address decides, not the content. *)
Theorem Which_inverts_constructors :
  (forall kind n s, 0 <= kind < 256 -> 0 <= n < 2 ^ 64 ->
     ExpressionNode kind n = Ret s ->
     decodes s Expression kind
     /\ to_uint64 (cap (Some s) - ExpressionTotalCount) = n
     /\ (n + ExpressionTotalCount < 2 ^ 64 ->
         cap (Some s) - ExpressionTotalCount = n))
  /\ (forall kind n s, 0 <= kind < 256 -> 0 <= n < 2 ^ 64 ->
     BlocOfCodeNode kind n = Ret s ->
     decodes s BlocOfCode kind
     /\ to_uint64 (cap (Some s) - BlocOfCodeTotalCount) = n
     /\ (n + BlocOfCodeTotalCount < 2 ^ 63 ->
         cap (Some s) - BlocOfCodeTotalCount = n))
  /\ (forall kind n s, 0 <= kind < 256 -> 0 <= n < 2 ^ 64 ->
     AssignStmtNode kind n = Ret s ->
     decodes s AssignStmt kind
     /\ to_uint64 (cap (Some s) - AssignStmtTotalCount) = n
     /\ (n + AssignStmtTotalCount < 2 ^ 64 ->
         cap (Some s) - AssignStmtTotalCount = n))
  /\ (forall receiver argc s, 0 <= argc < 2 ^ 64 ->
     ToplevFuncNode receiver argc = Ret s ->
     decodes s ToplevFunc (if receiver then 1 else 0)
     /\ to_uint64 (cap (Some s) - len (Some s)) = argc)
  /\ (forall paramscount s, 0 <= paramscount < 2 ^ 64 - 1 ->
     ClosureExpNode paramscount = Ret s ->
     decodes s ClosureExp paramscount
     /\ cap (Some s) = family_cap ClosureExp)
  /\ (forall kind s, 0 <= kind < 256 ->
     (BranchStmtNode kind = Ret s -> decodes s BranchStmt kind
                                     /\ cap (Some s) = family_cap BranchStmt)
     /\ (IncDecStmtNode kind = Ret s -> decodes s IncDecStmt kind
                                        /\ cap (Some s) = family_cap IncDecStmt)
     /\ (GoDferStmtNode kind = Ret s -> decodes s GoDferStmt kind
                                        /\ cap (Some s) = family_cap GoDferStmt)
     /\ (LblGotoCntNode kind = Ret s -> decodes s LblGotoCnt kind
                                        /\ cap (Some s) = family_cap LblGotoCnt)
     /\ (VarDefStmtNode kind = Ret s -> decodes s VarDefStmt kind
                                        /\ cap (Some s) = family_cap VarDefStmt)
     /\ (TypDefStmtNode kind = Ret s -> decodes s TypDefStmt kind
                                        /\ cap (Some s) = family_cap TypDefStmt))
  /\ Which None = Ret None
  /\ (forall id o t c, t <> EmptyString ->
     Which (Some {| arr := foreign id; off := o; bytes := t;
                    capacity := c |}) = Ret None)
  /\ (forall f s, (arr s, off s) = family_addr f -> 0 < len (Some s) ->
     Which (Some s) = Ret (Some f)).
Proof.
  repeat apply conj.
  - intros kind n s Hk Hn H. unfold ExpressionNode in H.
    apply decodes_slice3 in H as (Hd & Hc & Hb); [|lia].
    unfold ExpressionTotalCount in *. cbn in Hb.
    rewrite Hc. repeat split; try apply Hd; machine.
  - intros kind n s Hk Hn H. unfold BlocOfCodeNode in H.
    apply decodes_slice3 in H as (Hd & Hc & Hb); [|lia].
    unfold BlocOfCodeTotalCount in *. cbn in Hb.
    rewrite Hc. repeat split; try apply Hd; machine.
  - intros kind n s Hk Hn H. unfold AssignStmtNode in H.
    apply decodes_slice3 in H as (Hd & Hc & Hb); [|lia].
    unfold AssignStmtTotalCount in *. cbn in Hb.
    rewrite Hc. repeat split; try apply Hd; machine.
  - intros receiver argc s Hn H. unfold ToplevFuncNode in H.
    apply decodes_slice3 in H as (Hd & Hc & Hb);
      [|destruct receiver; lia].
    cbn in Hb. destruct Hd as [Hw Hl].
    replace (len (Some s)) with ((if receiver then 1 else 0) + 1) by lia.
    rewrite Hc. split; [split; [exact Hw | lia]|].
    destruct receiver; machine.
  - intros p s Hp H. unfold ClosureExpNode in H.
    apply slice2_Ret in H as (H1 & H3 & H4 & H5). cbn in H1.
    assert (E : int_add (to_int p) 1 = p + 1) by machine.
    rewrite E in *.
    split; [split; [apply Which_family; [assumption | lia] | lia]|].
    exact H5.
  - intros kind s Hk.
    repeat apply conj; intros H; apply decodes_slice2 in H; try lia;
      exact H.
  - reflexivity.
  - intros id o t c Ht. unfold Which, addr0.
    destruct t as [|a t]; [congruence|]. reflexivity.
  - apply Which_family.
Qed.

Lemma Which_inverts_constructors_witness :
  decodes {| arr := storage; off := 0; bytes := zeros 25; capacity := 39 |}
          Expression ExpressionCall
  /\ cap (Some {| arr := storage; off := 0; bytes := zeros 25;
                  capacity := 39 |}) - ExpressionTotalCount = 1.
Proof.
  destruct Which_inverts_constructors as [H _].
  destruct (H ExpressionCall 1
              {| arr := storage; off := 0; bytes := zeros 25;
                 capacity := 39 |})
    as (Hd & _ & Hc).
  - unfold ExpressionCall. lia.
  - lia.
  - reflexivity.
  - split; [exact Hd | apply Hc; reflexivity].
Defined.

(** C2, as stated, fails: [BranchStmtNode], whose family has no slot
    count, builds a node of length 1 whose capacity is that of the
    family variable, its ten bytes at the least. *)
Lemma BranchStmtNode_capacity_is_not_length :
  exists s, BranchStmtNode BranchStmtSemi = Ret s
            /\ len (Some s) = 1
            /\ cap (Some s) = family_cap BranchStmt
            /\ 10 <= cap (Some s)
            /\ cap (Some s) <> len (Some s).
Proof.
  eexists. split; [reflexivity|].
  repeat split; vm_compute; congruence.
Qed.

(** C10 (as amended). The six storage families lie in the one array of
    [MaxSubnodes] bytes. [ExpressionNode] panics on its slice bounds
    exactly when the 64-bit sum of the count and 38, read as an [int], is
    not between kind + 1 and 1,000,000; [BlocOfCodeNode] exactly when the
    [int] sum of the count and 13 is not between kind + 1 and 999,984. So
    a count whose sum stays within 64 bits and exceeds the bound panics;
    nothing is said of a count whose sum wraps around. *)
Theorem constructors_are_partial :
  (forall f, in_storage f = true ->
     fst (family_addr f) = storage
     /\ snd (family_addr f) + family_cap f = MaxSubnodes)
  /\ (forall kind n, 0 <= kind < 256 -> 0 <= n < 2 ^ 64 ->
     (ExpressionNode kind n = Panic SliceBounds <->
      ~ (kind + 1 <= to_int (add64 n ExpressionTotalCount) <= 1000000))
     /\ (n + 38 <= 2 ^ 64 -> 1000000 < n + 38 ->
         ExpressionNode kind n = Panic SliceBounds)
     /\ (forall s, ExpressionNode kind n = Ret s ->
         cap (Some s) <= 1000000))
  /\ (forall kind n, 0 <= kind < 256 -> 0 <= n < 2 ^ 64 ->
     (BlocOfCodeNode kind n = Panic SliceBounds <->
      ~ (kind + 1 <= int_add (to_int n) BlocOfCodeTotalCount <= 999984))
     /\ (n + 13 <= 2 ^ 64 -> 999984 < n + 13 ->
         BlocOfCodeNode kind n = Panic SliceBounds)
     /\ (forall s, BlocOfCodeNode kind n = Ret s ->
         cap (Some s) <= 999984)).
Proof.
  assert (P : forall f hi max, 0 <= hi ->
            (slice3 f hi max = Panic SliceBounds <->
             ~ (hi <= max <= family_cap f))).
  { intros f hi max Hhi. unfold slice3.
    destruct (0 <=? hi) eqn:E1; [|lia].
    destruct (hi <=? max) eqn:E2; destruct (max <=? family_cap f) eqn:E3;
      cbn; split; intros H; try discriminate; try reflexivity; lia. }
  split; [|split].
  - intros f Hf. destruct f; try discriminate; split; reflexivity.
  - intros kind n Hk Hn. split; [|split].
    + unfold ExpressionNode. rewrite P by lia.
      change (family_cap Expression) with 1000000. tauto.
    + intros H1 H2. unfold ExpressionNode. apply P; [lia|].
      change (family_cap Expression) with 1000000.
      unfold ExpressionTotalCount. machine.
    + intros s H. apply slice3_Ret in H as (_ & H & _ & _ & ->). exact H.
  - intros kind n Hk Hn. split; [|split].
    + unfold BlocOfCodeNode. rewrite P by lia.
      change (family_cap BlocOfCode) with 999984. tauto.
    + intros H1 H2. unfold BlocOfCodeNode. apply P; [lia|].
      change (family_cap BlocOfCode) with 999984.
      unfold BlocOfCodeTotalCount. machine.
    + intros s H. apply slice3_Ret in H as (_ & H & _ & _ & ->). exact H.
Qed.

Lemma constructors_are_partial_witness :
  ExpressionNode ExpressionCall 999963 = Panic SliceBounds
  /\ BlocOfCodeNode BlocOfCodeIf 999972 = Panic SliceBounds.
Proof.
  destruct constructors_are_partial as (_ & HE & HB).
  split.
  - apply (HE ExpressionCall 999963); unfold ExpressionCall; lia.
  - apply (HB BlocOfCodeIf 999972); unfold BlocOfCodeIf; lia.
Defined.

(** C10, as stated, fails: with the count 2^64 - 1 the sums wrap to 37 and
    to 12, and both constructors return a node. *)
Lemma constructors_accept_wrapped_counts :
  (exists s, ExpressionNode ExpressionBrackets (2 ^ 64 - 1) = Ret s
             /\ cap (Some s) = 37)
  /\ (exists s, BlocOfCodeNode BlocOfCodePlain (2 ^ 64 - 1) = Ret s
                /\ cap (Some s) = 12)
  /\ ~ (2 ^ 64 - 1 + 38 <= 1000000)
  /\ ~ (2 ^ 64 - 1 + 13 <= 999984).
Proof.
  repeat split; try (eexists; split; reflexivity); lia.
Qed.

(** ** Running computations *)

Lemma world_eta (w : world) : {| ast := ast w; printed := printed w |} = w.
Proof. now destruct w. Qed.

Lemma bind_assoc {A B C : Type} (m : M A) (k : A -> M B) (h : B -> M C) w :
  bind (bind m k) h w = bind m (fun a => bind (k a) h) w.
Proof. unfold bind. now destruct (m w) as [[a|e|] w1]. Qed.

Lemma bind_unit_r (m : M unit) w : bind m (fun _ => ret tt) w = m w.
Proof. unfold bind, ret. now destruct (m w) as [[[]|e|] w1]. Qed.

Lemma emits_ret {A : Type} (a : A) : emits (ret a).
Proof.
  intros w. exists []. intros o. unfold ret. cbn. now rewrite app_nil_r.
Qed.

Lemma emits_lift {A : Type} (r : res A) : emits (lift r).
Proof.
  intros w. exists []. intros o. unfold lift. cbn. now rewrite app_nil_r.
Qed.

Lemma emits_index (key : Z) : emits (index key).
Proof.
  intros w. exists []. intros o. unfold index. cbn. now rewrite app_nil_r.
Qed.

Lemma emits_Poke (key : Z) : emits (Poke key).
Proof.
  intros w. exists []. intros o. unfold Poke. cbn. now rewrite app_nil_r.
Qed.

Lemma emits_print (s : string) : emits (print s).
Proof. intros w. exists [s]. intros o. reflexivity. Qed.

Lemma emits_bind {A B : Type} (m : M A) (k : A -> M B) :
  emits m -> (forall a, emits (k a)) -> emits (bind m k).
Proof.
  intros Hm Hk w. destruct (Hm w) as [l1 H1].
  pose proof (H1 (printed w)) as E1. rewrite world_eta in E1.
  unfold bind.
  destruct (m w) as [[a|e|] w1] eqn:Emw; cbn in E1, H1.
  - injection E1 as ->.
    destruct (Hk a {| ast := ast w; printed := printed w ++ l1 |})
      as [l2 H2]. cbn in H2.
    exists (l1 ++ l2)%list. intros o. rewrite H1.
    rewrite (H2 (o ++ l1)%list). now rewrite app_assoc.
  - exists l1. intros o. now rewrite H1.
  - exists l1. intros o. now rewrite H1.
Qed.

Lemma emits_when (b : bool) (m : M unit) : emits m -> emits (when b m).
Proof. destruct b; [trivial | intros _; apply emits_ret]. Qed.

Lemma emits_switch {A : Type} (x : Z) (cases : list (list Z * M A))
    (d : M A) :
  Forall (fun c => emits (snd c)) cases -> emits d ->
  emits (switch x cases d).
Proof.
  intros Hc Hd. induction Hc as [|[ks a] rest Ha _ IH]; cbn; [exact Hd|].
  destruct (existsb (Z.eqb x) ks); [exact Ha | exact IH].
Qed.

Ltac emits_step :=
  first
    [ apply emits_ret | apply emits_print | apply emits_index
    | apply emits_Poke | apply emits_lift
    | apply emits_bind; [ | intros ? ]
    | apply emits_when
    | apply emits_switch
    | match goal with
      | |- Forall _ _ => constructor; cbn [snd]
      | |- emits (if ?b then _ else _) => destruct b
      | |- emits (match ?x with _ => _ end) => destruct x
      end ].

Ltac emits_auto := cbv zeta; repeat emits_step.

Lemma emits_for_each {A : Type} (l : list A) (f : A -> M unit) :
  (forall x, emits (f x)) -> emits (for_each l f).
Proof.
  intros Hf. induction l as [|x l IH]; cbn;
    [apply emits_ret | apply emits_bind; auto].
Qed.

Lemma emits_run {A : Type} (m : M A) :
  emits m ->
  forall w, exists l,
    snd (m w) = {| ast := ast w; printed := printed w ++ l |}
    /\ forall o, m {| ast := ast w; printed := o |}
                 = (fst (m w), {| ast := ast w; printed := o ++ l |}).
Proof.
  intros H w. destruct (H w) as [l Hl]. exists l. split; [|exact Hl].
  pose proof (Hl (printed w)) as E. rewrite world_eta in E.
  now rewrite E.
Qed.

Lemma emits_ast {A : Type} (m : M A) (w : world) :
  emits m -> ast (snd (m w)) = ast w.
Proof.
  intros H. destruct (emits_run m H w) as (l & E & _). now rewrite E.
Qed.

Lemma emits_Code_open (t : string) (iterator parent : Z) :
  emits (Code_open t iterator parent).
Proof.
  unfold Code_open, open_switch, open_BlocOfCode, introducer,
    open_Expression.
  emits_auto.
Qed.

Lemma emits_Code_each (t : string) (iterator i : Z) :
  emits (Code_each t iterator i).
Proof.
  unfold Code_each, each_switch, each_ToplevFunc, each_TypedIdent,
    each_BlocOfCode,
    each_Expression, each_AssignStmt, each_VarDefStmt, each_FileMatter,
    each_ClosureExp, each_IfceMethod.
  emits_auto.
Qed.

Lemma emits_Code_loop (visit : Z -> Z -> M unit) (after : Z -> M unit) :
  (forall a p, emits (visit a p)) -> (forall i, emits (after i)) ->
  forall fuel iterator i, emits (Code_loop visit after fuel iterator i).
Proof.
  intros Hv Ha fuel. induction fuel as [|fuel IH]; intros iterator i; cbn.
  - destruct (i <? uint64big); emits_auto.
  - destruct (i <? uint64big); emits_auto; auto.
Qed.

Lemma emits_Code (fuel : nat) :
  forall iterator parent, emits (Code fuel iterator parent).
Proof.
  induction fuel as [|fuel IH]; intros iterator parent; cbn.
  - apply emits_lift.
  - apply emits_bind; [apply emits_index | intros x].
    apply emits_bind; [apply emits_Code_open | intros _].
    apply emits_Code_loop; [exact IH | intros i; apply emits_Code_each].
Qed.

Lemma agree_refl {A : Type} s (m : M A) : agree s m m.
Proof. now intros w _. Qed.

Lemma agree_sym {A : Type} s (m m' : M A) : agree s m m' -> agree s m' m.
Proof. intros H w Hw. symmetry. now apply H. Qed.

Lemma agree_trans {A : Type} s (m1 m2 m3 : M A) :
  agree s m1 m2 -> agree s m2 m3 -> agree s m1 m3.
Proof. intros H1 H2 w Hw. now rewrite H1, H2. Qed.

Lemma agree_eq {A : Type} s (m m' : M A) : m = m' -> agree s m m'.
Proof. intros ->. apply agree_refl. Qed.

Lemma agree_bind {A B : Type} s (m m' : M A) (k k' : A -> M B) :
  emits m -> agree s m m' -> (forall a, agree s (k a) (k' a)) ->
  agree s (bind m k) (bind m' k').
Proof.
  intros Hm H Hk w Hw. unfold bind. rewrite <- (H w Hw).
  pose proof (emits_ast m w Hm) as Hs.
  destruct (m w) as [[a|e|] w1]; try reflexivity.
  apply Hk. cbn in Hs. congruence.
Qed.

Lemma agree_index s (key : Z) :
  agree s (index key) (ret (default None (s !! key))).
Proof. intros w <-. reflexivity. Qed.

Lemma agree_index_bind {A : Type} s (key : Z) (k : byteslice -> M A) :
  agree s (bind (index key) k) (k (default None (s !! key))).
Proof. intros w <-. reflexivity. Qed.

Lemma agree_assoc {A B C : Type} s (m : M A) (k : A -> M B) (h : B -> M C) :
  agree s (bind (bind m k) h) (bind m (fun a => bind (k a) h)).
Proof. intros w _. apply bind_assoc. Qed.

Lemma agree_for_each {A : Type} s (l : list A) (f g : A -> M unit) :
  (forall x, emits (f x)) -> (forall x, In x l -> agree s (f x) (g x)) ->
  agree s (for_each l f) (for_each l g).
Proof.
  intros Hf. induction l as [|x l IH]; intros H; cbn.
  - apply agree_refl.
  - apply agree_bind; [apply Hf | apply H; now left |].
    intros _. apply IH. intros y Hy. apply H. now right.
Qed.

(** ** One step of [Code] *)

Lemma Code_S (fuel : nat) (iterator parent : Z) :
  Code (S fuel) iterator parent
  = (x <- index (O iterator) ;;
     Code_open (text x) iterator parent ;;
     Code_loop (Code fuel) (Code_each (text x) iterator) fuel iterator 0).
Proof. reflexivity. Qed.

Lemma Code_loop_S (visit : Z -> Z -> M unit) (after : Z -> M unit)
    (fuel : nat) (iterator i : Z) :
  Code_loop visit after (S fuel) iterator i
  = if i <? uint64big then
      ok <- Poke (add64 (O iterator) i) ;;
      i <- (if ok then visit (add64 (O iterator) i) iterator ;; ret i
            else ret uint64big) ;;
      after i ;;
      Code_loop visit after fuel iterator (add64 i 1)
    else ret tt.
Proof. reflexivity. Qed.

Lemma Code_loop_0 (visit : Z -> Z -> M unit) (after : Z -> M unit)
    (iterator i : Z) :
  Code_loop visit after 0 iterator i
  = if i <? uint64big then lift Starved else ret tt.
Proof. reflexivity. Qed.

#[global] Opaque O.
Arguments Code_open : simpl never.
Arguments Code_each : simpl never.
Arguments Code_loop : simpl never.
Arguments Code : simpl never.
Arguments is_nil : simpl never.
Arguments addr0 : simpl never.
Arguments family_at : simpl never.
Arguments Which : simpl never.
Arguments heads : simpl never.
Arguments differs : simpl never.

Lemma Code_loop_done visit after fuel iterator i :
  uint64big <= i -> Code_loop visit after fuel iterator i = ret tt.
Proof.
  intros H. destruct fuel; [rewrite Code_loop_0 | rewrite Code_loop_S];
    destruct (i <? uint64big) eqn:E; try reflexivity; lia.
Qed.

(** At a node of family [f], the two switches take the case of [f]. *)
Lemma Code_open_at t iterator parent w node f :
  ast w !! iterator = Some (Some node) ->
  (arr node, off node) = family_addr f -> 0 < len (Some node) ->
  Code_open t iterator parent w
  = open_switch (Some f) t (Some node) iterator parent w.
Proof.
  intros H Hp Hl. unfold Code_open, bind, index, lift. cbn. rewrite H. cbn.
  unfold is_nil. now rewrite (addr0_family f), family_at_addr.
Qed.

Lemma Code_each_at t iterator i w node f :
  ast w !! iterator = Some (Some node) ->
  (arr node, off node) = family_addr f -> 0 < len (Some node) ->
  Code_each t iterator i w
  = each_switch (Some f) t (Some node) iterator i w.
Proof.
  intros H Hp Hl. unfold Code_each, bind, index, lift. cbn. rewrite H. cbn.
  unfold is_nil. now rewrite (addr0_family f), family_at_addr.
Qed.

Lemma agree_Code_open s t iterator parent node f :
  s !! iterator = Some (Some node) ->
  (arr node, off node) = family_addr f -> 0 < len (Some node) ->
  agree s (Code_open t iterator parent)
          (open_switch (Some f) t (Some node) iterator parent).
Proof. intros H Hp Hl w <-. now apply Code_open_at. Qed.

Lemma agree_Code_each s t iterator i node f :
  s !! iterator = Some (Some node) ->
  (arr node, off node) = family_addr f -> 0 < len (Some node) ->
  agree s (Code_each t iterator i)
          (each_switch (Some f) t (Some node) iterator i).
Proof. intros H Hp Hl w <-. now apply Code_each_at. Qed.

(** ** The frame, and determinism *)

(** C8. [Code] never writes the map: whatever the fuel, the addresses and
    the outcome (a return, a panic, or starvation), the map after the call
    is the map before it; only the printed output has grown. *)
Theorem Code_reads_only (fuel : nat) (iterator parent : Z) (w : world) :
  ast (snd (Code fuel iterator parent w)) = ast w
  /\ exists l, printed (snd (Code fuel iterator parent w))
               = (printed w ++ l)%list.
Proof.
  destruct (emits_run _ (emits_Code fuel iterator parent) w) as (l & E & _).
  rewrite E. cbn. eauto.
Qed.

(** More fuel does not change a run that did not starve. *)
Lemma Code_loop_mono (visit visit' : Z -> Z -> M unit) (after : Z -> M unit) :
  (forall a p w, fst (visit a p w) <> Starved ->
                 visit' a p w = visit a p w) ->
  forall n n' iterator i w, (n <= n')%nat ->
    fst (Code_loop visit after n iterator i w) <> Starved ->
    Code_loop visit' after n' iterator i w
    = Code_loop visit after n iterator i w.
Proof.
  intros Hv n. induction n as [|n IH]; intros n' iterator i w Hle H.
  - rewrite Code_loop_0 in *.
    destruct n'; [rewrite Code_loop_0 | rewrite Code_loop_S];
      (destruct (i <? uint64big); [now cbn in H | reflexivity]).
  - destruct n' as [|n']; [lia|]. rewrite Code_loop_S in H.
    rewrite (Code_loop_S visit), (Code_loop_S visit').
    destruct (i <? uint64big); [|reflexivity].
    unfold bind, Poke, present in *. cbn in *.
    destruct (ast w !! add64 (O iterator) i) as [x|].
    + destruct (visit (add64 (O iterator) i) iterator w)
        as [[[]|e|] w1] eqn:Ev.
      * rewrite Hv by (rewrite Ev; discriminate). rewrite Ev. cbn in *.
        destruct (after i w1) as [[[]|e|] w2]; cbn in *; try reflexivity.
        apply IH; [lia | exact H].
      * rewrite Hv by (rewrite Ev; discriminate). now rewrite Ev.
      * now cbn in H.
    + cbn in *.
      destruct (after uint64big w) as [[[]|e|] w2]; cbn in *;
        try reflexivity.
      apply IH; [lia | exact H].
Qed.

Lemma Code_mono (f : nat) :
  forall f' iterator parent w, (f <= f')%nat ->
    fst (Code f iterator parent w) <> Starved ->
    Code f' iterator parent w = Code f iterator parent w.
Proof.
  induction f as [|f IH]; intros f' iterator parent w Hle H.
  - now cbn in H.
  - destruct f' as [|f']; [lia|]. rewrite Code_S in H.
    rewrite (Code_S f), (Code_S f').
    unfold bind, index in *. cbn in *.
    destruct (Code_open _ iterator parent w) as [[[]|e|] w1];
      try reflexivity.
    apply Code_loop_mono; [|lia|exact H].
    intros a p w0 H0. apply IH; [lia | exact H0].
Qed.

(** The same fuel on the same map: the same outcome and the same strings
    printed, starved or not. *)
Lemma Code_same_fuel (f : nat) (iterator parent : Z) (w1 w2 : world) :
  ast w1 = ast w2 ->
  fst (Code f iterator parent w1) = fst (Code f iterator parent w2)
  /\ exists l,
       printed (snd (Code f iterator parent w1)) = (printed w1 ++ l)%list
       /\ printed (snd (Code f iterator parent w2)) = (printed w2 ++ l)%list.
Proof.
  intros Hs.
  destruct (emits_run _ (emits_Code f iterator parent) w1) as (l & E & Eo).
  pose proof (Eo (printed w2)) as E2. rewrite Hs, world_eta in E2.
  rewrite E2, E. cbn. eauto.
Qed.

(** C4. Two invocations of [Code] on the same map and the same pair of
    addresses end alike and print the same strings, whatever had been
    printed before: with the same fuel always, and with different fuel
    whenever neither invocation ran out of it (the fuel is the model's, the
    source has none). And [O] is a function of the 64-bit value of its
    argument alone, with a 64-bit result. *)
Theorem Code_deterministic (f1 f2 : nat) (iterator parent : Z)
    (w1 w2 : world) :
  ast w1 = ast w2 ->
  f1 = f2
  \/ (fst (Code f1 iterator parent w1) <> Starved
      /\ fst (Code f2 iterator parent w2) <> Starved) ->
  fst (Code f1 iterator parent w1) = fst (Code f2 iterator parent w2)
  /\ (exists l,
        printed (snd (Code f1 iterator parent w1)) = (printed w1 ++ l)%list
        /\ printed (snd (Code f2 iterator parent w2))
           = (printed w2 ++ l)%list)
  /\ (forall n, 0 <= O n < 2 ^ 64 /\ O (wrap64 n) = O n).
Proof.
  intros Hs H.
  assert (HO : forall n, 0 <= O n < 2 ^ 64 /\ O (wrap64 n) = O n)
    by (intros n; split; [apply O_range | apply O_wrap]).
  destruct H as [<- | [H1 H2]].
  - destruct (Code_same_fuel f1 iterator parent w1 w2 Hs) as [E L].
    auto.
  - set (f := Nat.max f1 f2).
    rewrite <- (Code_mono f1 f iterator parent w1) by (trivial; lia).
    rewrite <- (Code_mono f2 f iterator parent w2) by (trivial; lia).
    destruct (Code_same_fuel f iterator parent w1 w2 Hs) as [E L].
    auto.
Qed.

Lemma Code_deterministic_witness :
  fst (Code 6 0 0 {| ast := keyed_literal_store; printed := [] |})
  = fst (Code 9 0 0 {| ast := keyed_literal_store; printed := ["x"] |}).
Proof.
  refine (proj1 (Code_deterministic 6 9 0 0
                   {| ast := keyed_literal_store; printed := [] |}
                   {| ast := keyed_literal_store; printed := ["x"] |}
                   eq_refl (or_intror (conj _ _))));
    vm_compute; discriminate.
Defined.

(** ** The walk over the child run *)

Lemma range_bounds (n : nat) :
  forall i j, In j (range i n) -> i <= j < i + Z.of_nat n.
Proof.
  induction n as [|n IH]; intros i j H; cbn in H; [easy|].
  destruct H as [<-|H]; [lia|]. apply IH in H. lia.
Qed.

Lemma child_run_spec s iterator n :
  child_run s iterator n = true ->
  forallb (fun i => present s (add64 (O iterator) i)) (range 0 n) = true
  /\ present s (add64 (O iterator) (Z.of_nat n)) = false
  /\ Z.of_nat n < uint64big.
Proof.
  unfold child_run, indices. intros H.
  apply andb_prop in H as [H H3]. apply andb_prop in H as [H1 H2].
  apply negb_true_iff in H2. repeat split; [assumption.. | lia].
Qed.

(** The loop renders the children of the run in order, each followed by
    the second switch, and ends with the second switch at [uint64big]. *)
Lemma Code_loop_run s (visit : Z -> Z -> M unit) (after : Z -> M unit)
    (iterator : Z) :
  (forall a p, emits (visit a p)) -> (forall i, emits (after i)) ->
  forall n i fuel,
    0 <= i -> i + Z.of_nat n < uint64big ->
    forallb (fun j => present s (add64 (O iterator) j)) (range i n) = true ->
    present s (add64 (O iterator) (i + Z.of_nat n)) = false ->
    (n < fuel)%nat ->
    agree s (Code_loop visit after fuel iterator i)
      (for_each (range i n)
         (fun j => visit (add64 (O iterator) j) iterator ;; after j) ;;
       after uint64big).
Proof.
  intros Hv Ha n.
  induction n as [|n IH]; intros i fuel Hi Hb Hp Hq Hf w Hw;
    (destruct fuel as [|fuel]; [lia|]); rewrite Code_loop_S;
    (replace (i <? uint64big) with true by lia).
  - cbn [range for_each]. rewrite Z.add_0_r in Hq.
    unfold bind at 1, Poke. cbn. rewrite Hw, Hq. cbn.
    rewrite Code_loop_done by (vm_compute; discriminate).
    apply bind_unit_r.
  - cbn [range for_each forallb] in *.
    apply andb_prop in Hp as [Hp1 Hp2].
    unfold bind at 1, Poke. cbn. rewrite Hw, Hp1.
    pose proof (emits_ast (visit (add64 (O iterator) i) iterator) w
                  (Hv _ _)) as Hs1.
    unfold bind.
    destruct (visit (add64 (O iterator) i) iterator w) as [[[]|e|] w1];
      cbn in Hs1 |- *; try reflexivity.
    pose proof (emits_ast (after i) w1 (Ha _)) as Hs2.
    destruct (after i w1) as [[[]|e|] w2]; cbn in Hs2 |- *;
      try reflexivity.
    rewrite add64_small by (unfold uint64big in *; lia).
    rewrite (IH (i + 1) fuel); try lia; try assumption; try congruence.
    + reflexivity.
    + now replace (i + 1 + Z.of_nat n) with (i + Z.of_nat (S n)) by lia.
Qed.

(** [Code] is its first switch, then the children of the run in order,
    each followed by the second switch, then the second switch at
    [uint64big]. *)
Lemma Code_run s (fuel n : nat) (iterator parent : Z) :
  child_run s iterator n = true -> (n < fuel)%nat ->
  agree s (Code (S fuel) iterator parent)
    (x <- index (O iterator) ;;
     Code_open (text x) iterator parent ;;
     for_each (indices n)
       (fun i => Code fuel (add64 (O iterator) i) iterator ;;
                 Code_each (text x) iterator i) ;;
     Code_each (text x) iterator uint64big).
Proof.
  intros H Hf. apply child_run_spec in H as (H1 & H2 & H3).
  rewrite Code_S.
  apply agree_bind; [apply emits_index | apply agree_refl | intros x].
  apply agree_bind; [apply emits_Code_open | apply agree_refl | intros _].
  apply Code_loop_run; try assumption; try lia.
  - intros a p. apply emits_Code.
  - intros i. apply emits_Code_each.
Qed.

(** A key bound to nil, with no child of its own, renders nothing. *)
Lemma Code_nil (fuel : nat) (iterator parent : Z) (w : world) :
  ast w !! iterator = Some None -> ast w !! O iterator = None ->
  Code (S (S fuel)) iterator parent w = (Ret tt, w).
Proof.
  intros H1 H2. rewrite Code_S.
  unfold bind, index, Code_open, is_nil. cbn. rewrite ?H1, ?H2. cbn.
  rewrite Code_loop_S. change (0 <? uint64big) with true. cbv iota.
  unfold bind, Poke, present, Code_each, index, is_nil. cbn.
  rewrite ?add64_O_0, ?H1, ?H2. cbn. rewrite ?H1. cbn.
  now rewrite Code_loop_done by (vm_compute; discriminate).
Qed.

(** A key bound to a record that is not nil and has length zero: the
    first switch takes the address of its element 0 and panics. *)
Lemma Code_empty (fuel : nat) (iterator parent : Z) (w : world) (s : slice) :
  ast w !! iterator = Some (Some s) -> bytes s = EmptyString ->
  Code (S fuel) iterator parent w = (Panic IndexOutOfRange, w).
Proof.
  intros H1 H2. rewrite Code_S.
  unfold bind, index, Code_open, addr0, is_nil, len. cbn.
  rewrite H1. cbn. rewrite H2. reflexivity.
Qed.

(** C1 (as amended). With the first [n] keys from O(a) present and the
    next one absent, [Code] at [a] runs its first switch, then calls
    itself on O(a)+0, .., O(a)+n-1 in this order, each call followed by the
    second switch, and ends with the second switch at the sentinel index;
    a panic or starvation in a step ends the walk there. What a key is
    bound to plays no part in where the run ends: a key bound to nil
    continues it, and with no child of its own renders nothing. *)
Theorem Code_visits_the_child_run (fuel n : nat) (iterator parent : Z)
    (w : world) :
  child_run (ast w) iterator n = true -> (n < fuel)%nat ->
  Code (S fuel) iterator parent w
  = (x <- index (O iterator) ;;
     Code_open (text x) iterator parent ;;
     for_each (indices n)
       (fun i => Code fuel (add64 (O iterator) i) iterator ;;
                 Code_each (text x) iterator i) ;;
     Code_each (text x) iterator uint64big) w
  /\ (forall c p f,
        ast w !! c = Some None -> ast w !! O c = None ->
        Code (S (S f)) c p w = (Ret tt, w)).
Proof.
  intros H Hf. split.
  - now apply (Code_run (ast w) fuel n).
  - intros c p f. apply Code_nil.
Qed.

Lemma Code_visits_the_child_run_witness :
  child_run omitted_store 0 2 = true
  /\ Code 4 0 0 {| ast := omitted_store; printed := [] |}
     = (Ret tt,
        {| ast := omitted_store;
           printed := ["{"; EmptyString; EmptyString; "break";
                       EmptyString; "}"] |}).
Proof.
  split; [vm_compute; reflexivity|].
  destruct (Code_visits_the_child_run 3 2 0 0
              {| ast := omitted_store; printed := [] |}) as [E _].
  - vm_compute. reflexivity.
  - lia.
  - rewrite E. vm_compute. reflexivity.
Defined.

(** C1, as stated, fails: a key bound to a record that is not nil and has
    no bytes does not continue the run as nothing rendered; the walk
    panics at it, and the sibling after it is never rendered. *)
Lemma empty_payload_ends_the_walk :
  child_run broken_store 0 2 = true
  /\ broken_store !! add64 (O 0) 0 = Some empty_record
  /\ len empty_record = 0
  /\ Code 4 0 0 {| ast := broken_store; printed := [] |}
     = (Panic IndexOutOfRange,
        {| ast := broken_store; printed := ["{"; EmptyString] |}).
Proof. repeat split; vm_compute; reflexivity. Qed.

(** ** Leaves and comments *)

Lemma textual_addr0 (x : byteslice) :
  textual x = true ->
  is_nil x = false /\ exists id o, addr0 x = Ret (foreign id, o).
Proof.
  destruct x as [s|]; [|discriminate]. unfold textual, addr0.
  destruct s as [a o b c]. cbn. destruct a; try discriminate.
  intros H. apply negb_true_iff in H. cbn in H. rewrite H. eauto.
Qed.

Lemma Which_textual (x : byteslice) :
  textual x = true -> Which x = Ret None /\ (0 <? len x) = true.
Proof.
  intros H. destruct (textual_addr0 x H) as (Hn & id & o & Ha).
  destruct x as [s|]; [|discriminate]. unfold Which. rewrite Ha.
  split; [reflexivity|].
  unfold textual in H. destruct (arr s); try discriminate.
  apply negb_true_iff in H. apply Z.eqb_neq in H. apply Z.ltb_lt.
  unfold len in *. lia.
Qed.

(** A leaf with no child of its own prints nothing: its text is printed
    by its parent. *)
Lemma Code_leaf (fuel : nat) (iterator parent : Z) (w : world)
    (x : byteslice) :
  ast w !! iterator = Some x -> textual x = true ->
  ast w !! O iterator = None ->
  Code (S (S fuel)) iterator parent w = (Ret tt, w).
Proof.
  intros H1 Hx H2. destruct (textual_addr0 x Hx) as (Hn & id & o & Ha).
  rewrite Code_S.
  unfold bind, index, Code_open, lift. cbn. rewrite ?H1, ?H2. cbn.
  rewrite Hn, Ha. cbn. rewrite family_at_foreign. cbn.
  rewrite Code_loop_S. change (0 <? uint64big) with true. cbv iota.
  unfold bind, Poke, present, Code_each, index, lift. cbn.
  rewrite ?add64_O_0, ?H1, ?H2. cbn. rewrite ?H1. cbn.
  rewrite Hn, Ha. cbn. rewrite family_at_foreign. cbn.
  now rewrite Code_loop_done by (vm_compute; discriminate).
Qed.

(** C6. A CommentRow node whose one child is a leaf prints the text of
    that leaf as it is stored; it prints an empty string, which the
    printer turns into a line break, before the text exactly when its
    variant, its length minus one, is [CommentRowSeparate]. *)
Theorem CommentRow_rendering (fuel : nat) (iterator parent : Z) (w : world)
    (node : slice) (comment : byteslice) :
  ast w !! iterator = Some (Some node) ->
  (arr node, off node) = family_addr CommentRow -> 0 < len (Some node) ->
  ast w !! O iterator = Some comment -> textual comment = true ->
  ast w !! add64 (O iterator) 1 = None ->
  ast w !! O (O iterator) = None ->
  Code (3 + fuel) iterator parent w
  = (Ret tt,
     out w ((if len (Some node) - 1 =? CommentRowSeparate
             then [EmptyString] else []) ++ [text comment]))
  /\ (len (Some node) - 1 = CommentRowSeparate <->
      Code (3 + fuel) iterator parent w
      = (Ret tt, out w [EmptyString; text comment]))
  /\ (len (Some node) - 1 = CommentRowEnder
      \/ len (Some node) - 1 = CommentRowNormal ->
      Code (3 + fuel) iterator parent w = (Ret tt, out w [text comment])).
Proof.
  intros Hn Hp Hl Hc Ht Hend Hleaf.
  assert (E : Code (3 + fuel) iterator parent w
              = (Ret tt,
                 out w ((if len (Some node) - 1 =? CommentRowSeparate
                         then [EmptyString] else []) ++ [text comment]))).
  { change (3 + fuel)%nat with (S (S (S fuel))). rewrite Code_S.
    unfold bind at 1, index at 1. cbv beta iota. rewrite Hc.
    cbn [from_option id].
    unfold bind at 1. rewrite (Code_open_at _ _ _ _ node CommentRow) by easy.
    set (pre := if len (Some node) - 1 =? CommentRowSeparate
                then [EmptyString] else []).
    assert (Eo : open_switch (Some CommentRow) (text comment) (Some node)
                   iterator parent w
                 = (Ret tt, out w (pre ++ [text comment]))).
    { unfold open_switch, pre, when, bind, print, ret, out.
      destruct (len (Some node) - 1 =? CommentRowSeparate); cbn;
        [now rewrite <- app_assoc | reflexivity]. }
    rewrite Eo. clear Eo. set (w1 := out w (pre ++ [text comment])).
    rewrite Code_loop_S. change (0 <? uint64big) with true. cbv iota.
    unfold bind at 1, Poke, present. rewrite add64_O_0.
    change (ast w1) with (ast w). rewrite Hc.
    unfold bind at 1. unfold bind at 1.
    rewrite (Code_leaf fuel (O iterator) iterator w1 comment Hc Ht Hleaf).
    unfold ret at 1. unfold bind at 1.
    rewrite (Code_each_at _ _ _ _ node CommentRow) by easy.
    unfold each_switch at 1, ret at 1.
    rewrite Code_loop_S. change (add64 0 1 <? uint64big) with true.
    cbv iota. unfold bind at 1, Poke, present.
    change (ast w1) with (ast w). change (add64 0 1) with 1.
    rewrite Hend. unfold bind at 1, ret at 1. unfold bind at 1.
    rewrite (Code_each_at _ _ _ _ node CommentRow) by easy.
    unfold each_switch at 1, ret at 1.
    now rewrite Code_loop_done by (vm_compute; discriminate). }
  split; [exact E|]. rewrite E. split.
  - split.
    + intros ->. reflexivity.
    + intros H. destruct (len (Some node) - 1 =? CommentRowSeparate) eqn:B;
        [lia|]. cbn in H. injection H as H.
      apply (f_equal (@List.length string)) in H.
      rewrite !length_app in H. cbn in H. lia.
  - intros [-> | ->]; reflexivity.
Qed.

Lemma CommentRow_rendering_witness :
  Code 3 0 0 {| ast := comment_store; printed := [] |}
  = (Ret tt,
     {| ast := comment_store; printed := [EmptyString; "// note"] |}).
Proof.
  apply (CommentRow_rendering 0 0 0 {| ast := comment_store; printed := [] |}
           {| arr := arrCommentRow; off := 0; bytes := "Com";
              capacity := 10 |} (leaf 1 "// note"));
    vm_compute; reflexivity.
Defined.

(** ** Blocks *)

Ltac decide_tests :=
  repeat match goal with
         | |- context [?a =? ?b] => destruct (Z.eqb_spec a b)
         | |- context [?a <? ?b] => destruct (Z.ltb_spec a b)
         end;
  cbn [negb andb orb]; try reflexivity; try lia.

Section BlocOfCode.
Variables (node : slice) (kind h : Z).
Hypothesis Hk : 0 <= kind <= 12.
Hypothesis Hh : 0 <= h <= 999971.
Hypothesis Hlen : len (Some node) = kind + 1.
Hypothesis Hcap : cap (Some node) = h + 13.

Lemma open_BlocOfCode_eq :
  open_BlocOfCode (Some node)
  = (introducer kind ;;
     when (h =? 0)
       (when (kind <? BlocOfCodeCase) (print "{" ;; print EmptyString))).
Proof.
  unfold open_BlocOfCode. rewrite Hlen, Hcap.
  replace (kind + 1 - 1) with kind by lia.
  replace (to_byte kind) with kind
    by (unfold to_byte; rewrite Z.mod_small; lia).
  unfold BlocOfCodeTotalCount.
  replace (h + 13 =? 13) with (h =? 0); [reflexivity|].
  decide_tests.
Qed.

Lemma each_BlocOfCode_child (i : Z) :
  0 <= i < 2 ^ 63 ->
  each_BlocOfCode (Some node) i
  = (if i + 1 =? h then
       if (kind =? BlocOfCodeCase) || (kind =? BlocOfCodeCommunicate)
       then print ":" ;; print EmptyString
       else when (kind <? BlocOfCodeCase)
              (print "{" ;; print EmptyString)
     else if h <? i + 1 then print EmptyString
     else when (kind =? BlocOfCodeCase) (print ", ")).
Proof.
  intros Hi. unfold each_BlocOfCode. rewrite Hlen, Hcap.
  replace (kind + 1 - 1) with kind by lia.
  unfold BlocOfCodeTotalCount, BlocOfCodeCase, BlocOfCodeCommunicate,
    to_uint64, uint64big.
  rewrite (add64_small i 13) by lia.
  rewrite (add64_small (i + 13) 1) by lia.
  rewrite (wrap64_small (h + 13)) by lia.
  change (2 ^ 64 - 2) with 18446744073709551614.
  unfold when. decide_tests.
Qed.

Lemma each_BlocOfCode_end :
  each_BlocOfCode (Some node) uint64big
  = (when (kind <? BlocOfCodeCase) (print "}") ;;
     when (kind =? BlocOfCodeIfElse) (print " else")).
Proof.
  unfold each_BlocOfCode. rewrite Hlen.
  replace (kind + 1 - 1) with kind by lia.
  now rewrite Z.eqb_refl.
Qed.
End BlocOfCode.

(** C3 (as amended). A BlocOfCode node of kind [kind] with [h] header
    elements prints its introducer keyword, and right after it the opening
    brace and a line break when [h] is zero and the kind is one of the
    brace kinds (below [BlocOfCodeCase]). Otherwise the brace is put off
    until the [h]-th child has been rendered; there the case and the
    communicate kinds print a colon and a line break in its place. A
    header child before that is followed by a comma in a case, a child
    after the header by a line break. After the last child every brace
    kind prints the closing brace, and the if-else kind prints it too,
    followed by " else"; the kinds from [BlocOfCodeCase] on print no
    closing brace. *)
Theorem BlocOfCode_braces (fuel n : nat) (iterator parent : Z) (w : world)
    (kind h : Z) (node : slice) :
  0 <= kind <= 12 -> 0 <= h <= 999971 ->
  BlocOfCodeNode kind h = Ret node ->
  ast w !! iterator = Some (Some node) ->
  child_run (ast w) iterator n = true -> (n < fuel)%nat ->
  Z.of_nat n <= 2 ^ 63 ->
  Code (S fuel) iterator parent w
  = (introducer kind ;;
     when (h =? 0)
       (when (kind <? BlocOfCodeCase) (print "{" ;; print EmptyString)) ;;
     for_each (indices n)
       (fun i =>
          Code fuel (add64 (O iterator) i) iterator ;;
          (if i + 1 =? h then
             if (kind =? BlocOfCodeCase) || (kind =? BlocOfCodeCommunicate)
             then print ":" ;; print EmptyString
             else when (kind <? BlocOfCodeCase)
                    (print "{" ;; print EmptyString)
           else if h <? i + 1 then print EmptyString
           else when (kind =? BlocOfCodeCase) (print ", "))) ;;
     when (kind <? BlocOfCodeCase) (print "}") ;;
     when (kind =? BlocOfCodeIfElse) (print " else")) w.
Proof.
  intros Hk Hh Hnode Hn Hrun Hf Hbig.
  unfold BlocOfCodeNode in Hnode.
  apply slice3_Ret in Hnode as (_ & _ & Hp & Hlen & Hcap).
  assert (Hcap' : cap (Some node) = h + 13)
    by (rewrite Hcap; unfold BlocOfCodeTotalCount; machine).
  assert (Hl : 0 < len (Some node)) by lia.
  revert w Hn Hrun.
  enough (G : forall s, s !! iterator = Some (Some node) ->
                 child_run s iterator n = true ->
                 agree s (Code (S fuel) iterator parent)
                   (introducer kind ;;
                    when (h =? 0)
                      (when (kind <? BlocOfCodeCase)
                         (print "{" ;; print EmptyString)) ;;
                    for_each (indices n)
                      (fun i =>
                         Code fuel (add64 (O iterator) i) iterator ;;
                         (if i + 1 =? h then
                            if (kind =? BlocOfCodeCase)
                               || (kind =? BlocOfCodeCommunicate)
                            then print ":" ;; print EmptyString
                            else when (kind <? BlocOfCodeCase)
                                   (print "{" ;; print EmptyString)
                          else if h <? i + 1 then print EmptyString
                          else when (kind =? BlocOfCodeCase)
                                 (print ", "))) ;;
                    when (kind <? BlocOfCodeCase) (print "}") ;;
                    when (kind =? BlocOfCodeIfElse) (print " else"))).
  { intros w Hn Hrun. now apply (G (ast w)). }
  intros s Hn Hrun.
  eapply agree_trans; [now apply (Code_run s fuel n)|].
  eapply agree_trans; [apply agree_index_bind|].
  eapply agree_trans; [|apply agree_assoc].
  apply agree_bind; [apply emits_Code_open | |intros _].
  - eapply agree_trans;
      [now apply (agree_Code_open s _ _ _ node BlocOfCode)|].
    apply agree_eq. unfold open_switch.
    now apply open_BlocOfCode_eq.
  - apply agree_bind.
    + apply emits_for_each. intros i.
      apply emits_bind; [apply emits_Code | intros _; apply emits_Code_each].
    + apply agree_for_each.
      * intros i.
        apply emits_bind; [apply emits_Code | intros _; apply emits_Code_each].
      * intros i Hi. apply range_bounds in Hi.
        apply agree_bind; [apply emits_Code | apply agree_refl | intros _].
        eapply agree_trans;
          [now apply (agree_Code_each s _ _ _ node BlocOfCode)|].
        apply agree_eq. unfold each_switch.
        apply each_BlocOfCode_child; lia.
    + intros _.
      eapply agree_trans;
        [now apply (agree_Code_each s _ _ _ node BlocOfCode)|].
      apply agree_eq. unfold each_switch.
      now apply each_BlocOfCode_end.
Qed.

Lemma BlocOfCode_braces_witness :
  child_run ifelse_store 0 1 = true
  /\ Code 4 0 0 {| ast := ifelse_store; printed := [] |}
     = (Ret tt,
        {| ast := ifelse_store;
           printed := ["if "; "x"; "{"; EmptyString; "}"; " else"] |}).
Proof.
  split; [vm_compute; reflexivity|].
  rewrite (BlocOfCode_braces 3 1 0 0 {| ast := ifelse_store; printed := [] |}
             BlocOfCodeIfElse 1
             {| arr := storage; off := 16; bytes := zeros 3;
                capacity := 14 |}).
  - vm_compute. reflexivity.
  - unfold BlocOfCodeIfElse. lia.
  - lia.
  - vm_compute. reflexivity.
  - vm_compute. reflexivity.
  - vm_compute. reflexivity.
  - lia.
  - change (Z.of_nat 1) with 1. lia.
Defined.

(** C3, as stated, fails: the if-else kind does not leave its closing
    brace out; it prints the brace and then " else". *)
Lemma ifelse_keeps_its_closing_brace :
  Code 4 0 0 {| ast := ifelse_store; printed := [] |}
  = (Ret tt,
     {| ast := ifelse_store;
        printed := ["if "; "x"; "{"; EmptyString; "}"; " else"] |}).
Proof. vm_compute. reflexivity. Qed.

(** ** Expressions *)

Lemma each_Expression_single (iterator : Z) (w : world) (op : Z)
    (node : slice) (operand : byteslice) (closing : M unit) :
  ast w !! O iterator = Some operand -> textual operand = true ->
  len (Some node) - 1 = op -> 0 <= op < 256 ->
  cap (Some node) = 39 ->
  switch op
    [ ([ExpressionBrackets], print ")");
      ([ExpressionCallDotDotDot; ExpressionCall], print "()");
      ([ExpressionComposed], print "}");
      ([ExpressionComposite], print "{}");
      ([ExpressionType], print ".(type)") ]
    (ret tt) = closing ->
  each_Expression (Some node) iterator 0 w
  = (print (text operand) ;; closing) w.
Proof.
  intros Hc Ht Hlen Hop Hcap Hsw.
  destruct (Which_textual operand Ht) as [Hw Hpos].
  unfold each_Expression. rewrite Hlen, Hcap.
  replace (to_byte op) with op by (unfold to_byte; rewrite Z.mod_small; lia).
  unfold bind at 1, index at 1. rewrite add64_O_0, Hc. cbn [from_option id].
  unfold bind at 1, lift at 1. rewrite Hw.
  rewrite bool_decide_eq_true_2 by reflexivity. rewrite Hpos.
  cbn [when].
  change (negb (0 =? uint64big)) with true. cbn [when].
  change (add64 0 1) with 1.
  change (to_uint64 (39 - ExpressionTotalCount)) with 1.
  change (Bool.eqb (1 <=? 1) (1 <? 1) && negb (1 =? 1)) with false.
  change ((1 =? 1) && (1 =? 1)) with true. cbv iota.
  rewrite Hsw. change (1 =? 1) with true. cbn [when].
  unfold bind, ret.
  destruct (print (text operand) w) as [[[]|e|] w1]; try reflexivity.
  now destruct (closing w1) as [[[]|e|] w2].
Qed.

(** An Expression node of kind [op] with one declared child, a leaf: the
    text of the leaf, then what closes the one-operand form of [op]. *)
Lemma Code_single_operand (fuel : nat) (iterator parent : Z) (w : world)
    (op : Z) (node : slice) (operand : byteslice) (closing : list string) :
  0 <= op -> ExpressionNode op 1 = Ret node ->
  open_Expression (Some node) = ret tt ->
  (forall w', ast w' = ast w ->
     each_Expression (Some node) iterator 0 w'
     = (Ret tt, out w' (text operand :: closing))) ->
  ast w !! iterator = Some (Some node) ->
  ast w !! O iterator = Some operand -> textual operand = true ->
  ast w !! add64 (O iterator) 1 = None ->
  ast w !! O (O iterator) = None ->
  ast w !! add64 (O iterator) uint64big = None ->
  Code (3 + fuel) iterator parent w
  = (Ret tt, out w (text operand :: closing)).
Proof.
  intros Hop Hnode Hopen Heach Hn Hc Ht Hend Hleaf Hsent.
  unfold ExpressionNode in Hnode.
  apply slice3_Ret in Hnode as (Hb & _ & Hp & Hlen & Hcap).
  assert (Hl : 0 < len (Some node)) by lia.
  change (3 + fuel)%nat with (S (S (S fuel))). rewrite Code_S.
  unfold bind at 1, index at 1. cbv beta iota. rewrite Hc.
  cbn [from_option id].
  unfold bind at 1. rewrite (Code_open_at _ _ _ _ node Expression) by easy.
  unfold open_switch. rewrite Hopen. unfold ret at 1.
  rewrite Code_loop_S. change (0 <? uint64big) with true. cbv iota.
  unfold bind at 1, Poke, present. rewrite add64_O_0, Hc.
  unfold bind at 1. unfold bind at 1.
  rewrite (Code_leaf fuel (O iterator) iterator w operand Hc Ht Hleaf).
  unfold ret at 1. unfold bind at 1.
  rewrite (Code_each_at _ _ _ _ node Expression) by easy.
  unfold each_switch at 1. rewrite (Heach w eq_refl).
  set (w1 := out w _).
  rewrite Code_loop_S. change (add64 0 1 <? uint64big) with true.
  cbv iota. unfold bind at 1, Poke, present.
  change (ast w1) with (ast w). change (add64 0 1) with 1.
  rewrite Hend. unfold bind at 1, ret at 1. unfold bind at 1.
  rewrite (Code_each_at _ _ _ _ node Expression) by easy.
  unfold each_switch at 1.
  assert (Ee : each_Expression (Some node) iterator uint64big w1
               = (Ret tt, w1)).
  { unfold each_Expression, bind, index, lift. cbn.
    rewrite Hsent. cbn. reflexivity. }
  rewrite Ee.
  now rewrite Code_loop_done by (vm_compute; discriminate).
Qed.

(** C7 (as amended). A call whose one child is the callee renders the
    callee followed by the empty bracket pair; a composite literal whose
    one child is its type renders the type followed by an empty pair of
    braces; and a composite literal of type T with three key-value
    elements k1 v1, k2 v2, k3 v3, whatever these texts are, renders as
    T{k1:v1, k2:v2, k3:v3}: the elements separated by a comma and a
    space, no comma after the last, and a colon without a space between
    a key and its value. In the first two forms the child is
    a leaf with no child of its own, and the key at O(a) + uint64big,
    which the second switch of an Expression reads when the run has
    ended, is absent. *)
Theorem minimal_forms :
  (forall fuel iterator parent w node callee,
     ExpressionNode ExpressionCall 1 = Ret node ->
     ast w !! iterator = Some (Some node) ->
     ast w !! O iterator = Some callee -> textual callee = true ->
     ast w !! add64 (O iterator) 1 = None ->
     ast w !! O (O iterator) = None ->
     ast w !! add64 (O iterator) uint64big = None ->
     Code (3 + fuel) iterator parent w
     = (Ret tt, out w [text callee; "()"]))
  /\ (forall fuel iterator parent w node type,
     ExpressionNode ExpressionComposite 1 = Ret node ->
     ast w !! iterator = Some (Some node) ->
     ast w !! O iterator = Some type -> textual type = true ->
     ast w !! add64 (O iterator) 1 = None ->
     ast w !! O (O iterator) = None ->
     ast w !! add64 (O iterator) uint64big = None ->
     Code (3 + fuel) iterator parent w
     = (Ret tt, out w [text type; "{}"]))
  /\ (forall T k1 v1 k2 v2 k3 v3,
     T <> EmptyString ->
     k1 <> EmptyString -> v1 <> EmptyString ->
     k2 <> EmptyString -> v2 <> EmptyString ->
     k3 <> EmptyString -> v3 <> EmptyString ->
     Code 6 0 0 {| ast := keyed_literal T k1 v1 k2 v2 k3 v3;
                   printed := [] |}
     = (Ret tt,
        {| ast := keyed_literal T k1 v1 k2 v2 k3 v3;
           printed := [T; "{"; k1; ":"; v1; ", "; k2; ":"; v2; ", ";
                       k3; ":"; v3; "}"] |})).
Proof.
  split; [|split].
  - intros fuel iterator parent w node callee Hnode Hn Hc Ht Hend Hleaf Hs.
    apply (Code_single_operand fuel iterator parent w ExpressionCall node
             callee ["()"]); try assumption; try easy.
    + vm_compute in Hnode. injection Hnode as <-. reflexivity.
    + intros w' Hw'. rewrite <- Hw' in Hc.
      rewrite (each_Expression_single iterator w' ExpressionCall node
                 callee (print "()")); try assumption; try easy.
      * unfold bind, print, out. cbn. now rewrite <- app_assoc.
      * vm_compute in Hnode. now injection Hnode as <-.
      * vm_compute in Hnode. now injection Hnode as <-.
  - intros fuel iterator parent w node type Hnode Hn Hc Ht Hend Hleaf Hs.
    apply (Code_single_operand fuel iterator parent w ExpressionComposite
             node type ["{}"]); try assumption; try easy.
    + vm_compute in Hnode. injection Hnode as <-. reflexivity.
    + intros w' Hw'. rewrite <- Hw' in Hc.
      rewrite (each_Expression_single iterator w' ExpressionComposite node
                 type (print "{}")); try assumption; try easy.
      * unfold bind, print, out. cbn. now rewrite <- app_assoc.
      * vm_compute in Hnode. now injection Hnode as <-.
      * vm_compute in Hnode. now injection Hnode as <-.
  - intros T k1 v1 k2 v2 k3 v3 HT Hk1 Hv1 Hk2 Hv2 Hk3 Hv3.
    destruct T; [congruence|]. destruct k1; [congruence|].
    destruct v1; [congruence|]. destruct k2; [congruence|].
    destruct v2; [congruence|]. destruct k3; [congruence|].
    destruct v3; [congruence|].
    vm_compute. reflexivity.
Qed.

Lemma minimal_forms_witness :
  Code 3 0 0 {| ast := call_store; printed := [] |}
  = (Ret tt, {| ast := call_store; printed := ["f"; "()"] |})
  /\ Code 3 0 0 {| ast := empty_literal_store; printed := [] |}
     = (Ret tt, {| ast := empty_literal_store; printed := ["T"; "{}"] |}).
Proof.
  destruct minimal_forms as (H1 & H2 & _). split.
  - apply (H1 0%nat 0 0 {| ast := call_store; printed := [] |}
              {| arr := storage; off := 0; bytes := zeros 25;
                 capacity := 39 |} (leaf 1 "f"));
      vm_compute; reflexivity.
  - apply (H2 0%nat 0 0 {| ast := empty_literal_store; printed := [] |}
              {| arr := storage; off := 0; bytes := zeros 24;
                 capacity := 39 |} (leaf 1 "T"));
      vm_compute; reflexivity.
Defined.

(** C7, as stated, fails: no space follows the colon of a key-value
    element. *)
Lemma keyed_literal_has_no_space_after_colon :
  String.concat EmptyString
    (printed (snd (Code 6 0 0 {| ast := keyed_literal_store;
                                 printed := [] |})))
  = "T{k1:v1, k2:v2, k3:v3}"
  /\ String.concat EmptyString
       (printed (snd (Code 6 0 0 {| ast := keyed_literal_store;
                                    printed := [] |})))
     <> "T{k1: v1, k2: v2, k3: v3}".
Proof. split; vm_compute; congruence. Qed.

(** ** The comment classifier *)

Lemma byte_eqb_true (x y : byte) : Byte.eqb x y = true <-> x = y.
Proof. split; [apply Byte.byte_dec_bl | apply Byte.byte_dec_lb]. Qed.

(** One turn, flag by flag. *)
Lemma LookupComments_turn_eq (i : Z) (c d : byte) (st : scan) :
  LookupComments_turn i c d st
  = if Byte.eqb c "010" then
      {| whitespace := true;
         cleanline := cleanline st || whitespace st;
         sawender := false;
         Ender := Ender st; Separ := Separ st |}
    else
      {| whitespace := whitespace st && negb (above_space c);
         cleanline := cleanline st && negb (above_space c);
         sawender := sawender st || (is_marker c d && negb (whitespace st));
         Ender := if is_marker c d && negb (whitespace st)
                     && negb (sawender st)
                  then {[ (i + 1) / 2 ]} ∪ Ender st else Ender st;
         Separ := if (is_marker c d || is_package c d) && cleanline st
                  then {[ (i + 1) / 2 ]} ∪ Separ st else Separ st |}.
Proof.
  unfold LookupComments_turn, is_marker, is_package.
  destruct st as [ws cl se E0 E1]. cbn.
  destruct (Byte.eqb c "010"); [destruct ws, cl; reflexivity|].
  destruct (Byte.eqb c "/") eqn:Ec.
  - apply byte_eqb_true in Ec. subst c. cbn.
    destruct (Byte.eqb d "/"), (Byte.eqb d "*"), ws, cl, se; reflexivity.
  - destruct (Byte.eqb c "p") eqn:Ep.
    + apply byte_eqb_true in Ep. subst c. cbn.
      destruct (Byte.eqb d "a"), ws, cl, se; reflexivity.
    + cbn. destruct (above_space c), ws, cl, se; reflexivity.
Qed.

Lemma marker_not_newline (c d : byte) :
  is_marker c d = true -> Byte.eqb c "010" = false.
Proof.
  unfold is_marker. rewrite andb_true_iff, byte_eqb_true.
  intros [-> _]. reflexivity.
Qed.

Lemma package_not_newline (c d : byte) :
  is_package c d = true -> Byte.eqb c "010" = false.
Proof.
  unfold is_package. rewrite andb_true_iff, byte_eqb_true.
  intros [-> _]. reflexivity.
Qed.

Section Classifier.
Variable file : list byte.

Lemma newline_is_blank (m : nat) : newline_at file m -> blank_at file m.
Proof. intros H. exists "010"%byte. split; [exact H | reflexivity]. Qed.

Lemma leading_step (m : nat) :
  leading file (S m)
  <-> newline_at file m \/ (leading file m /\ blank_at file m).
Proof.
  split.
  - intros (k & Hk & Hn & Hb).
    destruct (Nat.eq_dec k m) as [->|Hne]; [now left|]. right. split.
    + exists k. repeat split; [lia | exact Hn |].
      intros j Hj. apply Hb. lia.
    + apply Hb. lia.
  - intros [Hn | [(k & Hk & Hn & Hb) Hm]].
    + exists m. repeat split; [lia | exact Hn |]. intros j Hj. lia.
    + exists k. repeat split; [lia | exact Hn |]. intros j Hj.
      destruct (Nat.eq_dec j m) as [->|]; [exact Hm | apply Hb; lia].
Qed.

Lemma after_empty_line_newline (m : nat) :
  newline_at file m ->
  after_empty_line file (S m)
  <-> after_empty_line file m \/ leading file m.
Proof.
  intros Hm. split.
  - intros (a & b & Hab & Ha & Hb & Hk).
    destruct (Nat.eq_dec b m) as [->|Hne].
    + right. exists a. repeat split; [lia | exact Ha |].
      intros j Hj. apply Hk. lia.
    + left. exists a, b. repeat split; [lia | lia | exact Ha | exact Hb |].
      intros j Hj. apply Hk. lia.
  - intros [(a & b & Hab & Ha & Hb & Hk) | (a & Ha & Hn & Hk)].
    + exists a, b. repeat split; [lia | lia | exact Ha | exact Hb |].
      intros j Hj. destruct (Nat.eq_dec j m) as [->|];
        [now apply newline_is_blank | apply Hk; lia].
    + exists a, m. repeat split; [lia | lia | exact Hn | exact Hm |].
      intros j Hj. destruct (Nat.eq_dec j m) as [->|];
        [now apply newline_is_blank | apply Hk; lia].
Qed.

Lemma after_empty_line_other (m : nat) :
  ~ newline_at file m ->
  after_empty_line file (S m)
  <-> after_empty_line file m /\ blank_at file m.
Proof.
  intros Hm. split.
  - intros (a & b & Hab & Ha & Hb & Hk).
    destruct (Nat.eq_dec b m) as [->|Hne]; [contradiction|]. split.
    + exists a, b. repeat split; [lia | lia | exact Ha | exact Hb |].
      intros j Hj. apply Hk. lia.
    + apply Hk. lia.
  - intros [(a & b & Hab & Ha & Hb & Hk) Hbl].
    exists a, b. repeat split; [lia | lia | exact Ha | exact Hb |].
    intros j Hj. destruct (Nat.eq_dec j m) as [->|];
      [exact Hbl | apply Hk; lia].
Qed.

Lemma ender_before_newline (m : nat) :
  newline_at file m -> ~ ender_before file (S m).
Proof.
  intros Hm (j & Hj & Hk & _). apply (Hk m); [lia | exact Hm].
Qed.

Lemma ender_before_other (m : nat) :
  ~ newline_at file m ->
  ender_before file (S m)
  <-> ender_before file m \/ (marker_at file m /\ ~ leading file m).
Proof.
  intros Hm. split.
  - intros (j & Hj & Hk & Hmk & Hl).
    destruct (Nat.eq_dec j m) as [->|Hne]; [now right|]. left.
    exists j. split; [lia|]. split; [|now split].
    intros k Hjk. apply Hk. lia.
  - intros [(j & Hj & Hk & Hmk & Hl) | [Hmk Hl]].
    + exists j. split; [lia|]. split; [|now split].
      intros k Hjk. destruct (Nat.eq_dec k m) as [->|];
        [exact Hm | apply Hk; lia].
    + exists m. split; [lia|]. split; [|now split].
      intros k Hjk. replace k with m by lia. exact Hm.
Qed.
End Classifier.

Section Invariant.
Variable file : list byte.

Lemma recorded_ender_step (m : nat) (k : Z) :
  recorded_ender file (S m) k
  <-> recorded_ender file m k
      \/ (k = key m /\ marker_at file m /\ ~ leading file m
          /\ ~ ender_before file m).
Proof.
  split.
  - intros (i & Hi & H).
    destruct (Nat.eq_dec i m) as [->|]; [now right|].
    left. exists i. split; [lia | exact H].
  - intros [(i & Hi & H) | H].
    + exists i. split; [lia | exact H].
    + exists m. split; [lia | exact H].
Qed.

Lemma recorded_separ_step (m : nat) (k : Z) :
  recorded_separ file (S m) k
  <-> recorded_separ file m k
      \/ (k = key m /\ (marker_at file m \/ package_at file m)
          /\ after_empty_line file m).
Proof.
  split.
  - intros (i & Hi & H).
    destruct (Nat.eq_dec i m) as [->|]; [now right|].
    left. exists i. split; [lia | exact H].
  - intros [(i & Hi & H) | H].
    + exists i. split; [lia | exact H].
    + exists m. split; [lia | exact H].
Qed.

Variables (m : nat) (c d : byte).
Hypothesis Hc : file !! m = Some c.
Hypothesis Hd : file !! S m = Some d.

Lemma newline_at_spec : newline_at file m <-> Byte.eqb c "010" = true.
Proof.
  unfold newline_at. rewrite Hc, byte_eqb_true. split; congruence.
Qed.

Lemma blank_at_spec : blank_at file m <-> above_space c = false.
Proof.
  unfold blank_at. rewrite Hc. split.
  - intros (c' & E & H). congruence.
  - intros H. eauto.
Qed.

Lemma marker_at_spec : marker_at file m <-> is_marker c d = true.
Proof.
  unfold marker_at, is_marker. rewrite Hc, Hd.
  rewrite andb_true_iff, orb_true_iff, !byte_eqb_true.
  split; intros [H1 [H2|H2]]; split; try congruence;
    (left; congruence) || (right; congruence).
Qed.

Lemma package_at_spec : package_at file m <-> is_package c d = true.
Proof.
  unfold package_at, is_package. rewrite Hc, Hd.
  rewrite andb_true_iff, !byte_eqb_true.
  split; intros [H1 H2]; split; congruence.
Qed.

End Invariant.

Lemma LookupComments_upto_inv (file : list byte) (start : scan) (n : nat) :
  whitespace start = false -> cleanline start = false ->
  sawender start = false -> (n <= length file - 1)%nat ->
  (whitespace (LookupComments_upto file start n) = true
   <-> leading file n)
  /\ (cleanline (LookupComments_upto file start n) = true
      <-> after_empty_line file n)
  /\ (sawender (LookupComments_upto file start n) = true
      <-> ender_before file n)
  /\ (forall k, k ∈ Ender (LookupComments_upto file start n)
                <-> k ∈ Ender start \/ recorded_ender file n k)
  /\ (forall k, k ∈ Separ (LookupComments_upto file start n)
                <-> k ∈ Separ start \/ recorded_separ file n k).
Proof.
  intros Hw0 Hc0 Hs0. induction n as [|m IH]; intros Hn.
  - cbn. rewrite Hw0, Hc0, Hs0. repeat split; try discriminate.
    + intros (k & Hk & _). lia.
    + intros (a & b & Hk & _). lia.
    + intros (k & Hk & _). lia.
    + now left.
    + intros [H | (i & Hi & _)]; [exact H | lia].
    + now left.
    + intros [H | (i & Hi & _)]; [exact H | lia].
  - destruct IH as (IHw & IHc & IHs & IHe & IHp); [lia|].
    destruct (lookup_lt_is_Some_2 file m) as [c Hc]; [lia|].
    destruct (lookup_lt_is_Some_2 file (S m)) as [d Hd]; [lia|].
    cbn [LookupComments_upto]. rewrite Hc, Hd, LookupComments_turn_eq.
    set (st := LookupComments_upto file start m) in *.
    pose proof (newline_at_spec file m c Hc) as Nl.
    pose proof (blank_at_spec file m c Hc) as Bl.
    pose proof (marker_at_spec file m c d Hc Hd) as Mk.
    pose proof (package_at_spec file m c d Hc Hd) as Pk.
    pose proof (marker_not_newline c d) as Mn.
    pose proof (package_not_newline c d) as Pn.
    destruct (Byte.eqb c "010") eqn:En; cbn [whitespace cleanline sawender
                                               Ender Separ].
    + assert (Hnl : newline_at file m) by now apply Nl.
      split; [|split; [|split; [|split]]].
      * rewrite leading_step. tauto.
      * rewrite (after_empty_line_newline file m Hnl), orb_true_iff. tauto.
      * pose proof (ender_before_newline file m Hnl).
        split; [discriminate|tauto].
      * intros k. rewrite IHe, recorded_ender_step.
        destruct (is_marker c d); [now specialize (Mn eq_refl)|].
        intuition discriminate.
      * intros k. rewrite IHp, recorded_separ_step.
        destruct (is_marker c d); [now specialize (Mn eq_refl)|].
        destruct (is_package c d); [now specialize (Pn eq_refl)|].
        intuition discriminate.
    + assert (Hnl : ~ newline_at file m)
        by (intros H; apply Nl in H; discriminate).
      split; [|split; [|split; [|split]]].
      * rewrite leading_step, andb_true_iff, negb_true_iff. tauto.
      * rewrite (after_empty_line_other file m Hnl), andb_true_iff,
          negb_true_iff. tauto.
      * rewrite (ender_before_other file m Hnl), orb_true_iff,
          andb_true_iff, negb_true_iff.
        destruct (whitespace st); intuition discriminate.
      * intros k. rewrite recorded_ender_step.
        destruct (is_marker c d), (whitespace st), (sawender st);
          cbn [andb negb]; rewrite ?elem_of_union, ?elem_of_singleton, IHe;
          unfold key; intuition discriminate.
      * intros k. rewrite recorded_separ_step.
        destruct (is_marker c d), (is_package c d), (cleanline st);
          cbn [andb orb]; rewrite ?elem_of_union, ?elem_of_singleton, IHp;
          unfold key; intuition discriminate.
Qed.

(** In the words of the specification: [i] is not in leading whitespace
    exactly when content precedes it on its line or it stands on the
    first line. *)
Lemma content_before_step (file : list byte) (m : nat) (c : byte) :
  file !! m = Some c ->
  content_before file (S m)
  <-> above_space c = true
      \/ (content_before file m /\ ~ newline_at file m).
Proof.
  intros Hc. split.
  - intros (j & c' & Hj & Hj' & Ha & Hk).
    destruct (Nat.eq_dec j m) as [->|Hne]; [left; congruence|].
    right. split; [|apply Hk; lia].
    exists j, c'. repeat split; [lia | assumption.. |].
    intros k Hjk. apply Hk. lia.
  - intros [Ha | [(j & c' & Hj & Hj' & Ha & Hk) Hn]].
    + exists m, c. repeat split; [lia | assumption.. |]. intros k Hk. lia.
    + exists j, c'. repeat split; [lia | assumption.. |].
      intros k Hjk. destruct (Nat.eq_dec k m) as [->|];
        [exact Hn | apply Hk; lia].
Qed.

Lemma first_line_step (file : list byte) (m : nat) :
  first_line file (S m) <-> first_line file m /\ ~ newline_at file m.
Proof.
  unfold first_line. split.
  - intros H. split; [intros k Hk; apply H; lia | apply H; lia].
  - intros [H Hm] k Hk. destruct (Nat.eq_dec k m) as [->|];
      [exact Hm | apply H; lia].
Qed.

Lemma not_leading_iff (file : list byte) (i : nat) :
  (i <= length file)%nat ->
  ~ leading file i <-> content_before file i \/ first_line file i.
Proof.
  induction i as [|m IH]; intros Hi.
  - split.
    + intros _. right. intros k Hk. lia.
    + intros _ (k & Hk & _). lia.
  - destruct (lookup_lt_is_Some_2 file m) as [c Hc]; [lia|].
    specialize (IH ltac:(lia)).
    rewrite leading_step, (content_before_step file m c Hc),
      first_line_step.
    pose proof (newline_at_spec file m c Hc) as Nl.
    pose proof (blank_at_spec file m c Hc) as Bl.
    destruct (Byte.eqb c "010") eqn:En.
    + apply byte_eqb_true in En. subst c.
      assert (above_space "010" = false) by reflexivity.
      intuition congruence.
    + destruct (above_space c); intuition congruence.
Qed.

(** C5 (as amended). For every input and both sets as they were given:
    a comment marker at [i] is recorded in the first set, under the key
    (i+1)/2, when content that is not whitespace precedes it on its line,
    or it stands on the first line of the input, and no marker that was
    so recorded stands before it on the line; a comment marker, or the
    letters pa, at [i] is recorded in the second set, under the same key,
    when only whitespace lies between [i] and the second last line break
    before it; and the scan adds no other key to either set. *)
Theorem LookupComments_classifies (file : list byte) (E0 E1 : gset Z) :
  (forall i, (S i < length file)%nat -> marker_at file i ->
     content_before file i \/ first_line file i ->
     ~ ender_before file i ->
     key i ∈ fst (LookupComments file (E0, E1)))
  /\ (forall i, (S i < length file)%nat ->
     marker_at file i \/ package_at file i -> after_empty_line file i ->
     key i ∈ snd (LookupComments file (E0, E1)))
  /\ (forall k, k ∈ fst (LookupComments file (E0, E1)) ->
     k ∈ E0
     \/ exists i, (S i < length file)%nat /\ k = key i /\ marker_at file i
                  /\ (content_before file i \/ first_line file i)
                  /\ ~ ender_before file i)
  /\ (forall k, k ∈ snd (LookupComments file (E0, E1)) ->
     k ∈ E1
     \/ exists i, (S i < length file)%nat /\ k = key i
                  /\ (marker_at file i \/ package_at file i)
                  /\ after_empty_line file i).
Proof.
  unfold LookupComments. cbn [fst snd].
  set (start := {| whitespace := false; cleanline := false;
                   sawender := false; Ender := E0; Separ := E1 |}).
  destruct (LookupComments_upto_inv file start (length file - 1))
    as (_ & _ & _ & He & Hp); try reflexivity; try lia.
  split; [|split; [|split]].
  - intros i Hi Hm Hc Hs. apply He. right. exists i.
    repeat split; try assumption; try lia; try apply Hm.
    apply not_leading_iff; [lia | exact Hc].
  - intros i Hi Hm Ha. apply Hp. right. exists i.
    repeat split; try assumption; lia.
  - intros k Hk. apply He in Hk as [Hk | (i & Hi & -> & Hm & Hl & Hs)];
      [now left|].
    right. exists i. repeat split; try assumption; try lia; try apply Hm.
    apply not_leading_iff; [lia | exact Hl].
  - intros k Hk. apply Hp in Hk as [Hk | (i & Hi & -> & Hm & Ha)];
      [now left|].
    right. exists i. repeat split; try assumption; lia.
Qed.

Lemma LookupComments_classifies_witness :
  key 7 ∈ fst (LookupComments (list_byte_of_string "x := 1 // c") (∅, ∅)).
Proof.
  destruct (LookupComments_classifies
              (list_byte_of_string "x := 1 // c") ∅ ∅) as (H & _).
  apply H.
  - cbn. lia.
  - split; [reflexivity | left; reflexivity].
  - left. exists 0%nat, "x"%byte.
    repeat split; [lia|]. intros k Hk Hn.
    unfold newline_at in Hn.
    do 7 (destruct k as [|k]; [discriminate|]). lia.
  - intros (j & Hj & _ & [Hm _] & _).
    do 7 (destruct j as [|j]; [discriminate|]). lia.
Defined.

(** C5, as stated, fails. A comment at the very start of the input has
    nothing before it on its line and follows no empty line, and yet is
    recorded in the first set; a comment that is the first content of the
    second line, the first line being empty, is recorded in neither set;
    and the key recorded differs from the position. *)
Lemma first_line_comment_is_an_ender :
  (let file := list_byte_of_string "// x" in
   marker_at file 0 /\ ~ content_before file 0
   /\ ~ after_empty_line file 0
   /\ elements (fst (LookupComments file (∅, ∅))) = [0]
   /\ elements (snd (LookupComments file (∅, ∅))) = [])
  /\ (let file := ("010" :: list_byte_of_string "// x")%byte in
      marker_at file 1 /\ newline_at file 0
      /\ elements (fst (LookupComments file (∅, ∅))) = []
      /\ elements (snd (LookupComments file (∅, ∅))) = [])
  /\ (let file := list_byte_of_string "x := 1 // c" in
      marker_at file 7
      /\ elements (fst (LookupComments file (∅, ∅))) = [4]).
Proof.
  split; [|split]; cbv zeta.
  - split; [split; [reflexivity | left; reflexivity]|].
    split; [intros (j & c & Hj & _); lia|].
    split; [intros (a & b & Hab & _); lia|].
    split; vm_compute; reflexivity.
  - split; [split; [reflexivity | left; reflexivity]|].
    split; [reflexivity|].
    split; vm_compute; reflexivity.
  - split; [split; [reflexivity | left; reflexivity]|].
    vm_compute. reflexivity.
Qed.

(** ** [Which], by address *)

Lemma same_spec (p q : array * Z) : same p q = true <-> p = q.
Proof.
  unfold same. destruct p as [a o], q as [b o']. cbn.
  rewrite andb_true_iff, bool_decide_eq_true, Z.eqb_eq.
  split; [intros [-> ->]; reflexivity | intros [= -> ->]; auto].
Qed.

Lemma family_at_Some (p : array * Z) (f : family) :
  family_at p = Some f <-> p = family_addr f.
Proof.
  split; [|intros ->; apply family_at_addr].
  unfold family_at.
  repeat match goal with
         | |- context [same p ?q] =>
             let E := fresh "E" in
             destruct (same p q) eqn:E;
             [apply same_spec in E; intros [= <-]; exact E|]
         end.
  discriminate.
Qed.

Lemma family_at_None (p : array * Z) :
  family_at p = None <-> forall f, p <> family_addr f.
Proof.
  split.
  - intros H f E. apply family_at_Some in E. congruence.
  - intros H. destruct (family_at p) as [f|] eqn:E; [|reflexivity].
    apply family_at_Some in E. now elim (H f).
Qed.

(** X2. [Which] decides by the address of the first byte alone. It panics
    exactly on a record that is not nil and has no bytes; it returns a
    family exactly for a record that starts where the variable of that
    family starts, and nil for a record that starts where no family does.
    No two families start at the same byte, though six share one array,
    so the order of the comparisons in [Which] plays no part. *)
Theorem Which_decides_by_address (s : slice) :
  (Which (Some s) = Panic IndexOutOfRange <-> bytes s = EmptyString)
  /\ (forall f, Which (Some s) = Ret (Some f)
                <-> bytes s <> EmptyString
                    /\ (arr s, off s) = family_addr f)
  /\ (Which (Some s) = Ret None
      <-> bytes s <> EmptyString
          /\ forall f, (arr s, off s) <> family_addr f)
  /\ (forall f g, family_addr f = family_addr g -> f = g).
Proof.
  assert (L : (len (Some s) =? 0) = true <-> bytes s = EmptyString).
  { rewrite Z.eqb_eq. unfold len. destruct (bytes s); cbn; [tauto|].
    split; [lia | discriminate]. }
  unfold Which, addr0. destruct (len (Some s) =? 0).
  - assert (bytes s = EmptyString) by now apply L.
    repeat split; try discriminate; try tauto; try (intros [? _]; tauto).
    intros f g E. apply family_at_Some in E. rewrite family_at_addr in E.
    congruence.
  - assert (bytes s <> EmptyString) by (intros E; apply L in E; discriminate).
    split; [split; [discriminate | tauto]|].
    split; [|split].
    + intros f. rewrite <- family_at_Some. split.
      * intros [= E]. auto.
      * intros [_ ->]. reflexivity.
    + rewrite <- family_at_None. split.
      * intros [= E]. auto.
      * intros [_ ->]. reflexivity.
    + intros f g E. apply family_at_Some in E. rewrite family_at_addr in E.
      congruence.
Qed.

(** ** Numerals *)

Lemma range_In (n : nat) :
  forall i j, i <= j < i + Z.of_nat n -> In j (range i n).
Proof.
  induction n as [|n IH]; intros i j H; [lia|]. cbn.
  destruct (Z.eq_dec i j) as [->|]; [now left|]. right. apply IH. lia.
Qed.

(** X3. [itoA] prints a number from 0 to 9999 as its decimal numeral,
    without leading zeros, and every number above 9999 as the word
    [many]. *)
Theorem itoA_decimal (n : Z) :
  (0 <= n <= 9999 -> itoA n = decimal n)
  /\ (9999 < n -> itoA n = "many").
Proof.
  split.
  - intros H.
    assert (A : forallb (fun k => String.eqb (itoA k) (decimal k))
                  (range 0 (Z.to_nat 10000)) = true)
      by (vm_compute; reflexivity).
    rewrite forallb_forall in A. apply String.eqb_eq, A, range_In.
    rewrite Z2Nat.id; lia.
  - intros H. unfold itoA. now replace (9999 <? n) with true by lia.
Qed.

Lemma itoA_decimal_witness : itoA 120 = "120" /\ itoA 10000 = "many".
Proof.
  split.
  - apply (proj1 (itoA_decimal 120)). lia.
  - apply (proj2 (itoA_decimal 10000)). lia.
Defined.

(** ** The dump *)

Lemma Dump_S (fuel : nat) (iterator pad : Z) :
  Dump (S fuel) iterator pad
  = (let pad := if 50 <? pad then 50 else pad in
     ok <- Dump_line iterator pad ;;
     if negb ok then ret false
     else Dump_loop (Dump fuel) fuel iterator pad 0).
Proof. reflexivity. Qed.

Lemma Dump_loop_S (visit : Z -> Z -> M bool) (fuel : nat)
    (iterator pad i : Z) :
  Dump_loop visit (S fuel) iterator pad i
  = (ok <- visit (add64 (O iterator) i) (int_add pad 1) ;;
     if negb ok then ret true
     else Dump_loop visit fuel iterator pad (add64 i 1)).
Proof. reflexivity. Qed.

Arguments Dump : simpl never.
Arguments Dump_loop : simpl never.
Arguments Dump_line : simpl never.
Arguments Dump_family : simpl never.

Lemma emits_Dump_line (iterator pad : Z) : emits (Dump_line iterator pad).
Proof. unfold Dump_line, Dump_family. emits_auto. Qed.

Lemma emits_Dump_loop (visit : Z -> Z -> M bool) :
  (forall a p, emits (visit a p)) ->
  forall fuel iterator pad i, emits (Dump_loop visit fuel iterator pad i).
Proof.
  intros Hv fuel. induction fuel as [|fuel IH]; intros iterator pad i.
  - apply emits_lift.
  - rewrite Dump_loop_S. emits_auto; auto.
Qed.

Lemma emits_Dump (fuel : nat) :
  forall iterator pad, emits (Dump fuel iterator pad).
Proof.
  induction fuel as [|fuel IH]; intros iterator pad.
  - apply emits_lift.
  - rewrite Dump_S. cbv zeta.
    apply emits_bind; [apply emits_Dump_line | intros ok].
    destruct ok; cbn [negb]; [|apply emits_ret].
    apply emits_Dump_loop. exact IH.
Qed.

(** The switch on the length of the family variable prints the name of
    the variable. *)
Lemma Dump_family_eq (f : family) : Dump_family f = print (identifier f).
Proof. destruct f; reflexivity. Qed.

Lemma Dump_line_ok (iterator pad : Z) (w : world) (b : bool) :
  fst (Dump_line iterator pad w) = Ret b -> b = present (ast w) iterator.
Proof.
  unfold Dump_line, bind, lift, Poke, index, print, ret, present, is_nil.
  destruct (upto Dump_blanks pad) as [indent|e|]; cbn; try discriminate.
  destruct (ast w !! iterator) as [[s|]|]; cbn; try congruence.
  destruct (Which (Some s)) as [[f|]|e|]; cbn; try congruence.
  rewrite Dump_family_eq. unfold print. cbn. congruence.
Qed.

Lemma Dump_loop_true (visit : Z -> Z -> M bool) (fuel : nat) :
  forall iterator pad i w b,
    fst (Dump_loop visit fuel iterator pad i w) = Ret b -> b = true.
Proof.
  induction fuel as [|fuel IH]; intros iterator pad i w b.
  - discriminate.
  - rewrite Dump_loop_S. unfold bind.
    destruct (visit _ _ w) as [[[]|e|] w1]; cbn; try discriminate.
    + apply IH.
    + congruence.
Qed.

(** [Dump] returns false exactly for a key that is absent. *)
Lemma Dump_ok (fuel : nat) (iterator pad : Z) (w : world)
    (b : bool) :
  fst (Dump fuel iterator pad w) = Ret b -> b = present (ast w) iterator.
Proof.
  destruct fuel as [|fuel]; [discriminate|]. rewrite Dump_S. cbv zeta.
  unfold bind.
  pose proof (Dump_line_ok iterator (if 50 <? pad then 50 else pad) w) as L.
  pose proof (emits_ast (Dump_line iterator (if 50 <? pad then 50 else pad))
                w (emits_Dump_line _ _)) as A.
  destruct (Dump_line _ _ w) as [[ok|e|] w1]; cbn in *; try discriminate.
  specialize (L ok eq_refl). destruct ok; cbn.
  - intros H. apply Dump_loop_true in H. congruence.
  - congruence.
Qed.

(** [bind] of one computation with two continuations that agree on the
    values it can return. *)
Lemma agree_bind_when {A B : Type} s (P : A -> Prop) (m : M A)
    (k k' : A -> M B) :
  emits m ->
  (forall w a, ast w = s -> fst (m w) = Ret a -> P a) ->
  (forall a, P a -> agree s (k a) (k' a)) ->
  agree s (bind m k) (bind m k').
Proof.
  intros Hm HP Hk w Hw. unfold bind.
  pose proof (emits_ast m w Hm) as Hs. pose proof (HP w) as HP'.
  destruct (m w) as [[a|e|] w1]; try reflexivity.
  apply Hk; [now apply HP' | cbn in Hs; congruence].
Qed.

(** The loop calls [visit] on the children of the run in order and once
    more on the first absent key. *)
Lemma Dump_loop_run s (visit : Z -> Z -> M bool) (iterator pad : Z) :
  (forall a p, emits (visit a p)) ->
  (forall a p w b, ast w = s -> fst (visit a p w) = Ret b ->
     b = present s a) ->
  forall n i fuel,
    0 <= i -> i + Z.of_nat n < uint64big ->
    forallb (fun j => present s (add64 (O iterator) j)) (range i n) = true ->
    present s (add64 (O iterator) (i + Z.of_nat n)) = false ->
    (n < fuel)%nat ->
    agree s (Dump_loop visit fuel iterator pad i)
      (for_each (range i n)
         (fun j => visit (add64 (O iterator) j) (int_add pad 1) ;; ret tt) ;;
       visit (add64 (O iterator) (i + Z.of_nat n)) (int_add pad 1) ;;
       ret true).
Proof.
  intros Hv Hok n.
  induction n as [|n IH]; intros i fuel Hi Hb Hp Hq Hf w Hw;
    (destruct fuel as [|fuel]; [lia|]); rewrite Dump_loop_S.
  - cbn [range for_each]. rewrite Z.add_0_r in *.
    unfold bind, ret. pose proof (Hok (add64 (O iterator) i)
                                    (int_add pad 1) w) as Hb'.
    destruct (visit (add64 (O iterator) i) (int_add pad 1) w)
      as [[ok|e|] w1]; cbn in *; try reflexivity.
    rewrite (Hb' ok Hw eq_refl), Hq. reflexivity.
  - cbn [range for_each forallb] in *.
    apply andb_prop in Hp as [Hp1 Hp2].
    pose proof (Hok (add64 (O iterator) i) (int_add pad 1) w) as Hb'.
    pose proof (emits_ast (visit (add64 (O iterator) i) (int_add pad 1)) w
                  (Hv _ _)) as Hs1.
    unfold bind.
    destruct (visit (add64 (O iterator) i) (int_add pad 1) w)
      as [[ok|e|] w1]; cbn in Hs1, Hb' |- *; try reflexivity.
    rewrite (Hb' ok Hw eq_refl), Hp1. cbn [negb].
    rewrite add64_small by (unfold uint64big in *; lia).
    replace (i + Z.of_nat (S n)) with (i + 1 + Z.of_nat n) in * by lia.
    rewrite (IH (i + 1) fuel); try lia; try assumption; try congruence.
    reflexivity.
Qed.

Lemma Dump_run s (fuel n : nat) (iterator pad : Z) :
  present s iterator = true ->
  child_run s iterator n = true -> (n < fuel)%nat ->
  agree s (Dump (S fuel) iterator pad)
    (let pad := if 50 <? pad then 50 else pad in
     Dump_line iterator pad ;;
     for_each (indices n)
       (fun i => Dump fuel (add64 (O iterator) i) (int_add pad 1) ;;
                 ret tt) ;;
     Dump fuel (add64 (O iterator) (Z.of_nat n)) (int_add pad 1) ;;
     ret true).
Proof.
  intros Hp H Hf. apply child_run_spec in H as (H1 & H2 & H3).
  rewrite Dump_S. cbv zeta.
  apply agree_bind_when with (P := fun ok => ok = true).
  - apply emits_Dump_line.
  - intros w ok <- Hr. apply Dump_line_ok in Hr. congruence.
  - intros ok ->. cbn [negb].
    apply (Dump_loop_run s); try assumption; try lia.
    + intros a p. apply emits_Dump.
    + intros a p w0 b <-. apply Dump_ok.
Qed.

Lemma int_add_small (a b : Z) :
  0 <= a + b < 2 ^ 63 -> int_add a b = a + b.
Proof.
  intros H. unfold int_add, to_int. rewrite wrap64_small by lia.
  destruct (a + b <? 2 ^ 63) eqn:E; lia.
Qed.

Lemma upto_blanks (p : Z) :
  0 <= p <= 54 -> upto Dump_blanks p = Ret (blanks (Z.to_nat p)).
Proof.
  intros H. unfold upto.
  replace ((0 <=? p) && (p <=? Z.of_nat (String.length Dump_blanks)))
    with true
    by (symmetry; apply andb_true_iff; split; apply Z.leb_le; cbn; lia).
  f_equal. assert (K : (Z.to_nat p <= 54)%nat) by lia.
  revert K. generalize (Z.to_nat p). intros k K.
  do 55 (destruct k as [|k]; [reflexivity|]). lia.
Qed.

Lemma upto_negative (s : string) (p : Z) :
  p < 0 -> upto s p = Panic SliceBounds.
Proof.
  intros H. unfold upto. now replace (0 <=? p) with false by lia.
Qed.

(** The indentation of a call with [pad]: at most fifty blanks. *)
Lemma Dump_indent (pad : Z) :
  0 <= pad ->
  upto Dump_blanks (if 50 <? pad then 50 else pad)
  = Ret (blanks (Z.to_nat (Z.min pad 50))).
Proof.
  intros H. destruct (50 <? pad) eqn:E.
  - rewrite Z.min_r by lia. now apply upto_blanks.
  - rewrite Z.min_l by lia. apply upto_blanks. lia.
Qed.

Lemma Dump_absent (fuel : nat) (iterator pad : Z) (w : world) :
  ast w !! iterator = None -> 0 <= pad ->
  Dump (S fuel) iterator pad w
  = (Ret false,
     out w [blanks (Z.to_nat (Z.min pad 50)); "[-]"; EmptyString]).
Proof.
  intros H Hp. rewrite Dump_S. cbv zeta.
  unfold Dump_line, bind, lift. rewrite (Dump_indent pad Hp).
  unfold print, Poke, index, present, ret, out. cbn. rewrite H. cbn.
  now rewrite <- !app_assoc.
Qed.

(** The line of a record and the end marker of its empty run. *)
Lemma Dump_childless (fuel : nat) (iterator pad : Z) (w : world)
    (l : list string) :
  0 <= pad -> ast w !! O iterator = None ->
  Dump_line iterator (if 50 <? pad then 50 else pad) w
  = (Ret true, out w (blanks (Z.to_nat (Z.min pad 50)) :: l)) ->
  Dump (S (S fuel)) iterator pad w
  = (Ret true,
     out w (blanks (Z.to_nat (Z.min pad 50)) :: l
            ++ [blanks (Z.to_nat (Z.min (Z.min pad 50 + 1) 50));
                "[-]"; EmptyString])).
Proof.
  intros Hp Hc Hl. rewrite Dump_S. cbv zeta. unfold bind at 1.
  rewrite Hl. cbn [negb]. rewrite Dump_loop_S. unfold bind at 1.
  rewrite add64_O_0.
  replace (int_add (if 50 <? pad then 50 else pad) 1)
    with (Z.min pad 50 + 1)
    by (rewrite int_add_small; destruct (50 <? pad) eqn:E; lia).
  rewrite Dump_absent by (trivial; lia). cbn [negb].
  unfold ret, out. cbn. f_equal. f_equal.
  now rewrite <- !app_assoc.
Qed.

(** X4. [Dump] returns false exactly for a key that is absent, and then
    prints no more than the indentation, the mark [-] and a line break:
    the keys behind an absent one are not looked at. *)
Theorem Dump_returns_false_when_absent (fuel : nat) (iterator pad : Z)
    (w : world) :
  (forall b, fst (Dump fuel iterator pad w) = Ret b ->
     b = present (ast w) iterator)
  /\ (ast w !! iterator = None -> 0 <= pad ->
      Dump (S fuel) iterator pad w
      = (Ret false,
         out w [blanks (Z.to_nat (Z.min pad 50)); "[-]"; EmptyString])).
Proof.
  split; [intros b; apply Dump_ok | apply Dump_absent].
Qed.

Lemma Dump_returns_false_when_absent_witness :
  Dump 1 7 3 {| ast := call_store; printed := [] |}
  = (Ret false,
     {| ast := call_store; printed := ["   "; "[-]"; EmptyString] |}).
Proof.
  apply (Dump_returns_false_when_absent 0 7 3
           {| ast := call_store; printed := [] |});
    [vm_compute; reflexivity | lia].
Defined.

(** X5. With the first [n] keys from O(a) present and the next one absent,
    [Dump] at a present key [a] prints the line of [a], calls itself on
    O(a)+0, .., O(a)+n-1 in this order with the indentation one deeper,
    and once more on the absent key O(a)+n, which prints the end mark;
    then it returns true. An indentation above fifty counts as fifty. *)
Theorem Dump_visits_the_child_run (fuel n : nat) (iterator pad : Z)
    (w : world) :
  present (ast w) iterator = true ->
  child_run (ast w) iterator n = true -> (n < fuel)%nat ->
  Dump (S fuel) iterator pad w
  = (let pad := if 50 <? pad then 50 else pad in
     Dump_line iterator pad ;;
     for_each (indices n)
       (fun i => Dump fuel (add64 (O iterator) i) (int_add pad 1) ;;
                 ret tt) ;;
     Dump fuel (add64 (O iterator) (Z.of_nat n)) (int_add pad 1) ;;
     ret true) w.
Proof.
  intros Hp H Hf. now apply (Dump_run (ast w) fuel n).
Qed.

Lemma Dump_visits_the_child_run_witness :
  Dump 4 0 0 {| ast := omitted_store; printed := [] |}
  = (Ret true,
     {| ast := omitted_store;
        printed := [EmptyString; " ["; "BlocOfCode"; " "; "0"; " "; "12";
                    "]"; EmptyString;
                    " "; " [nil]"; EmptyString;
                    "  "; "[-]"; EmptyString;
                    " "; " ["; "BranchStmt"; " "; "1"; " "; "9"; "]";
                    EmptyString;
                    "  "; "[-]"; EmptyString;
                    " "; "[-]"; EmptyString] |}).
Proof.
  rewrite (Dump_visits_the_child_run 3 2 0 0
             {| ast := omitted_store; printed := [] |});
    [vm_compute; reflexivity | vm_compute; reflexivity
    | vm_compute; reflexivity | lia].
Defined.

(** X6. The line [Dump] prints for a record without children: the
    indentation, then for a node of a family the name of the family's
    variable, the variant and the capacity less one as decimal numerals
    ([many] above 9999); for a leaf, its text; for nil, the word nil; then
    the end mark of the empty run, one blank deeper. *)
Theorem Dump_describes_the_record (fuel : nat) (iterator pad : Z)
    (w : world) :
  0 <= pad -> ast w !! O iterator = None ->
  let indent := blanks (Z.to_nat (Z.min pad 50)) in
  let fin := [blanks (Z.to_nat (Z.min (Z.min pad 50 + 1) 50));
              "[-]"; EmptyString] in
  (forall node f,
     ast w !! iterator = Some (Some node) ->
     (arr node, off node) = family_addr f -> 0 < len (Some node) ->
     Dump (2 + fuel) iterator pad w
     = (Ret true,
        out w ([indent; " ["; identifier f; " ";
                itoA (len (Some node) - 1); " ";
                itoA (cap (Some node) - 1); "]"; EmptyString] ++ fin)))
  /\ (forall x,
        ast w !! iterator = Some x -> textual x = true ->
        Dump (2 + fuel) iterator pad w
        = (Ret true,
           out w ([indent; " [string " ++ text x ++ "]"; EmptyString]
                  ++ fin)))
  /\ (ast w !! iterator = Some None ->
      Dump (2 + fuel) iterator pad w
      = (Ret true, out w ([indent; " [nil]"; EmptyString] ++ fin))).
Proof.
  intros Hp Hc indent fin. split; [|split].
  - intros node f Hn Ha Hl.
    apply (Dump_childless fuel iterator pad w); try assumption.
    unfold Dump_line, bind, lift. rewrite (Dump_indent pad Hp).
    unfold print at 1, Poke, index, present. cbn [ast]. rewrite Hn.
    cbn [negb from_option id]. unfold is_nil.
    rewrite (Which_family f) by easy. rewrite Dump_family_eq.
    unfold print, ret, out. cbn.
    now rewrite <- !app_assoc.
  - intros x Hx Ht.
    apply (Dump_childless fuel iterator pad w); try assumption.
    destruct (Which_textual x Ht) as [Hw _].
    destruct (textual_addr0 x Ht) as [Hnil _].
    unfold Dump_line, bind, lift. rewrite (Dump_indent pad Hp).
    unfold print at 1, Poke, index, present. cbn [ast]. rewrite Hx.
    cbn [negb from_option id]. rewrite Hnil, Hw.
    unfold print, ret, out. cbn.
    now rewrite <- !app_assoc.
  - intros Hx.
    apply (Dump_childless fuel iterator pad w); try assumption.
    unfold Dump_line, bind, lift. rewrite (Dump_indent pad Hp).
    unfold print, Poke, index, present, ret, out, is_nil. cbn.
    rewrite Hx. cbn.
    now rewrite <- !app_assoc.
Qed.

Lemma Dump_describes_the_record_witness :
  Dump 2 (O 0) 1 {| ast := call_store; printed := [] |}
  = (Ret true,
     {| ast := call_store;
        printed := [" "; " [string f]"; EmptyString;
                    "  "; "[-]"; EmptyString] |}).
Proof.
  apply (proj1 (proj2 (Dump_describes_the_record 0 (O 0) 1
                         {| ast := call_store; printed := [] |}
                         ltac:(lia) ltac:(vm_compute; reflexivity)))
           (leaf 1 "f"));
    vm_compute; reflexivity.
Defined.

(** X7. [Dump] panics on a negative indentation, before it prints, with a
    slice bound out of range; and, like [Code], at a record that is not
    nil and has no bytes, with an index out of range, after the
    indentation. *)
Theorem Dump_panics (fuel : nat) (iterator pad : Z) (w : world) :
  (pad < 0 -> Dump (S fuel) iterator pad w = (Panic SliceBounds, w))
  /\ (forall s, ast w !! iterator = Some (Some s) ->
        bytes s = EmptyString -> 0 <= pad ->
        Dump (S fuel) iterator pad w
        = (Panic IndexOutOfRange,
           out w [blanks (Z.to_nat (Z.min pad 50))])).
Proof.
  split.
  - intros H. rewrite Dump_S. cbv zeta.
    replace (50 <? pad) with false by lia.
    unfold Dump_line, bind, lift. now rewrite upto_negative.
  - intros s Hs Hb Hp. rewrite Dump_S. cbv zeta.
    unfold Dump_line, bind, lift. rewrite (Dump_indent pad Hp).
    unfold print, Poke, index, present, is_nil. cbn. rewrite Hs. cbn.
    unfold Which, addr0, len. rewrite Hb. reflexivity.
Qed.

Lemma Dump_panics_witness :
  Dump 1 0 (-1) {| ast := broken_store; printed := [] |}
  = (Panic SliceBounds, {| ast := broken_store; printed := [] |})
  /\ Dump 1 (add64 (O 0) 0) 2 {| ast := broken_store; printed := [] |}
     = (Panic IndexOutOfRange,
        {| ast := broken_store; printed := ["  "] |}).
Proof.
  split.
  - apply (Dump_panics 0 0 (-1) {| ast := broken_store; printed := [] |}).
    lia.
  - apply (proj2 (Dump_panics 0 (add64 (O 0) 0) 2
                    {| ast := broken_store; printed := [] |})
             {| arr := foreign 1; off := 0; bytes := EmptyString;
                capacity := 0 |});
      [vm_compute; reflexivity | reflexivity | lia].
Defined.

(** ** Computations that return *)

Lemma returns_ret {A : Type} s (a : A) : returns s (ret a).
Proof.
  intros w _. exists a, []. unfold ret, out.
  now rewrite app_nil_r, world_eta.
Qed.

Lemma returns_print s (t : string) : returns s (print t).
Proof. intros w _. exists tt, [t]. reflexivity. Qed.

Lemma returns_Poke s (key : Z) : returns s (Poke key).
Proof.
  intros w _. exists (present (ast w) key), [].
  unfold Poke, out. now rewrite app_nil_r, world_eta.
Qed.

Lemma returns_bind {A B : Type} s (m : M A) (k : A -> M B) :
  returns s m -> (forall a, returns s (k a)) -> returns s (bind m k).
Proof.
  intros Hm Hk w Hw. destruct (Hm w Hw) as (a & l & E).
  destruct (Hk a (out w l) Hw) as (b & l' & E').
  exists b, (l ++ l')%list. unfold bind. rewrite E, E'.
  unfold out. cbn. now rewrite app_assoc.
Qed.

Lemma returns_index_bind {A : Type} s (key : Z) (k : byteslice -> M A) :
  returns s (k (default None (s !! key))) -> returns s (bind (index key) k).
Proof. intros H w Hw. unfold bind, index. rewrite Hw. now apply H. Qed.

Lemma returns_lift_bind {A B : Type} s (r : res A) (k : A -> M B) :
  (exists a, r = Ret a) -> (forall a, returns s (k a)) ->
  returns s (bind (lift r) k).
Proof. intros [a ->] H w Hw. unfold bind, lift. now apply H. Qed.

Lemma returns_when s (b : bool) (m : M unit) :
  returns s m -> returns s (when b m).
Proof. destruct b; [trivial | intros _; apply returns_ret]. Qed.

Lemma returns_switch {A : Type} s (x : Z) (cases : list (list Z * M A))
    (d : M A) :
  Forall (fun c => returns s (snd c)) cases -> returns s d ->
  returns s (switch x cases d).
Proof.
  intros Hc Hd. induction Hc as [|[ks a] rest Ha _ IH]; cbn; [exact Hd|].
  destruct (existsb (Z.eqb x) ks); [exact Ha | exact IH].
Qed.

Lemma returns_for_each {A : Type} s (l : list A) (f : A -> M unit) :
  (forall x, In x l -> returns s (f x)) -> returns s (for_each l f).
Proof.
  induction l as [|x l IH]; intros H; cbn; [apply returns_ret|].
  apply returns_bind; [apply H; now left | intros _].
  apply IH. intros y Hy. apply H. now right.
Qed.

Lemma returns_agree {A : Type} s (m m' : M A) :
  agree s m m' -> returns s m' -> returns s m.
Proof. intros H H' w Hw. rewrite (H w Hw). now apply H'. Qed.

Lemma sound_lookup s (key : Z) :
  wellformed s = true -> sound (default None (s !! key)).
Proof.
  intros H r E. destruct (s !! key) as [x|] eqn:L; cbn in E; [|discriminate].
  subst x. unfold wellformed in H. rewrite forallb_forall in H.
  assert (I : In (key, Some r) (map_to_list s))
    by (apply list_elem_of_In, elem_of_map_to_list; exact L).
  specialize (H _ I). cbn in H. unfold is_nil, len in H. cbn in H.
  intros Eb. rewrite Eb in H. discriminate.
Qed.

Lemma addr0_sound (r : slice) :
  sound (Some r) -> exists p, addr0 (Some r) = Ret p.
Proof.
  intros H. specialize (H r eq_refl). unfold addr0, len.
  destruct (bytes r); [contradiction|]. cbn. eauto.
Qed.

Lemma heads_sound (f : family) (x : byteslice) :
  sound x ->
  (exists b, nil_or x (heads f x) = Ret b)
  /\ (exists b, nonnil_and x (heads f x) = Ret b)
  /\ (exists b, nil_or x (differs f x) = Ret b)
  /\ (exists b, nonnil_and x (differs f x) = Ret b)
  /\ (exists t, Which x = Ret t).
Proof.
  intros H. unfold nil_or, nonnil_and, heads, differs, Which, is_nil.
  destruct x as [r|]; [|repeat split; eauto].
  destruct (addr0_sound r H) as [p ->]. repeat split; eauto.
Qed.

Ltac returns_pure :=
  match goal with
  | H : sound ?x |- exists b, nil_or ?x (heads ?f ?x) = Ret b =>
      exact (proj1 (heads_sound f x H))
  | H : sound ?x |- exists b, nonnil_and ?x (heads ?f ?x) = Ret b =>
      exact (proj1 (proj2 (heads_sound f x H)))
  | H : sound ?x |- exists b, nil_or ?x (differs ?f ?x) = Ret b =>
      exact (proj1 (proj2 (proj2 (heads_sound f x H))))
  | H : sound ?x |- exists b, nonnil_and ?x (differs ?f ?x) = Ret b =>
      exact (proj1 (proj2 (proj2 (proj2 (heads_sound f x H)))))
  | H : sound ?x |- exists t, Which ?x = Ret t =>
      exact (proj2 (proj2 (proj2 (proj2 (heads_sound RootMatter x H)))))
  | H : sound (Some ?r) |- exists p, addr0 (Some ?r) = Ret p =>
      exact (addr0_sound r H)
  end.

Ltac returns_step :=
  first
    [ apply returns_ret | apply returns_print | apply returns_Poke
    | match goal with
      | H : wellformed ?s = true |- returns ?s (bind (index ?k) _) =>
          apply returns_index_bind;
          generalize (sound_lookup s k H);
          generalize (default None (s !! k)); intros ? ?
      | |- returns _ (bind (lift _) _) =>
          apply returns_lift_bind; [returns_pure | intros ?]
      | |- returns _ (if is_nil ?x then _ else _) =>
          destruct x; unfold is_nil; cbv iota
      end
    | apply returns_bind; [ | intros ? ]
    | apply returns_when
    | apply returns_switch
    | match goal with
      | |- Forall _ _ => constructor; cbn [snd]
      | |- returns _ (if ?b then _ else _) => destruct b
      | |- returns _ (match ?x with _ => _ end) => destruct x
      end ].

Ltac returns_auto := cbv zeta; repeat returns_step.

Lemma returns_Code_open s (t : string) (iterator parent : Z) :
  wellformed s = true -> returns s (Code_open t iterator parent).
Proof.
  intros Hs.
  unfold Code_open, open_switch, open_BlocOfCode, introducer,
    open_Expression.
  returns_auto.
Qed.

Lemma returns_Code_each s (t : string) (iterator i : Z) :
  wellformed s = true -> returns s (Code_each t iterator i).
Proof.
  intros Hs.
  unfold Code_each, each_switch, each_ToplevFunc, each_TypedIdent,
    each_BlocOfCode,
    each_Expression, each_AssignStmt, each_VarDefStmt, each_FileMatter,
    each_ClosureExp, each_IfceMethod.
  returns_auto.
Qed.

(** ** Finite trees *)

Lemma run_length_spec s (a : Z) (b : nat) :
  forall i n, run_length s a b i = Some n ->
    (n < b)%nat
    /\ forallb (fun j => present s (add64 (O a) j)) (range i n) = true
    /\ present s (add64 (O a) (i + Z.of_nat n)) = false.
Proof.
  induction b as [|b IH]; intros i n H; cbn in H; [discriminate|].
  destruct (present s (add64 (O a) i)) eqn:E.
  - destruct (run_length s a b (i + 1)) as [m|] eqn:R; [|discriminate].
    injection H as <-. destruct (IH _ _ R) as (H1 & H2 & H3).
    split; [lia|]. cbn [range forallb]. rewrite E, H2.
    split; [reflexivity|].
    now replace (i + Z.of_nat (S m)) with (i + 1 + Z.of_nat m) by lia.
  - injection H as <-. cbn. rewrite Z.add_0_r. split; [lia | auto].
Qed.

Lemma finite_S s (h : nat) (a : Z) :
  finite s (S h) a = true ->
  exists n, (n < h)%nat /\ child_run s a n = true
            /\ forall i, In i (indices n) ->
                 finite s h (add64 (O a) i) = true.
Proof.
  cbn [finite]. destruct (run_length s a h 0) as [n|] eqn:R;
    [|discriminate].
  intros H. apply andb_prop in H as [Hn Hc].
  destruct (run_length_spec s a h 0 n R) as (H1 & H2 & H3).
  exists n. split; [exact H1|]. split.
  - unfold child_run, indices. rewrite Z.add_0_l in H3. rewrite H2, H3.
    now rewrite Hn.
  - intros i Hi. rewrite forallb_forall in Hc. now apply Hc.
Qed.

Lemma returns_Code s (h : nat) :
  wellformed s = true ->
  forall a p, finite s h a = true -> returns s (Code h a p).
Proof.
  intros Hs. induction h as [|h IH]; intros a p H; [discriminate|].
  apply finite_S in H as (n & Hn & Hr & Hc).
  apply (returns_agree s _ _ (Code_run s h n a p Hr Hn)).
  returns_step.
  apply returns_bind; [now apply returns_Code_open | intros _].
  apply returns_bind; [|intros _; now apply returns_Code_each].
  apply returns_for_each. intros i Hi.
  apply returns_bind; [apply IH; now apply Hc | intros _].
  now apply returns_Code_each.
Qed.

Lemma returns_Dump_line s (iterator pad : Z) :
  wellformed s = true -> 0 <= pad <= 54 ->
  returns s (Dump_line iterator pad).
Proof.
  intros Hs Hp. unfold Dump_line. rewrite (upto_blanks pad Hp).
  apply returns_lift_bind; [eauto | intros indent].
  apply returns_bind; [apply returns_print | intros _].
  apply returns_bind; [apply returns_Poke | intros ok].
  unfold Dump_family. returns_auto.
Qed.

Lemma returns_Dump s (h : nat) :
  wellformed s = true ->
  forall a pad, finite s h a = true -> 0 <= pad ->
    returns s (Dump h a pad).
Proof.
  intros Hs. induction h as [|h IH]; intros a pad H Hp; [discriminate|].
  apply finite_S in H as (n & Hn & Hr & Hc).
  assert (Hq : 0 <= (if 50 <? pad then 50 else pad) <= 54)
    by (destruct (50 <? pad) eqn:E; lia).
  assert (Hq' : 0 <= int_add (if 50 <? pad then 50 else pad) 1)
    by (rewrite int_add_small; lia).
  destruct (present s a) eqn:Pa.
  - apply (returns_agree s _ _ (Dump_run s h n a pad Pa Hr Hn)). cbv zeta.
    apply returns_bind; [now apply returns_Dump_line | intros _].
    apply returns_bind.
    + apply returns_for_each. intros i Hi.
      apply returns_bind; [|intros _; apply returns_ret].
      apply IH; [now apply Hc | exact Hq'].
    + intros _. apply returns_bind; [|intros _; apply returns_ret].
      destruct h as [|h]; [lia|].
      intros w Hw. exists false. eexists.
      apply Dump_absent; [|exact Hq'].
      apply child_run_spec in Hr as (_ & Hr & _). subst s.
      unfold present in Hr. now destruct (ast w !! _).
  - intros w Hw. exists false. eexists. apply Dump_absent; [|exact Hp].
    subst s. unfold present in Pa. now destruct (ast w !! a).
Qed.

(** X8. On a store in which no record is empty, a tree that is finite is
    rendered to the end: [Code] returns, without a panic, with fuel [h] for
    a tree whose runs and paths are shorter than [h]; and [Dump] returns
    likewise, with the presence of the key, for an indentation that is not
    negative. *)
Theorem finite_trees_are_rendered (h : nat) (iterator : Z) (w : world) :
  wellformed (ast w) = true -> finite (ast w) h iterator = true ->
  (forall parent, exists l,
     Code h iterator parent w = (Ret tt, out w l))
  /\ (forall pad, 0 <= pad -> exists l,
        Dump h iterator pad w
        = (Ret (present (ast w) iterator), out w l)).
Proof.
  intros Hs Hf. split.
  - intros parent.
    destruct (returns_Code (ast w) h Hs iterator parent Hf w eq_refl)
      as ([] & l & E). eauto.
  - intros pad Hp.
    destruct (returns_Dump (ast w) h Hs iterator pad Hf Hp w eq_refl)
      as (b & l & E).
    exists l. rewrite E. f_equal. f_equal.
    apply (Dump_ok h iterator pad w). now rewrite E.
Qed.

Lemma finite_trees_are_rendered_witness :
  (exists l, Code 6 0 0 {| ast := keyed_literal_store; printed := [] |}
             = (Ret tt, out {| ast := keyed_literal_store; printed := [] |}
                          l))
  /\ (exists l, Dump 6 0 0 {| ast := keyed_literal_store; printed := [] |}
                = (Ret true,
                   out {| ast := keyed_literal_store; printed := [] |} l)).
Proof.
  destruct (finite_trees_are_rendered 6 0
              {| ast := keyed_literal_store; printed := [] |})
    as [H1 H2]; [vm_compute; reflexivity | vm_compute; reflexivity|].
  split; [apply H1 | apply (H2 0); lia].
Defined.

(** ** [Code] at a node of a family *)

Lemma agree_unit_r s (m : M unit) : agree s (m ;; ret tt) m.
Proof. intros w _. apply bind_unit_r. Qed.

Lemma agree_bind_l {A B : Type} s (m m' : M A) (k : A -> M B) :
  emits m -> agree s m m' -> agree s (bind m k) (bind m' k).
Proof.
  intros Hm H.
  apply agree_bind; [exact Hm | exact H | intros a; apply agree_refl].
Qed.

Lemma emits_Code_child (fuel : nat) (t : string) (iterator : Z) (i : Z) :
  emits (Code fuel (add64 (O iterator) i) iterator ;;
         Code_each t iterator i).
Proof.
  apply emits_bind; [apply emits_Code | intros _; apply emits_Code_each].
Qed.

(** At a node of family [f], [Code] is the case of [f] in the first
    switch, the children of the run in order, each followed by the case of
    [f] in the second switch, and that case once more at [uint64big]. *)
Lemma agree_Code_node s (fuel n : nat) (iterator parent : Z) (node : slice)
    (f : family) :
  s !! iterator = Some (Some node) ->
  (arr node, off node) = family_addr f -> 0 < len (Some node) ->
  child_run s iterator n = true -> (n < fuel)%nat ->
  agree s (Code (S fuel) iterator parent)
    (let t := text (default None (s !! O iterator)) in
     open_switch (Some f) t (Some node) iterator parent ;;
     for_each (indices n)
       (fun i => Code fuel (add64 (O iterator) i) iterator ;;
                 each_switch (Some f) t (Some node) iterator i) ;;
     each_switch (Some f) t (Some node) iterator uint64big).
Proof.
  intros Hn Hp Hl Hrun Hf. cbv zeta.
  eapply agree_trans; [now apply (Code_run s fuel n)|].
  eapply agree_trans; [apply agree_index_bind|].
  apply agree_bind;
    [apply emits_Code_open
    | now apply (agree_Code_open s _ _ _ node f) | intros _].
  apply agree_bind.
  - apply emits_for_each. intros i. apply emits_Code_child.
  - apply agree_for_each; [intros i; apply emits_Code_child|].
    intros i Hi.
    apply agree_bind; [apply emits_Code | apply agree_refl | intros _].
    now apply (agree_Code_each s _ _ _ node f).
  - intros _. now apply (agree_Code_each s _ _ _ node f).
Qed.

Lemma add64_add64 (x i j : Z) : add64 (add64 x i) j = add64 x (i + j).
Proof.
  unfold add64, wrap64. rewrite Z.add_mod_idemp_l by lia.
  now rewrite Z.add_assoc.
Qed.

Lemma child_run_present s (iterator : Z) (n : nat) (i : Z) :
  child_run s iterator n = true -> In i (indices n) ->
  present s (add64 (O iterator) i) = true.
Proof.
  intros H Hi. apply child_run_spec in H as (H & _ & _).
  rewrite forallb_forall in H. now apply H.
Qed.

Lemma child_run_absent s (iterator : Z) (n : nat) :
  child_run s iterator n = true ->
  s !! add64 (O iterator) (Z.of_nat n) = None.
Proof.
  intros H. apply child_run_spec in H as (_ & H & _).
  unfold present in H. now destruct (s !! _).
Qed.

(** X9. A ReturnStmt node whose children are not nil prints the keyword,
    then its children in order with a comma and a blank between two of
    them, and nothing after the last. *)
Theorem ReturnStmt_rendering (fuel n : nat) (iterator parent : Z)
    (w : world) (node : slice) :
  ast w !! iterator = Some (Some node) ->
  (arr node, off node) = family_addr ReturnStmt -> 0 < len (Some node) ->
  child_run (ast w) iterator n = true -> (n < fuel)%nat ->
  solid (ast w) iterator n = true ->
  Code (S fuel) iterator parent w
  = (print "return " ;;
     for_each (indices n)
       (fun i => Code fuel (add64 (O iterator) i) iterator ;;
                 when (i + 1 <? Z.of_nat n) (print ", "))) w.
Proof.
  intros Hn Hp Hl Hrun Hf Hnn.
  apply (agree_trans (ast w) _ _ _
           (agree_Code_node (ast w) fuel n iterator parent node ReturnStmt
              Hn Hp Hl Hrun Hf)); [|reflexivity].
  cbv zeta. unfold open_switch.
  apply agree_bind; [apply emits_print | apply agree_refl | intros _].
  eapply agree_trans; [|apply agree_unit_r].
  apply agree_bind.
  - apply emits_for_each. intros i.
    apply emits_bind; [apply emits_Code | intros _].
    unfold each_switch. emits_auto.
  - apply agree_for_each.
    + intros i. apply emits_bind; [apply emits_Code | intros _].
      unfold each_switch. emits_auto.
    + intros i Hi.
      apply agree_bind; [apply emits_Code | apply agree_refl | intros _].
      unfold each_switch. pose proof (range_bounds _ _ _ Hi) as Bi.
      pose proof (child_run_spec _ _ _ Hrun) as (_ & _ & Hbig).
      replace (negb (i =? uint64big)) with true
        by (symmetry; apply negb_true_iff, Z.eqb_neq; lia).
      eapply agree_trans; [apply agree_index_bind|].
      rewrite add64_add64. fold (record (ast w) (add64 (O iterator) (i + 1))).
      destruct (i + 1 <? Z.of_nat n) eqn:E.
      * assert (Hin : In (i + 1) (indices n))
          by (apply range_In; lia).
        unfold solid in Hnn. rewrite forallb_forall in Hnn.
        rewrite (Hnn _ Hin). apply agree_refl.
      * replace (i + 1) with (Z.of_nat n) by lia. unfold record.
        rewrite (child_run_absent _ _ _ Hrun). apply agree_refl.
  - intros _. unfold each_switch. rewrite Z.eqb_refl. apply agree_refl.
Qed.

Lemma ReturnStmt_rendering_witness :
  Code 4 0 0 {| ast := return_store; printed := [] |}
  = (Ret tt, {| ast := return_store;
                printed := ["return "; "a"; ", "; "b"] |}).
Proof.
  rewrite (ReturnStmt_rendering 3 2 0 0
             {| ast := return_store; printed := [] |}
             {| arr := arrReturnStmt; off := 0; bytes := "R";
                capacity := 10 |});
    [vm_compute; reflexivity | vm_compute; reflexivity | reflexivity
    | reflexivity | vm_compute; reflexivity | lia
    | vm_compute; reflexivity].
Defined.

(** ** Operands, and the operators between them *)

Lemma agree_ret_bind {A : Type} s (m : M A) : agree s (ret tt ;; m) m.
Proof. now intros w _. Qed.

Lemma agree_unit_r_when s (m : M unit) (b : bool) :
  agree s (m ;; when b (ret tt)) m.
Proof. destruct b; apply agree_unit_r. Qed.

Lemma structural_not_textual (x : byteslice) :
  structural x = true -> textual x = false.
Proof.
  unfold structural. intros H.
  destruct (textual x) eqn:T; [|reflexivity].
  destruct (Which_textual x T) as [E _]. now rewrite E in H.
Qed.

(** What the second switch of an Expression and of an AssignStmt starts
    with: the text of the child, when the child is a leaf. *)
Lemma agree_operand s (key : Z) (k : M unit) :
  textual (record s key) || structural (record s key) = true ->
  agree s
    (x <- index key ;;
     w <- lift (Which x) ;;
     when (bool_decide (w = None)) (when (0 <? len x) (print (text x))) ;;
     k)
    (when (textual (record s key)) (print (text (record s key))) ;; k).
Proof.
  intros H. eapply agree_trans; [apply agree_index_bind|].
  fold (record s key). destruct (textual (record s key)) eqn:T.
  - destruct (Which_textual _ T) as [-> ->]. apply agree_refl.
  - cbn in H. unfold structural in H.
    destruct (Which (record s key)) as [[f|]|e|]; try discriminate.
    apply agree_refl.
Qed.

Lemma agree_no_operand s (key : Z) (k : M unit) :
  s !! key = None ->
  agree s
    (x <- index key ;;
     w <- lift (Which x) ;;
     when (bool_decide (w = None)) (when (0 <? len x) (print (text x))) ;;
     k)
    k.
Proof.
  intros H. eapply agree_trans; [apply agree_index_bind|].
  rewrite H. apply agree_refl.
Qed.

Lemma operands_at s (a : Z) (n : nat) (i : Z) :
  operands s a n = true -> In i (indices n) ->
  textual (record s (add64 (O a) i))
  || structural (record s (add64 (O a) i)) = true.
Proof.
  unfold operands. rewrite forallb_forall. intros H Hi. now apply H.
Qed.

Lemma to_byte_small (z : Z) : 0 <= z < 256 -> to_byte z = z.
Proof. intros H. unfold to_byte. now apply Z.mod_small. Qed.

Lemma infix_operator_byte (op : Z) (sym : string) :
  In (op, sym) infix_operators -> 0 <= op < 256.
Proof.
  intros K. unfold infix_operators in K. cbn in K.
  repeat (destruct K as [[= <- _]|K]; [cbv; split; congruence|]).
  contradiction.
Qed.

Lemma open_Expression_infix (node : slice) (n : nat) (op : Z)
    (sym : string) :
  In (op, sym) infix_operators ->
  len (Some node) = op + 1 ->
  to_uint64 (cap (Some node) - ExpressionTotalCount) = Z.of_nat n ->
  Z.of_nat n mod 256 <> 1 -> open_Expression (Some node) = ret tt.
Proof.
  intros Hop Hlen Hcap H. unfold open_Expression. cbv zeta. rewrite Hlen.
  replace (op + 1 - 1) with op by lia.
  rewrite (to_byte_small op (infix_operator_byte op sym Hop)).
  replace (to_byte (cap (Some node) - ExpressionTotalCount))
    with (Z.of_nat n mod 256)
    by (rewrite <- Hcap; unfold to_byte, to_uint64, wrap64;
        change (2 ^ 64) with 18446744073709551616;
        Z.to_euclidean_division_equations; lia).
  replace (Z.of_nat n mod 256 =? 1) with false by lia.
  unfold infix_operators in Hop. cbn in Hop.
  repeat (destruct Hop as [[= <- _]|Hop]; [reflexivity|]).
  contradiction.
Qed.

Lemma each_Expression_infix s (node : slice) (iterator : Z) (n : nat)
    (op : Z) (sym : string) (i : Z) :
  In (op, sym) infix_operators ->
  len (Some node) = op + 1 ->
  to_uint64 (cap (Some node) - ExpressionTotalCount) = Z.of_nat n ->
  (2 <= n)%nat -> Z.of_nat n < uint64big ->
  0 <= i < Z.of_nat n ->
  textual (record s (add64 (O iterator) i))
  || structural (record s (add64 (O iterator) i)) = true ->
  agree s (each_Expression (Some node) iterator i)
    (when (textual (record s (add64 (O iterator) i)))
       (print (text (record s (add64 (O iterator) i)))) ;;
     when (i + 1 <? Z.of_nat n) (print sym)).
Proof.
  intros Hop Hlen Hcap Hn Hbig Hi Hx.
  unfold each_Expression. cbv zeta. rewrite Hlen, Hcap.
  replace (op + 1 - 1) with op by lia.
  rewrite (to_byte_small op (infix_operator_byte op sym Hop)).
  eapply agree_trans; [now apply agree_operand|].
  apply agree_bind; [emits_auto | apply agree_refl | intros _].
  unfold uint64big in *.
  replace (negb (i =? 2 ^ 64 - 2)) with true
    by (symmetry; apply negb_true_iff, Z.eqb_neq; lia).
  unfold when at 1. rewrite add64_small by lia.
  replace (1 <=? i + 1) with true by lia.
  replace (1 <? Z.of_nat n) with true by lia.
  replace (i + 1 =? 0) with false by lia.
  replace (Z.of_nat n =? 1) with false by lia.
  replace (0 <? i + 1) with true by lia.
  rewrite andb_false_r. cbn [Bool.eqb andb].
  eapply agree_trans; [apply agree_unit_r_when|].
  apply agree_eq.
  destruct (i + 1 <? Z.of_nat n) eqn:E.
  - replace (i + 1 =? Z.of_nat n) with false by lia. cbn [negb when].
    unfold infix_operators in Hop. cbn in Hop.
    repeat (destruct Hop as [[= <- <-]|Hop]; [reflexivity|]).
    contradiction.
  - replace (i + 1 =? Z.of_nat n) with true by lia. cbn [negb when].
    unfold infix_operators in Hop. cbn in Hop.
    repeat (destruct Hop as [[= <- <-]|Hop]; [reflexivity|]).
    contradiction.
Qed.

Lemma each_Expression_end s (node : slice) (iterator : Z) :
  s !! add64 (O iterator) uint64big = None ->
  agree s (each_Expression (Some node) iterator uint64big) (ret tt).
Proof.
  intros H. unfold each_Expression. cbv zeta.
  eapply agree_trans; [now apply agree_no_operand|].
  rewrite Z.eqb_refl. apply agree_refl.
Qed.

(** X10. An Expression node of an infix operator with [n] operands, two or
    more, prints its operands in order, each a leaf or the node of a
    family, with the token of the operator after every operand but the
    last: a binary operator between blanks, the dot of a selector and the
    colon of a key-value pair bare. The first switch reads the number of
    operands as a byte: the form is this one when [n] modulo 256 is not
    one. *)
Theorem infix_expression_rendering (fuel n : nat) (iterator parent : Z)
    (w : world) (node : slice) (op : Z) (sym : string) :
  In (op, sym) infix_operators ->
  (2 <= n)%nat -> Z.of_nat n mod 256 <> 1 ->
  ExpressionNode op (Z.of_nat n) = Ret node ->
  ast w !! iterator = Some (Some node) ->
  child_run (ast w) iterator n = true -> (n < fuel)%nat ->
  operands (ast w) iterator n = true ->
  ast w !! add64 (O iterator) uint64big = None ->
  Code (S fuel) iterator parent w
  = (for_each (indices n)
       (fun i =>
          let x := record (ast w) (add64 (O iterator) i) in
          Code fuel (add64 (O iterator) i) iterator ;;
          when (textual x) (print (text x)) ;;
          when (i + 1 <? Z.of_nat n) (print sym))) w.
Proof.
  intros Hop Hn2 Hmod Hnode Hn Hrun Hf Hops Hsent.
  unfold ExpressionNode in Hnode.
  apply slice3_Ret in Hnode as (Hb & Hb' & Hp & Hlen & Hcap).
  pose proof (infix_operator_byte op sym Hop) as Hop'.
  assert (Hl : 0 < len (Some node)) by lia.
  assert (Hcap' : to_uint64 (cap (Some node) - ExpressionTotalCount)
                  = Z.of_nat n).
  { pose proof (child_run_spec _ _ _ Hrun) as (_ & _ & Hbig).
    rewrite Hcap. change (family_cap Expression) with 1000000 in *.
    unfold ExpressionTotalCount, uint64big in *. machine. }
  pose proof (child_run_spec _ _ _ Hrun) as (_ & _ & Hbig).
  apply (agree_trans (ast w) _ _ _
           (agree_Code_node (ast w) fuel n iterator parent node Expression
              Hn Hp Hl Hrun Hf)); [|reflexivity].
  cbv zeta. unfold open_switch, each_switch.
  rewrite (open_Expression_infix node n op sym Hop Hlen Hcap' Hmod).
  eapply agree_trans; [apply agree_ret_bind|].
  eapply agree_trans; [|apply agree_unit_r].
  apply agree_bind.
  - apply emits_for_each. intros i.
    apply emits_bind; [apply emits_Code | intros _].
    unfold each_Expression. emits_auto.
  - apply agree_for_each.
    + intros i. apply emits_bind; [apply emits_Code | intros _].
      unfold each_Expression. emits_auto.
    + intros i Hi.
      apply agree_bind; [apply emits_Code | apply agree_refl | intros _].
      apply (each_Expression_infix (ast w) node iterator n op sym);
        try assumption.
      * apply range_bounds in Hi. lia.
      * now apply operands_at with n.
  - intros _. now apply each_Expression_end.
Qed.

Lemma infix_expression_rendering_witness :
  Code 4 0 0 {| ast := sum_store; printed := [] |}
  = (Ret tt, {| ast := sum_store; printed := ["a"; " + "; "b"] |}).
Proof.
  rewrite (infix_expression_rendering 3 2 0 0
             {| ast := sum_store; printed := [] |}
             {| arr := storage; off := 0; bytes := zeros 10;
                capacity := 40 |} ExpressionPlus " + ").
  - vm_compute. reflexivity.
  - cbn. tauto.
  - lia.
  - vm_compute. discriminate.
  - vm_compute. reflexivity.
  - vm_compute. reflexivity.
  - vm_compute. reflexivity.
  - lia.
  - vm_compute. reflexivity.
  - vm_compute. reflexivity.
Defined.

Lemma assignment_operator_small (op : Z) (sym : string) :
  In (op, sym) assignment_operators -> 0 <= op <= 12.
Proof.
  intros K. unfold assignment_operators in K. cbn in K.
  repeat (destruct K as [[= <- _]|K]; [cbv; split; congruence|]).
  contradiction.
Qed.

Lemma each_AssignStmt_infix s (node : slice) (iterator : Z) (k : nat)
    (op : Z) (sym : string) (i : Z) :
  In (op, sym) assignment_operators ->
  len (Some node) = op + 1 ->
  to_uint64 (cap (Some node) - AssignStmtTotalCount) = 2 * Z.of_nat k ->
  (1 <= k)%nat -> 2 * Z.of_nat k < uint64big ->
  0 <= i < 2 * Z.of_nat k ->
  textual (record s (add64 (O iterator) i))
  || structural (record s (add64 (O iterator) i)) = true ->
  agree s (each_AssignStmt (Some node) iterator i)
    (when (textual (record s (add64 (O iterator) i)))
       (print (text (record s (add64 (O iterator) i)))) ;;
     print (if i + 1 =? 2 * Z.of_nat k then " "
            else if i + 1 =? Z.of_nat k then " " ++ sym ++ " "
            else ", ")).
Proof.
  intros Hop Hlen Hcap Hk Hbig Hi Hx.
  pose proof (assignment_operator_small op sym Hop) as Hs.
  unfold each_AssignStmt. cbv zeta. rewrite Hlen, Hcap.
  replace (op + 1 - 1) with op by lia.
  rewrite (to_byte_small op) by lia.
  eapply agree_trans; [now apply agree_operand|].
  apply agree_bind; [emits_auto | apply agree_refl | intros _].
  unfold uint64big, AssignStmtTypeIsLast in *.
  replace (negb (i =? 2 ^ 64 - 2)) with true
    by (symmetry; apply negb_true_iff, Z.eqb_neq; lia).
  unfold when at 1. rewrite (add64_small i 1) by lia.
  rewrite (add64_small (2 * Z.of_nat k) 1) by lia.
  replace (Z.shiftr (2 * Z.of_nat k + 1) 1) with (Z.of_nat k)
    by (rewrite Z.shiftr_div_pow2 by lia; change (2 ^ 1) with 2;
        Z.to_euclidean_division_equations; lia).
  replace (14 <? op) with false by lia.
  replace (op =? 14) with false by lia.
  rewrite andb_false_r. cbn [negb andb orb].
  apply agree_eq.
  destruct (i + 1 =? 2 * Z.of_nat k); [reflexivity|].
  rewrite andb_true_r.
  replace (Z.shiftr (2 * Z.of_nat k) 1) with (Z.of_nat k)
    by (rewrite Z.shiftr_div_pow2 by lia; change (2 ^ 1) with 2;
        Z.to_euclidean_division_equations; lia).
  destruct (i + 1 =? Z.of_nat k).
  - unfold assignment_operators in Hop. cbn in Hop.
    repeat (destruct Hop as [[= <- <-]|Hop]; [reflexivity|]).
    contradiction.
  - replace (0 <? i + 1) with true by lia. rewrite orb_true_r.
    reflexivity.
Qed.

Lemma each_AssignStmt_end s (node : slice) (iterator : Z) :
  s !! add64 (O iterator) uint64big = None ->
  agree s (each_AssignStmt (Some node) iterator uint64big) (ret tt).
Proof.
  intros H. unfold each_AssignStmt. cbv zeta.
  eapply agree_trans; [now apply agree_no_operand|].
  rewrite Z.eqb_refl. apply agree_refl.
Qed.

(** X11. An AssignStmt node of an assignment operator with [k] operands on
    each side prints its operands in order, each a leaf or the node of a
    family: a comma and a blank after an operand, the operator between
    blanks after the [k]-th, and one blank after the last. *)
Theorem assignment_rendering (fuel k : nat) (iterator parent : Z)
    (w : world) (node : slice) (op : Z) (sym : string) :
  In (op, sym) assignment_operators -> (1 <= k)%nat ->
  AssignStmtNode op (Z.of_nat (2 * k)) = Ret node ->
  ast w !! iterator = Some (Some node) ->
  child_run (ast w) iterator (2 * k) = true -> (2 * k < fuel)%nat ->
  operands (ast w) iterator (2 * k) = true ->
  ast w !! add64 (O iterator) uint64big = None ->
  Code (S fuel) iterator parent w
  = (for_each (indices (2 * k))
       (fun i =>
          let x := record (ast w) (add64 (O iterator) i) in
          Code fuel (add64 (O iterator) i) iterator ;;
          when (textual x) (print (text x)) ;;
          print (if i + 1 =? 2 * Z.of_nat k then " "
                 else if i + 1 =? Z.of_nat k then " " ++ sym ++ " "
                 else ", "))) w.
Proof.
  intros Hop Hk Hnode Hn Hrun Hf Hops Hsent.
  pose proof (assignment_operator_small op sym Hop) as Hs.
  unfold AssignStmtNode in Hnode.
  apply slice3_Ret in Hnode as (Hb & Hb' & Hp & Hlen & Hcap).
  assert (Hl : 0 < len (Some node)) by lia.
  pose proof (child_run_spec _ _ _ Hrun) as (_ & _ & Hbig).
  assert (Hcap' : to_uint64 (cap (Some node) - AssignStmtTotalCount)
                  = 2 * Z.of_nat k).
  { rewrite Hcap. change (family_cap AssignStmt) with 999952 in *.
    unfold AssignStmtTotalCount, uint64big in *.
    replace (Z.of_nat (2 * k)) with (2 * Z.of_nat k) in * by lia.
    machine. }
  replace (Z.of_nat (2 * k)) with (2 * Z.of_nat k) in Hbig by lia.
  apply (agree_trans (ast w) _ _ _
           (agree_Code_node (ast w) fuel (2 * k) iterator parent node
              AssignStmt Hn Hp Hl Hrun Hf)); [|reflexivity].
  cbv zeta. unfold open_switch, each_switch.
  eapply agree_trans; [apply agree_ret_bind|].
  eapply agree_trans; [|apply agree_unit_r].
  apply agree_bind.
  - apply emits_for_each. intros i.
    apply emits_bind; [apply emits_Code | intros _].
    unfold each_AssignStmt. emits_auto.
  - apply agree_for_each.
    + intros i. apply emits_bind; [apply emits_Code | intros _].
      unfold each_AssignStmt. emits_auto.
    + intros i Hi.
      apply agree_bind; [apply emits_Code | apply agree_refl | intros _].
      apply (each_AssignStmt_infix (ast w) node iterator k op sym);
        try assumption.
      * apply range_bounds in Hi. lia.
      * now apply operands_at with (2 * k)%nat.
  - intros _. now apply each_AssignStmt_end.
Qed.

Lemma assignment_rendering_witness :
  Code 4 0 0 {| ast := assign_store; printed := [] |}
  = (Ret tt, {| ast := assign_store; printed := ["x"; " = "; "y"; " "] |}).
Proof.
  rewrite (assignment_rendering 3 1 0 0
             {| ast := assign_store; printed := [] |}
             {| arr := storage; off := 48; bytes := zeros 1;
                capacity := 21 |} AssignStmtEqual "=").
  - vm_compute. reflexivity.
  - cbn. tauto.
  - lia.
  - vm_compute. reflexivity.
  - vm_compute. reflexivity.
  - vm_compute. reflexivity.
  - lia.
  - vm_compute. reflexivity.
  - vm_compute. reflexivity.
Defined.

(** ** Forms with brackets, and forms of one operand *)

Lemma bracket_form_byte (op : Z) (form : string * string * string) :
  In (op, form) bracket_forms -> 0 <= op < 256.
Proof.
  intros K. unfold bracket_forms in K. cbn in K.
  repeat (destruct K as [[= <- _]|K]; [cbv; split; congruence|]).
  contradiction.
Qed.

Lemma open_Expression_bracket (node : slice) (op : Z)
    (form : string * string * string) :
  In (op, form) bracket_forms ->
  len (Some node) = op + 1 -> open_Expression (Some node) = ret tt.
Proof.
  intros Hop Hlen. unfold open_Expression. cbv zeta. rewrite Hlen.
  replace (op + 1 - 1) with op by lia.
  rewrite (to_byte_small op (bracket_form_byte op form Hop)).
  unfold bracket_forms in Hop. cbn in Hop.
  repeat (destruct Hop as [[= <- _]|Hop];
          [now destruct (_ =? 1)|]).
  contradiction.
Qed.

Lemma each_Expression_bracket s (node : slice) (iterator : Z) (n : nat)
    (op : Z) (first sep close : string) (i : Z) :
  In (op, (first, sep, close)) bracket_forms ->
  len (Some node) = op + 1 ->
  to_uint64 (cap (Some node) - ExpressionTotalCount) = Z.of_nat n ->
  (2 <= n)%nat -> Z.of_nat n < uint64big ->
  0 <= i < Z.of_nat n ->
  textual (record s (add64 (O iterator) i))
  || structural (record s (add64 (O iterator) i)) = true ->
  agree s (each_Expression (Some node) iterator i)
    (when (textual (record s (add64 (O iterator) i)))
       (print (text (record s (add64 (O iterator) i)))) ;;
     print (if i + 1 =? Z.of_nat n then close
            else if i =? 0 then first else sep)).
Proof.
  intros Hop Hlen Hcap Hn Hbig Hi Hx.
  unfold each_Expression. cbv zeta. rewrite Hlen, Hcap.
  replace (op + 1 - 1) with op by lia.
  rewrite (to_byte_small op (bracket_form_byte op _ Hop)).
  eapply agree_trans; [now apply agree_operand|].
  apply agree_bind; [emits_auto | apply agree_refl | intros _].
  unfold uint64big in *.
  replace (negb (i =? 2 ^ 64 - 2)) with true
    by (symmetry; apply negb_true_iff, Z.eqb_neq; lia).
  unfold when at 1. rewrite add64_small by lia.
  replace (1 <=? i + 1) with true by lia.
  replace (1 <? Z.of_nat n) with true by lia.
  replace (i + 1 =? 0) with false by lia.
  replace (Z.of_nat n =? 1) with false by lia.
  replace (0 <? i + 1) with true by lia.
  replace (i + 1 =? 1) with (i =? 0)
    by (destruct (Z.eqb_spec i 0), (Z.eqb_spec (i + 1) 1); lia).
  rewrite andb_false_r. cbn [Bool.eqb andb].
  eapply agree_trans; [apply agree_unit_r_when|].
  apply agree_eq.
  unfold bracket_forms in Hop. cbn in Hop.
  repeat (destruct Hop as [[= <- <- <- <-]|Hop];
          [destruct (i + 1 =? Z.of_nat n), (i =? 0); reflexivity|]).
  contradiction.
Qed.

(** X12. An Expression node of a call, a composite literal, an index or a
    type assertion, with [n] operands, two or more, prints its operands
    in order, each a leaf or the node of a family: the opening bracket
    after the first, the separator after each later one, and the closing
    bracket after the last. A call separates its arguments by a comma
    without a blank, a composite literal its elements by a comma and a
    blank. *)
Theorem bracket_expression_rendering (fuel n : nat) (iterator parent : Z)
    (w : world) (node : slice) (op : Z) (first sep close : string) :
  In (op, (first, sep, close)) bracket_forms -> (2 <= n)%nat ->
  ExpressionNode op (Z.of_nat n) = Ret node ->
  ast w !! iterator = Some (Some node) ->
  child_run (ast w) iterator n = true -> (n < fuel)%nat ->
  operands (ast w) iterator n = true ->
  ast w !! add64 (O iterator) uint64big = None ->
  Code (S fuel) iterator parent w
  = (for_each (indices n)
       (fun i =>
          let x := record (ast w) (add64 (O iterator) i) in
          Code fuel (add64 (O iterator) i) iterator ;;
          when (textual x) (print (text x)) ;;
          print (if i + 1 =? Z.of_nat n then close
                 else if i =? 0 then first else sep))) w.
Proof.
  intros Hop Hn2 Hnode Hn Hrun Hf Hops Hsent.
  unfold ExpressionNode in Hnode.
  apply slice3_Ret in Hnode as (Hb & Hb' & Hp & Hlen & Hcap).
  pose proof (bracket_form_byte op _ Hop) as Hop'.
  assert (Hl : 0 < len (Some node)) by lia.
  pose proof (child_run_spec _ _ _ Hrun) as (_ & _ & Hbig).
  assert (Hcap' : to_uint64 (cap (Some node) - ExpressionTotalCount)
                  = Z.of_nat n).
  { rewrite Hcap. change (family_cap Expression) with 1000000 in *.
    unfold ExpressionTotalCount, uint64big in *. machine. }
  apply (agree_trans (ast w) _ _ _
           (agree_Code_node (ast w) fuel n iterator parent node Expression
              Hn Hp Hl Hrun Hf)); [|reflexivity].
  cbv zeta. unfold open_switch, each_switch.
  rewrite (open_Expression_bracket node op _ Hop Hlen).
  eapply agree_trans; [apply agree_ret_bind|].
  eapply agree_trans; [|apply agree_unit_r].
  apply agree_bind.
  - apply emits_for_each. intros i.
    apply emits_bind; [apply emits_Code | intros _].
    unfold each_Expression. emits_auto.
  - apply agree_for_each.
    + intros i. apply emits_bind; [apply emits_Code | intros _].
      unfold each_Expression. emits_auto.
    + intros i Hi.
      apply agree_bind; [apply emits_Code | apply agree_refl | intros _].
      apply (each_Expression_bracket (ast w) node iterator n op);
        try assumption.
      * apply range_bounds in Hi. lia.
      * now apply operands_at with n.
  - intros _. now apply each_Expression_end.
Qed.

Lemma bracket_expression_rendering_witness :
  Code 5 0 0 {| ast := call2_store; printed := [] |}
  = (Ret tt, {| ast := call2_store;
                printed := ["f"; "("; "a"; ","; "b"; ")"] |}).
Proof.
  rewrite (bracket_expression_rendering 4 3 0 0
             {| ast := call2_store; printed := [] |}
             {| arr := storage; off := 0; bytes := zeros 25;
                capacity := 41 |} ExpressionCall "(" "," ")").
  - vm_compute. reflexivity.
  - cbn. tauto.
  - lia.
  - vm_compute. reflexivity.
  - vm_compute. reflexivity.
  - vm_compute. reflexivity.
  - lia.
  - vm_compute. reflexivity.
  - vm_compute. reflexivity.
Defined.

Lemma unary_form_byte (op : Z) (form : list string * list string) :
  In (op, form) unary_forms -> 0 <= op < 256.
Proof.
  intros K. unfold unary_forms in K. cbn in K.
  repeat (destruct K as [[= <- _]|K]; [cbv; split; congruence|]).
  contradiction.
Qed.

Lemma open_Expression_unary s (node : slice) (op : Z)
    (before after : list string) :
  In (op, (before, after)) unary_forms ->
  len (Some node) = op + 1 ->
  cap (Some node) - ExpressionTotalCount = 1 ->
  agree s (open_Expression (Some node)) (for_each before print).
Proof.
  intros Hop Hlen Hcap. unfold open_Expression. cbv zeta.
  rewrite Hlen, Hcap. replace (op + 1 - 1) with op by lia.
  rewrite (to_byte_small op (unary_form_byte op _ Hop)).
  change (to_byte 1 =? 1) with true. cbv iota.
  unfold unary_forms in Hop. cbn in Hop. intros w _.
  repeat (destruct Hop as [[= <- <- <-]|Hop]; [reflexivity|]).
  contradiction.
Qed.

Lemma each_Expression_unary s (node : slice) (iterator : Z) (op : Z)
    (before after : list string) :
  In (op, (before, after)) unary_forms ->
  len (Some node) = op + 1 ->
  cap (Some node) - ExpressionTotalCount = 1 ->
  textual (record s (add64 (O iterator) 0))
  || structural (record s (add64 (O iterator) 0)) = true ->
  agree s (each_Expression (Some node) iterator 0)
    (when (textual (record s (add64 (O iterator) 0)))
       (print (text (record s (add64 (O iterator) 0)))) ;;
     for_each after print).
Proof.
  intros Hop Hlen Hcap Hx.
  unfold each_Expression. cbv zeta. rewrite Hlen, Hcap.
  replace (op + 1 - 1) with op by lia.
  rewrite (to_byte_small op (unary_form_byte op _ Hop)).
  eapply agree_trans; [now apply agree_operand|].
  apply agree_bind; [emits_auto | apply agree_refl | intros _].
  change (negb (0 =? uint64big)) with true. unfold when at 1.
  change (add64 0 1) with 1. change (to_uint64 1) with 1.
  change (Bool.eqb (1 <=? 1) (1 <? 1) && negb (1 =? 1)) with false.
  change ((1 =? 1) && (1 =? 1)) with true. change (1 =? 1) with true.
  cbv iota. unfold unary_forms in Hop. cbn in Hop. intros w _.
  repeat (destruct Hop as [[= <- <- <-]|Hop]; [reflexivity|]).
  contradiction.
Qed.

(** X13. An Expression node with one operand, a leaf or the node of a
    family, prints the tokens that its form puts before the operand, the
    operand, and the tokens that the form puts after it: a unary operator
    before, brackets around, the empty bracket pair of a call without
    arguments after; an identifier prints its leaf alone. *)
Theorem unary_expression_rendering (fuel : nat) (iterator parent : Z)
    (w : world) (node : slice) (op : Z) (before after : list string) :
  In (op, (before, after)) unary_forms ->
  ExpressionNode op 1 = Ret node ->
  ast w !! iterator = Some (Some node) ->
  child_run (ast w) iterator 1 = true -> (1 < fuel)%nat ->
  operands (ast w) iterator 1 = true ->
  ast w !! add64 (O iterator) uint64big = None ->
  Code (S fuel) iterator parent w
  = (let x := record (ast w) (add64 (O iterator) 0) in
     for_each before print ;;
     Code fuel (add64 (O iterator) 0) iterator ;;
     when (textual x) (print (text x)) ;;
     for_each after print) w.
Proof.
  intros Hop Hnode Hn Hrun Hf Hops Hsent.
  unfold ExpressionNode in Hnode.
  apply slice3_Ret in Hnode as (Hb & Hb' & Hp & Hlen & Hcap).
  pose proof (unary_form_byte op _ Hop) as Hop'.
  assert (Hl : 0 < len (Some node)) by lia.
  assert (Hcap' : cap (Some node) - ExpressionTotalCount = 1)
    by (rewrite Hcap; reflexivity).
  apply (agree_trans (ast w) _ _ _
           (agree_Code_node (ast w) fuel 1 iterator parent node Expression
              Hn Hp Hl Hrun Hf)); [|reflexivity].
  cbv zeta. unfold open_switch, each_switch.
  cbn [indices range for_each].
  apply agree_bind;
    [unfold open_Expression; emits_auto
    | now apply (open_Expression_unary _ _ op before after) | intros _].
  eapply agree_trans;
    [apply agree_bind_l;
     [apply emits_bind;
      [apply emits_bind;
       [apply emits_Code
       | intros _; unfold each_Expression; emits_auto]
      | intros _; apply emits_ret]
     | apply agree_unit_r]|].
  eapply agree_trans; [apply agree_assoc|].
  apply agree_bind; [apply emits_Code | apply agree_refl | intros _].
  eapply agree_trans;
    [apply agree_bind;
     [unfold each_Expression; emits_auto
     | apply (each_Expression_unary _ _ _ op before after); try assumption;
       now apply operands_at with 1%nat; [|left]
     | intros ?; now apply each_Expression_end]|].
  apply agree_unit_r.
Qed.

Lemma unary_expression_rendering_witness :
  Code 3 0 0 {| ast := negation_store; printed := [] |}
  = (Ret tt, {| ast := negation_store; printed := ["!"; "x"] |}).
Proof.
  rewrite (unary_expression_rendering 2 0 0
             {| ast := negation_store; printed := [] |}
             {| arr := storage; off := 0; bytes := zeros 21;
                capacity := 39 |} ExpressionNot ["!"] []).
  - vm_compute. reflexivity.
  - cbn. tauto.
  - vm_compute. reflexivity.
  - vm_compute. reflexivity.
  - vm_compute. reflexivity.
  - lia.
  - vm_compute. reflexivity.
  - vm_compute. reflexivity.
Defined.

(** ** Increment and decrement *)

Lemma textual_text_length (x : byteslice) :
  textual x = true -> (0 <? Z.of_nat (String.length (text x))) = true.
Proof. intros T. now destruct (Which_textual x T) as [_ H], x. Qed.

(** X14. An IncDecStmt node with one operand, a leaf or the node of a
    family, prints the operand and then the operator, [++] or [--]. *)
Theorem IncDecStmt_rendering (fuel : nat) (iterator parent : Z) (w : world)
    (node : slice) (op : Z) (sym : string) :
  In (op, sym) incdec_operators ->
  IncDecStmtNode op = Ret node ->
  ast w !! iterator = Some (Some node) ->
  child_run (ast w) iterator 1 = true -> (1 < fuel)%nat ->
  operands (ast w) iterator 1 = true ->
  Code (S fuel) iterator parent w
  = (let x := record (ast w) (add64 (O iterator) 0) in
     Code fuel (add64 (O iterator) 0) iterator ;;
     when (textual x) (print (text x)) ;;
     print sym) w.
Proof.
  intros Hop Hnode Hn Hrun Hf Hops.
  unfold IncDecStmtNode in Hnode.
  apply slice2_Ret in Hnode as (Hb & Hp & Hlen & Hcap).
  assert (Hop' : 0 <= op < 256).
  { unfold incdec_operators in Hop. cbn in Hop.
    repeat (destruct Hop as [[= <- _]|Hop]; [cbv; split; congruence|]).
    contradiction. }
  assert (Hl : 0 < len (Some node)) by lia.
  pose proof (operands_at _ _ _ 0 Hops ltac:(now left)) as Hx.
  apply (agree_trans (ast w) _ _ _
           (agree_Code_node (ast w) fuel 1 iterator parent node IncDecStmt
              Hn Hp Hl Hrun Hf)); [|reflexivity].
  cbv zeta. unfold open_switch, each_switch.
  cbn [indices range for_each]. rewrite Hlen.
  replace (op + 1 - 1) with op by lia. rewrite (to_byte_small op Hop').
  change (0 =? 0) with true. change (0 =? uint64big) with false.
  change (uint64big =? 0) with false. rewrite Z.eqb_refl.
  cbv iota. cbn [when]. rewrite add64_O_0 in *.
  fold (record (ast w) (O iterator)).
  eapply agree_trans; [apply agree_ret_bind|].
  eapply agree_trans;
    [apply agree_bind_l;
     [apply emits_bind;
      [apply emits_bind; [apply emits_Code | intros _; emits_auto]
      | intros _; apply emits_ret]
     | apply agree_unit_r]|].
  eapply agree_trans; [apply agree_assoc|].
  apply agree_bind; [apply emits_Code | apply agree_refl | intros _].
  eapply agree_trans; [apply agree_assoc|].
  eapply agree_trans; [apply agree_assoc|].
  eapply agree_trans; [apply agree_index_bind|].
  fold (record (ast w) (O iterator)).
  destruct (textual (record (ast w) (O iterator))) eqn:T.
  - destruct (Which_textual _ T) as [-> _].
    rewrite (textual_text_length _ T). cbn [when].
    unfold incdec_operators in Hop. cbn in Hop. intros w' _.
    repeat (destruct Hop as [[= <- <-]|Hop]; [reflexivity|]).
    contradiction.
  - cbn in Hx. unfold structural in Hx.
    destruct (Which (record (ast w) (O iterator))) as [[f|]|e|];
      try discriminate.
    unfold incdec_operators in Hop. cbn in Hop. intros w' _.
    repeat (destruct Hop as [[= <- <-]|Hop]; [reflexivity|]).
    contradiction.
Qed.

Lemma IncDecStmt_rendering_witness :
  Code 3 0 0 {| ast := increment_store; printed := [] |}
  = (Ret tt, {| ast := increment_store; printed := ["i"; "++"] |}).
Proof.
  rewrite (IncDecStmt_rendering 2 0 0
             {| ast := increment_store; printed := [] |}
             {| arr := arrIncDecStmt; off := 0; bytes := "I";
                capacity := 10 |} IncDecStmtPlusPlus "++").
  - vm_compute. reflexivity.
  - cbn. tauto.
  - vm_compute. reflexivity.
  - vm_compute. reflexivity.
  - vm_compute. reflexivity.
  - lia.
  - vm_compute. reflexivity.
Defined.

(** ** The parent, and records that are nil *)

Lemma Code_open_parent (t : string) (iterator p p' : Z) (w : world) :
  Which (record (ast w) iterator) <> Ret (Some ImportStmt) ->
  Code_open t iterator p w = Code_open t iterator p' w.
Proof.
  unfold record, Code_open, bind, index, lift, Which, is_nil.
  destruct (ast w !! iterator) as [[node|]|]; cbn [from_option id];
    try reflexivity.
  destruct (addr0 (Some node)) as [q|e|]; try reflexivity.
  intros H. destruct (family_at q) as [[]|]; try reflexivity.
  now elim H.
Qed.

(** X15. The parent that [Code] is given matters to an ImportStmt node
    only: at any other record, two calls that differ in the parent alone
    are the same. *)
Theorem Code_ignores_the_parent (fuel : nat) (iterator p p' : Z)
    (w : world) :
  Which (record (ast w) iterator) <> Ret (Some ImportStmt) ->
  Code fuel iterator p w = Code fuel iterator p' w.
Proof.
  intros H. destruct fuel as [|fuel]; [reflexivity|].
  rewrite !Code_S. unfold bind, index.
  now rewrite (Code_open_parent _ iterator p p' w H).
Qed.

Lemma Code_ignores_the_parent_witness :
  Code 3 0 0 {| ast := call_store; printed := [] |}
  = Code 3 0 7 {| ast := call_store; printed := [] |}.
Proof.
  apply (Code_ignores_the_parent 3 0 0 7
           {| ast := call_store; printed := [] |}).
  vm_compute. discriminate.
Defined.

Lemma agree_Code_open_nil s (t : string) (iterator parent : Z) :
  record s iterator = None -> agree s (Code_open t iterator parent) (ret tt).
Proof.
  intros H. unfold Code_open.
  eapply agree_trans; [apply agree_index_bind|].
  fold (record s iterator). rewrite H. apply agree_refl.
Qed.

Lemma agree_Code_each_nil s (t : string) (iterator i : Z) :
  record s iterator = None -> agree s (Code_each t iterator i) (ret tt).
Proof.
  intros H. unfold Code_each.
  eapply agree_trans; [apply agree_index_bind|].
  fold (record s iterator). rewrite H. apply agree_refl.
Qed.

(** X16. A key that is absent or bound to nil is transparent: [Code]
    renders the children of its run in order, and prints nothing of its
    own. *)
Theorem nil_records_are_transparent (fuel n : nat) (iterator parent : Z)
    (w : world) :
  record (ast w) iterator = None ->
  child_run (ast w) iterator n = true -> (n < fuel)%nat ->
  Code (S fuel) iterator parent w
  = for_each (indices n)
      (fun i => Code fuel (add64 (O iterator) i) iterator) w.
Proof.
  intros Hnil Hrun Hf.
  apply (agree_trans (ast w) _ _ _
           (Code_run (ast w) fuel n iterator parent Hrun Hf));
    [|reflexivity].
  eapply agree_trans; [apply agree_index_bind|].
  eapply agree_trans;
    [apply agree_bind_l;
     [apply emits_Code_open | now apply agree_Code_open_nil]|].
  eapply agree_trans; [apply agree_ret_bind|].
  eapply agree_trans; [|apply agree_unit_r].
  apply agree_bind.
  - apply emits_for_each. intros i. apply emits_Code_child.
  - apply agree_for_each; [intros i; apply emits_Code_child|].
    intros i Hi. eapply agree_trans; [|apply agree_unit_r].
    apply agree_bind; [apply emits_Code | apply agree_refl | intros _].
    now apply agree_Code_each_nil.
  - intros _. now apply agree_Code_each_nil.
Qed.

Lemma nil_records_are_transparent_witness :
  Code 4 0 0 {| ast := headless_store; printed := [] |}
  = (Ret tt, {| ast := headless_store;
                printed := ["break"; "continue"] |}).
Proof.
  rewrite (nil_records_are_transparent 3 2 0 0
             {| ast := headless_store; printed := [] |});
    [vm_compute; reflexivity | vm_compute; reflexivity
    | vm_compute; reflexivity | lia].
Defined.

(** C9 (as amended). A record that is present, not nil and of length zero
    makes [Code] panic with an index out of range as soon as the walk is
    at its address, before anything is printed, and makes [Which] panic
    likewise. A key bound to the nil slice is safe in itself: [Which]
    returns nil for it, and [Code] prints nothing of its own there; with
    no child of its own the key is rendered as nothing. The children of
    the key are rendered all the same: [Code] goes through its run in
    order, and what they print or where they fail is what the walk
    does. *)
Theorem empty_record_panics (fuel : nat) (iterator parent : Z) (w : world) :
  (forall s, ast w !! iterator = Some (Some s) -> bytes s = EmptyString ->
     Code (S fuel) iterator parent w = (Panic IndexOutOfRange, w)
     /\ Which (Some s) = Panic IndexOutOfRange)
  /\ (ast w !! iterator = Some None -> ast w !! O iterator = None ->
      Code (S (S fuel)) iterator parent w = (Ret tt, w)
      /\ Which None = Ret None)
  /\ (forall n, ast w !! iterator = Some None ->
        child_run (ast w) iterator n = true -> (n < fuel)%nat ->
        Code (S fuel) iterator parent w
        = for_each (indices n)
            (fun i => Code fuel (add64 (O iterator) i) iterator) w).
Proof.
  split; [|split].
  - intros s H1 H2. split; [now apply (Code_empty fuel _ _ w s)|].
    unfold Which, addr0, len. now rewrite H2.
  - intros H1 H2. split; [now apply Code_nil | reflexivity].
  - intros n H1 Hrun Hf.
    assert (Hnil : record (ast w) iterator = None)
      by (unfold record; now rewrite H1).
    apply (agree_trans (ast w) _ _ _
             (Code_run (ast w) fuel n iterator parent Hrun Hf));
      [|reflexivity].
    eapply agree_trans; [apply agree_index_bind|].
    eapply agree_trans;
      [apply agree_bind_l;
       [apply emits_Code_open | now apply agree_Code_open_nil]|].
    eapply agree_trans; [apply agree_ret_bind|].
    eapply agree_trans; [|apply agree_unit_r].
    apply agree_bind.
    + apply emits_for_each. intros i. apply emits_Code_child.
    + apply agree_for_each; [intros i; apply emits_Code_child|].
      intros i Hi. eapply agree_trans; [|apply agree_unit_r].
      apply agree_bind; [apply emits_Code | apply agree_refl | intros _].
      now apply agree_Code_each_nil.
    + intros _. now apply agree_Code_each_nil.
Qed.

Lemma empty_record_panics_witness :
  Code 1 (O 0) 0 {| ast := broken_store; printed := [] |}
  = (Panic IndexOutOfRange, {| ast := broken_store; printed := [] |})
  /\ Code 2 (O 0) 0 {| ast := omitted_store; printed := [] |}
     = (Ret tt, {| ast := omitted_store; printed := [] |})
  /\ Code 4 0 0 {| ast := headless_store; printed := [] |}
     = (Ret tt, {| ast := headless_store;
                   printed := ["break"; "continue"] |}).
Proof.
  split; [|split].
  - destruct (empty_record_panics 0 (O 0) 0
                {| ast := broken_store; printed := [] |}) as [H _].
    apply (H {| arr := foreign 1; off := 0; bytes := EmptyString;
                capacity := 0 |}); vm_compute; reflexivity.
  - destruct (empty_record_panics 0 (O 0) 0
                {| ast := omitted_store; printed := [] |}) as (_ & H & _).
    apply H; vm_compute; reflexivity.
  - destruct (empty_record_panics 3 0 0
                {| ast := headless_store; printed := [] |}) as (_ & _ & H).
    rewrite (H 2%nat);
      [vm_compute; reflexivity | vm_compute; reflexivity
      | vm_compute; reflexivity | lia].
Defined.

(** C9, as stated, fails: a key bound to the nil slice is not always
    rendered as nothing without failure. The children stored under it are
    rendered, here two branch statements; and when one of them is a record
    without bytes the walk panics. *)
Lemma nil_key_renders_its_children :
  headless_store !! 0 = Some None
  /\ Code 4 0 0 {| ast := headless_store; printed := [] |}
     = (Ret tt, {| ast := headless_store;
                   printed := ["break"; "continue"] |})
  /\ orphan_store !! 0 = Some None
  /\ Code 2 0 0 {| ast := orphan_store; printed := [] |}
     = (Panic IndexOutOfRange, {| ast := orphan_store; printed := [] |}).
Proof. repeat split; vm_compute; reflexivity. Qed.

(** ** The key behind the run *)

Lemma agree_leaf_operand s (key : Z) (x : byteslice) (k : M unit) :
  s !! key = Some x -> textual x = true ->
  agree s
    (y <- index key ;;
     w <- lift (Which y) ;;
     when (bool_decide (w = None)) (when (0 <? len y) (print (text y))) ;;
     k)
    (print (text x) ;; k).
Proof.
  intros H T. eapply agree_trans; [apply agree_index_bind|].
  rewrite H. cbn [from_option id].
  destruct (Which_textual _ T) as [-> ->]. apply agree_refl.
Qed.

(** X17. When its run has ended, an Expression node and an AssignStmt node
    read the key O(a) + uint64big, that is O(a) - 2: a leaf stored there
    is printed after their last child, though it is no child of theirs. *)
Theorem the_key_behind_the_run_is_printed (fuel n : nat)
    (iterator parent : Z) (w : world) (node : slice) (f : family)
    (x : byteslice) :
  f = Expression \/ f = AssignStmt ->
  ast w !! iterator = Some (Some node) ->
  (arr node, off node) = family_addr f -> 0 < len (Some node) ->
  child_run (ast w) iterator n = true -> (n < fuel)%nat ->
  ast w !! add64 (O iterator) uint64big = Some x -> textual x = true ->
  add64 (O iterator) uint64big = sub64 (O iterator) 2
  /\ Code (S fuel) iterator parent w
     = (let t := text (record (ast w) (O iterator)) in
        open_switch (Some f) t (Some node) iterator parent ;;
        for_each (indices n)
          (fun i => Code fuel (add64 (O iterator) i) iterator ;;
                    each_switch (Some f) t (Some node) iterator i) ;;
        print (text x)) w.
Proof.
  intros Hf' Hn Hp Hl Hrun Hf Hx Ht. split.
  { unfold add64, sub64, wrap64, uint64big.
    change (2 ^ 64) with 18446744073709551616.
    Z.to_euclidean_division_equations; lia. }
  apply (agree_trans (ast w) _ _ _
           (agree_Code_node (ast w) fuel n iterator parent node f
              Hn Hp Hl Hrun Hf)); [|reflexivity].
  cbv zeta. fold (record (ast w) (O iterator)).
  apply agree_bind;
    [unfold open_switch, open_BlocOfCode, introducer, open_Expression;
     emits_auto
    | apply agree_refl | intros _].
  apply agree_bind;
    [apply emits_for_each; intros i;
     apply emits_bind; [apply emits_Code | intros _];
     unfold each_switch, each_ToplevFunc, each_TypedIdent, each_BlocOfCode,
       each_Expression, each_AssignStmt, each_VarDefStmt, each_FileMatter,
       each_ClosureExp, each_IfceMethod; emits_auto
    | apply agree_refl | intros _].
  destruct Hf' as [-> | ->]; unfold each_switch.
  - unfold each_Expression. cbv zeta.
    eapply agree_trans; [now apply (agree_leaf_operand _ _ x)|].
    rewrite Z.eqb_refl. apply agree_unit_r.
  - unfold each_AssignStmt. cbv zeta.
    eapply agree_trans; [now apply (agree_leaf_operand _ _ x)|].
    rewrite Z.eqb_refl. apply agree_unit_r.
Qed.

Lemma the_key_behind_the_run_is_printed_witness :
  Code 3 0 0 {| ast := stray_store; printed := [] |}
  = (Ret tt, {| ast := stray_store; printed := ["x"; "y"] |}).
Proof.
  rewrite (proj2 (the_key_behind_the_run_is_printed 2 1 0 0
                    {| ast := stray_store; printed := [] |}
                    {| arr := storage; off := 0; bytes := zeros 35;
                       capacity := 39 |} Expression (leaf 2 "y")
                    (or_introl eq_refl) eq_refl eq_refl eq_refl eq_refl
                    ltac:(lia) eq_refl eq_refl)).
  vm_compute. reflexivity.
Defined.

(** ** Imports and branch statements *)

Lemma agree_Code_leaf s (fuel : nat) (iterator parent : Z) (x : byteslice) :
  s !! iterator = Some x -> textual x = true -> s !! O iterator = None ->
  agree s (Code (S (S fuel)) iterator parent) (ret tt).
Proof. intros H T H' w <-. now apply (Code_leaf fuel _ _ w x). Qed.

Lemma heads_Which (f : family) (x : byteslice) (o : option family) :
  Which x = Ret o ->
  nonnil_and x (heads f x) = Ret (bool_decide (o = Some f)).
Proof.
  unfold Which, nonnil_and, heads, is_nil. destruct x as [r|].
  - destruct (addr0 (Some r)) as [q|e|]; try discriminate.
    intros [= <-]. f_equal.
    destruct (same q (family_addr f)) eqn:E.
    + apply same_spec in E. subst q. rewrite family_at_addr.
      now rewrite bool_decide_eq_true_2.
    + rewrite bool_decide_eq_false_2; [reflexivity|].
      intros H. apply family_at_Some in H. subst q.
      assert (same (family_addr f) (family_addr f) = true)
        by now apply same_spec.
      congruence.
  - intros [= <-]. reflexivity.
Qed.

(** X18. An ImportStmt node with one child, a leaf, prints the keyword and
    the text of the leaf; under an ImportsDef parent it prints the text
    and a line break, without the keyword. *)
Theorem ImportStmt_rendering (fuel : nat) (iterator parent : Z) (w : world)
    (node : slice) (path : byteslice) (up : option family) :
  ast w !! iterator = Some (Some node) ->
  (arr node, off node) = family_addr ImportStmt -> 0 < len (Some node) ->
  ast w !! O iterator = Some path -> textual path = true ->
  ast w !! add64 (O iterator) 1 = None ->
  ast w !! O (O iterator) = None ->
  Which (record (ast w) parent) = Ret up ->
  Code (3 + fuel) iterator parent w
  = (Ret tt,
     out w (if bool_decide (up = Some ImportsDef)
            then [text path; EmptyString]
            else ["import "; text path])).
Proof.
  intros Hn Hp Hl Hc Ht Hend Hleaf Hup.
  assert (Hrun : child_run (ast w) iterator 1 = true).
  { unfold child_run, present. cbn. rewrite add64_O_0, Hc.
    change (add64 (O iterator) (Z.of_nat 1)) with (add64 (O iterator) 1).
    now rewrite Hend. }
  change (3 + fuel)%nat with (S (S (S fuel))).
  rewrite (agree_Code_node (ast w) (S (S fuel)) 1 iterator parent node
             ImportStmt Hn Hp Hl Hrun ltac:(lia) w eq_refl).
  cbv zeta. rewrite Hc. cbn [from_option id indices range for_each].
  unfold open_switch, each_switch.
  unfold bind at 1. unfold bind at 1. unfold index at 1.
  fold (record (ast w) parent).
  unfold bind at 1, lift at 1.
  rewrite (heads_Which ImportsDef _ up Hup).
  rewrite add64_O_0.
  destruct (bool_decide (up = Some ImportsDef)); cbn [negb when].
  - unfold bind, print, index, ret. cbn. rewrite Hend. cbn.
    rewrite (Code_leaf fuel (O iterator) iterator _ path); try assumption.
    unfold out. cbn. now rewrite <- !app_assoc.
  - unfold bind, print, index, ret. cbn. rewrite Hend. cbn.
    rewrite (Code_leaf fuel (O iterator) iterator _ path); try assumption.
    unfold out. cbn. now rewrite <- !app_assoc.
Qed.

Lemma ImportStmt_rendering_witness :
  Code 3 (O 0) 0 {| ast := import_store; printed := [] |}
  = (Ret tt, {| ast := import_store; printed := ["fmt"; EmptyString] |})
  /\ Code 3 (O 0) 1 {| ast := import_store; printed := [] |}
     = (Ret tt, {| ast := import_store; printed := ["import "; "fmt"] |}).
Proof.
  split.
  - apply (ImportStmt_rendering 0 (O 0) 0
             {| ast := import_store; printed := [] |}
             {| arr := arrImportStmt; off := 0; bytes := "I";
                capacity := 10 |} (leaf 1 "fmt") (Some ImportsDef));
      vm_compute; reflexivity.
  - apply (ImportStmt_rendering 0 (O 0) 1
             {| ast := import_store; printed := [] |}
             {| arr := arrImportStmt; off := 0; bytes := "I";
                capacity := 10 |} (leaf 1 "fmt") None);
      vm_compute; reflexivity.
Defined.

(** X19. A BranchStmt node without children prints the keyword of its
    variant, and nothing for a variant that has none. *)
Theorem BranchStmt_rendering (fuel : nat) (iterator parent : Z) (w : world)
    (node : slice) :
  ast w !! iterator = Some (Some node) ->
  (arr node, off node) = family_addr BranchStmt -> 0 < len (Some node) ->
  ast w !! O iterator = None ->
  (forall k kw, In (k, kw) branch_keywords -> len (Some node) - 1 = k ->
     Code (2 + fuel) iterator parent w = (Ret tt, out w [kw]))
  /\ (BranchStmtGoto < len (Some node) - 1 < 256 ->
      Code (2 + fuel) iterator parent w = (Ret tt, w)).
Proof.
  intros Hn Hp Hl Hc.
  assert (Hrun : child_run (ast w) iterator 0 = true).
  { unfold child_run, present. cbn. now rewrite add64_O_0, Hc. }
  change (2 + fuel)%nat with (S (S fuel)).
  rewrite (agree_Code_node (ast w) (S fuel) 0 iterator parent node
             BranchStmt Hn Hp Hl Hrun ltac:(lia) w eq_refl).
  cbv zeta. cbn [indices range for_each]. unfold open_switch, each_switch.
  split.
  - intros k kw Hk ->. rewrite to_byte_small
      by (unfold branch_keywords in Hk; cbn in Hk;
          repeat (destruct Hk as [[= <- _]|Hk]; [cbv; split; congruence|]);
          contradiction).
    unfold branch_keywords in Hk. cbn in Hk.
    repeat (destruct Hk as [[= Ek <-]|Hk]; [rewrite <- Ek; reflexivity|]).
    contradiction.
  - intros Hk. rewrite to_byte_small by (unfold BranchStmtGoto in Hk; lia).
    unfold BranchStmtGoto, BranchStmtSemi, BranchStmtBreak,
      BranchStmtContinue, BranchStmtFallthrough in *.
    cbn [switch existsb].
    repeat match goal with
           | |- context [?a =? ?b] =>
               replace (a =? b) with false by lia
           end.
    reflexivity.
Qed.

Lemma BranchStmt_rendering_witness :
  Code 2 (add64 (O 0) 1) 0 {| ast := omitted_store; printed := [] |}
  = (Ret tt, {| ast := omitted_store; printed := ["break"] |}).
Proof.
  apply (proj1 (BranchStmt_rendering 0 (add64 (O 0) 1) 0
                  {| ast := omitted_store; printed := [] |}
                  {| arr := arrBranchStmt; off := 0; bytes := "Br";
                     capacity := 10 |}
                  ltac:(vm_compute; reflexivity) eq_refl eq_refl
                  ltac:(vm_compute; reflexivity))
           BranchStmtBreak "break").
  - cbn. tauto.
  - reflexivity.
Defined.

(** ** Declarations *)

Lemma emits_open_switch tag (t : string) (node : byteslice)
    (iterator parent : Z) :
  emits (open_switch tag t node iterator parent).
Proof.
  unfold open_switch, open_BlocOfCode, introducer, open_Expression.
  emits_auto.
Qed.

Lemma emits_each_switch tag (t : string) (node : byteslice)
    (iterator i : Z) :
  emits (each_switch tag t node iterator i).
Proof.
  unfold each_switch, each_ToplevFunc, each_TypedIdent, each_BlocOfCode,
    each_Expression, each_AssignStmt, each_VarDefStmt, each_FileMatter,
    each_ClosureExp, each_IfceMethod.
  emits_auto.
Qed.

(** [Code] at a node of a family whose two switches have been worked
    out: [before], then each child followed by [each], then [after]. *)
Lemma agree_Code_form s (fuel n : nat) (iterator parent : Z) (node : slice)
    (f : family) (before after : M unit) (each : Z -> M unit) :
  s !! iterator = Some (Some node) ->
  (arr node, off node) = family_addr f -> 0 < len (Some node) ->
  child_run s iterator n = true -> (n < fuel)%nat ->
  (forall t, t = text (record s (O iterator)) ->
     agree s (open_switch (Some f) t (Some node) iterator parent) before
     /\ (forall i, In i (indices n) ->
           agree s (each_switch (Some f) t (Some node) iterator i) (each i))
     /\ agree s (each_switch (Some f) t (Some node) iterator uint64big)
          after) ->
  agree s (Code (S fuel) iterator parent)
    (before ;;
     for_each (indices n)
       (fun i => Code fuel (add64 (O iterator) i) iterator ;; each i) ;;
     after).
Proof.
  intros Hn Hp Hl Hrun Hf H.
  destruct (H _ eq_refl) as (Ho & He & Ha).
  eapply agree_trans; [now apply (agree_Code_node s fuel n _ _ node f)|].
  cbv zeta. fold (record s (O iterator)).
  apply agree_bind; [apply emits_open_switch | exact Ho | intros _].
  apply agree_bind.
  - apply emits_for_each. intros i.
    apply emits_bind; [apply emits_Code | intros _; apply emits_each_switch].
  - apply agree_for_each.
    + intros i.
      apply emits_bind;
        [apply emits_Code | intros _; apply emits_each_switch].
    + intros i Hi.
      apply agree_bind; [apply emits_Code | apply agree_refl | intros _].
      now apply He.
  - intros _. exact Ha.
Qed.

(** The same, for a family that prints nothing after a child. *)
Lemma agree_Code_plain s (fuel n : nat) (iterator parent : Z) (node : slice)
    (f : family) (before after : M unit) :
  s !! iterator = Some (Some node) ->
  (arr node, off node) = family_addr f -> 0 < len (Some node) ->
  child_run s iterator n = true -> (n < fuel)%nat -> emits before ->
  (forall t, t = text (record s (O iterator)) ->
     agree s (open_switch (Some f) t (Some node) iterator parent) before
     /\ (forall i, In i (indices n) ->
           agree s (each_switch (Some f) t (Some node) iterator i) (ret tt))
     /\ agree s (each_switch (Some f) t (Some node) iterator uint64big)
          after) ->
  agree s (Code (S fuel) iterator parent)
    (before ;;
     for_each (indices n)
       (fun i => Code fuel (add64 (O iterator) i) iterator) ;;
     after).
Proof.
  intros Hn Hp Hl Hrun Hf Hb H.
  eapply agree_trans;
    [now apply (agree_Code_form s fuel n _ _ node f before after
                  (fun _ => ret tt))|].
  apply agree_bind; [exact Hb | apply agree_refl | intros _].
  apply agree_bind_l.
  - apply emits_for_each. intros i.
    apply emits_bind; [apply emits_Code | intros _; apply emits_ret].
  - apply agree_for_each.
    + intros i.
      apply emits_bind; [apply emits_Code | intros _; apply emits_ret].
    + intros i _. apply agree_unit_r.
Qed.

Lemma agree_at {A : Type} (m m' : M A) (w : world) :
  agree (ast w) m m' -> m w = m' w.
Proof. intros H. now apply H. Qed.

Lemma not_uint64big s (iterator : Z) (n : nat) (i : Z) :
  child_run s iterator n = true -> In i (indices n) ->
  (i =? uint64big) = false.
Proof.
  intros Hrun Hi. apply range_bounds in Hi.
  apply child_run_spec in Hrun as (_ & _ & Hbig). lia.
Qed.

(** X20. An ImportsDef node prints [import (] and a line break, renders
    its children in order, and closes the group with a bracket. *)
Theorem ImportsDef_rendering (fuel n : nat) (iterator parent : Z)
    (w : world) (node : slice) :
  ast w !! iterator = Some (Some node) ->
  (arr node, off node) = family_addr ImportsDef -> 0 < len (Some node) ->
  child_run (ast w) iterator n = true -> (n < fuel)%nat ->
  Code (S fuel) iterator parent w
  = (print "import (" ;; print EmptyString ;;
     for_each (indices n)
       (fun i => Code fuel (add64 (O iterator) i) iterator) ;;
     print ")") w.
Proof.
  intros Hn Hp Hl Hrun Hf. apply agree_at.
  eapply agree_trans;
    [apply (agree_Code_plain (ast w) fuel n iterator parent node ImportsDef
              (print "import (" ;; print EmptyString) (print ")"));
     try assumption|].
  - emits_auto.
  - intros t _. unfold each_switch. split; [apply agree_refl|]. split.
    + intros i Hi. rewrite (not_uint64big _ _ _ _ Hrun Hi).
      apply agree_refl.
    + rewrite Z.eqb_refl. apply agree_refl.
  - apply agree_assoc.
Qed.

Lemma ImportsDef_rendering_witness :
  Code 4 0 0 {| ast := imports_store; printed := [] |}
  = (Ret tt,
     {| ast := imports_store;
        printed := ["import ("; EmptyString; "fmt"; EmptyString;
                    "os"; EmptyString; ")"] |}).
Proof.
  rewrite (ImportsDef_rendering 3 2 0 0
             {| ast := imports_store; printed := [] |}
             {| arr := arrImportsDef; off := 0; bytes := "I";
                capacity := 10 |});
    [vm_compute; reflexivity | vm_compute; reflexivity | reflexivity
    | reflexivity | vm_compute; reflexivity | lia].
Defined.

(** X21. A TypDefStmt node prints the keyword, the text of its first
    child, which is the name, and a blank, and for an alias the equals
    sign; then it renders its children in order, and ends the line. *)
Theorem TypDefStmt_rendering (fuel n : nat) (iterator parent : Z)
    (w : world) (node : slice) (kind : Z) :
  TypDefStmtNode kind = Ret node -> 0 <= kind ->
  ast w !! iterator = Some (Some node) ->
  child_run (ast w) iterator n = true -> (n < fuel)%nat ->
  Code (S fuel) iterator parent w
  = (print "type " ;;
     print (text (record (ast w) (O iterator))) ;;
     print " " ;;
     when (kind =? TypDefStmtAlias) (print "= ") ;;
     for_each (indices n)
       (fun i => Code fuel (add64 (O iterator) i) iterator) ;;
     print EmptyString) w.
Proof.
  intros Hnode Hk Hn Hrun Hf.
  unfold TypDefStmtNode in Hnode.
  apply slice2_Ret in Hnode as (Hb & Hp & Hlen & Hcap).
  change (family_cap TypDefStmt) with 10 in Hb.
  assert (Hl : 0 < len (Some node)) by lia.
  apply agree_at.
  eapply agree_trans;
    [apply (agree_Code_plain (ast w) fuel n iterator parent node TypDefStmt
              (print "type " ;;
               print (text (record (ast w) (O iterator))) ;;
               print " " ;;
               when (kind =? TypDefStmtAlias) (print "= "))
              (print EmptyString));
     try assumption|].
  - emits_auto.
  - intros t ->. unfold open_switch, each_switch. cbv zeta. rewrite Hlen.
    replace (kind + 1 - 1) with kind by lia.
    rewrite to_byte_small by lia.
    split; [apply agree_refl|]. split.
    + intros i Hi. rewrite (not_uint64big _ _ _ _ Hrun Hi).
      apply agree_refl.
    + rewrite Z.eqb_refl. apply agree_refl.
  - intros w' _. now rewrite !bind_assoc.
Qed.

Lemma TypDefStmt_rendering_witness :
  Code 4 0 0 {| ast := typedef_store; printed := [] |}
  = (Ret tt,
     {| ast := typedef_store;
        printed := ["type "; "T"; " "; "U"; EmptyString] |}).
Proof.
  rewrite (TypDefStmt_rendering 3 2 0 0
             {| ast := typedef_store; printed := [] |}
             {| arr := arrTypDefStmt; off := 0; bytes := "T";
                capacity := 10 |} TypDefStmtNormal);
    [vm_compute; reflexivity | vm_compute; reflexivity
    | unfold TypDefStmtNormal; lia | reflexivity
    | vm_compute; reflexivity | lia].
Defined.

(** X22. A StructType node prints [struct{], and a line break when its
    first child is not nil; then its children in order, a line break
    after each; then the closing brace. An IfceTypExp node does the same
    after [interface{]. *)
Theorem StructType_rendering (fuel n : nat) (iterator parent : Z)
    (w : world) (node : slice) (f : family) (keyword : string) :
  (f, keyword) = (StructType, "struct{")
  \/ (f, keyword) = (IfceTypExp, "interface{") ->
  ast w !! iterator = Some (Some node) ->
  (arr node, off node) = family_addr f -> 0 < len (Some node) ->
  child_run (ast w) iterator n = true -> (n < fuel)%nat ->
  Code (S fuel) iterator parent w
  = (print keyword ;;
     when (negb (is_nil (record (ast w) (O iterator))))
       (print EmptyString) ;;
     for_each (indices n)
       (fun i => Code fuel (add64 (O iterator) i) iterator ;;
                 print EmptyString) ;;
     print "}") w.
Proof.
  intros Hf' Hn Hp Hl Hrun Hf. apply agree_at.
  eapply agree_trans;
    [apply (agree_Code_form (ast w) fuel n iterator parent node f
              (print keyword ;;
               when (negb (is_nil (record (ast w) (O iterator))))
                 (print EmptyString))
              (print "}") (fun _ => print EmptyString));
     try assumption|].
  - intros t _.
    destruct Hf' as [[= -> ->] | [= -> ->]];
      unfold open_switch, each_switch;
      (split;
       [apply agree_bind;
        [apply emits_print | apply agree_refl
        | intros _; apply agree_index_bind]|]);
      (split;
       [intros i Hi; rewrite (not_uint64big _ _ _ _ Hrun Hi)
       | rewrite Z.eqb_refl]);
      apply agree_refl.
  - apply agree_assoc.
Qed.

Lemma StructType_rendering_witness :
  Code 5 0 0 {| ast := struct_store; printed := [] |}
  = (Ret tt,
     {| ast := struct_store;
        printed := ["struct{"; EmptyString; "a"; EmptyString;
                    "b"; EmptyString; "}"] |}).
Proof.
  rewrite (StructType_rendering 4 2 0 0
             {| ast := struct_store; printed := [] |}
             {| arr := arrStructType; off := 0; bytes := "S";
                capacity := 10 |} StructType "struct{");
    [vm_compute; reflexivity | now left | vm_compute; reflexivity
    | reflexivity | reflexivity | vm_compute; reflexivity | lia].
Defined.

(** ** Literals without a type, and the operand count as a byte *)

Lemma open_Expression_composed s (node : slice) (n : nat) :
  len (Some node) = ExpressionComposed + 1 ->
  to_uint64 (cap (Some node) - ExpressionTotalCount) = Z.of_nat n ->
  agree s (open_Expression (Some node))
    (print "{" ;; when (Z.of_nat n mod 256 =? 0) (print "}")).
Proof.
  intros Hlen Hcap. unfold open_Expression. cbv zeta. rewrite Hlen.
  replace (to_byte (cap (Some node) - ExpressionTotalCount))
    with (Z.of_nat n mod 256)
    by (rewrite <- Hcap; unfold to_byte, to_uint64, wrap64;
        change (2 ^ 64) with 18446744073709551616;
        Z.to_euclidean_division_equations; lia).
  change (to_byte (ExpressionComposed + 1 - 1)) with ExpressionComposed.
  destruct (Z.of_nat n mod 256 =? 1) eqn:E.
  - replace (Z.of_nat n mod 256 =? 0) with false by lia.
    apply agree_sym, agree_unit_r.
  - apply agree_refl.
Qed.

Lemma each_Expression_composed s (node : slice) (iterator : Z) (n : nat)
    (i : Z) :
  len (Some node) = ExpressionComposed + 1 ->
  to_uint64 (cap (Some node) - ExpressionTotalCount) = Z.of_nat n ->
  (2 <= n)%nat -> Z.of_nat n < uint64big ->
  0 <= i < Z.of_nat n ->
  textual (record s (add64 (O iterator) i))
  || structural (record s (add64 (O iterator) i)) = true ->
  agree s (each_Expression (Some node) iterator i)
    (when (textual (record s (add64 (O iterator) i)))
       (print (text (record s (add64 (O iterator) i)))) ;;
     print (if i + 1 =? Z.of_nat n then "}" else ", ")).
Proof.
  intros Hlen Hcap Hn Hbig Hi Hx.
  unfold each_Expression. cbv zeta. rewrite Hlen, Hcap.
  change (to_byte (ExpressionComposed + 1 - 1)) with ExpressionComposed.
  eapply agree_trans; [now apply agree_operand|].
  apply agree_bind; [emits_auto | apply agree_refl | intros _].
  unfold uint64big in *.
  replace (negb (i =? 2 ^ 64 - 2)) with true
    by (symmetry; apply negb_true_iff, Z.eqb_neq; lia).
  unfold when at 1. rewrite add64_small by lia.
  replace (1 <=? i + 1) with true by lia.
  replace (1 <? Z.of_nat n) with true by lia.
  replace (i + 1 =? 0) with false by lia.
  replace (Z.of_nat n =? 1) with false by lia.
  replace (0 <? i + 1) with true by lia.
  rewrite andb_false_r. cbn [Bool.eqb andb].
  eapply agree_trans; [apply agree_unit_r_when|].
  apply agree_eq. now destruct (i + 1 =? Z.of_nat n).
Qed.

(** X23. A literal without a type (an ExpressionComposed node) with [n]
    elements, two or more, prints the opening brace, its elements in
    order with a comma and a blank between two of them, and the closing
    brace after the last. The first switch reads [n] as a byte: when [n]
    is a multiple of 256 it prints a closing brace right after the
    opening one, before the elements. *)
Theorem composed_literal_rendering (fuel n : nat) (iterator parent : Z)
    (w : world) (node : slice) :
  (2 <= n)%nat ->
  ExpressionNode ExpressionComposed (Z.of_nat n) = Ret node ->
  ast w !! iterator = Some (Some node) ->
  child_run (ast w) iterator n = true -> (n < fuel)%nat ->
  operands (ast w) iterator n = true ->
  ast w !! add64 (O iterator) uint64big = None ->
  Code (S fuel) iterator parent w
  = (print "{" ;;
     when (Z.of_nat n mod 256 =? 0) (print "}") ;;
     for_each (indices n)
       (fun i =>
          let x := record (ast w) (add64 (O iterator) i) in
          Code fuel (add64 (O iterator) i) iterator ;;
          when (textual x) (print (text x)) ;;
          print (if i + 1 =? Z.of_nat n then "}" else ", "))) w.
Proof.
  intros Hn2 Hnode Hn Hrun Hf Hops Hsent.
  unfold ExpressionNode in Hnode.
  apply slice3_Ret in Hnode as (Hb & Hb' & Hp & Hlen & Hcap).
  assert (Hl : 0 < len (Some node))
    by (rewrite Hlen; unfold ExpressionComposed; lia).
  pose proof (child_run_spec _ _ _ Hrun) as (_ & _ & Hbig).
  assert (Hcap' : to_uint64 (cap (Some node) - ExpressionTotalCount)
                  = Z.of_nat n).
  { rewrite Hcap. change (family_cap Expression) with 1000000 in *.
    unfold ExpressionTotalCount, ExpressionComposed, uint64big in *.
    machine. }
  apply agree_at.
  eapply agree_trans;
    [apply (agree_Code_form (ast w) fuel n iterator parent node Expression
              (print "{" ;; when (Z.of_nat n mod 256 =? 0) (print "}"))
              (ret tt)
              (fun i =>
                 when (textual (record (ast w) (add64 (O iterator) i)))
                   (print (text (record (ast w) (add64 (O iterator) i)))) ;;
                 print (if i + 1 =? Z.of_nat n then "}" else ", ")));
     try assumption|].
  - intros t _. unfold open_switch, each_switch.
    split; [now apply open_Expression_composed|]. split.
    + intros i Hi.
      apply each_Expression_composed; try assumption.
      * apply range_bounds in Hi. lia.
      * now apply operands_at with n.
    + now apply each_Expression_end.
  - intros w' _. rewrite !bind_assoc. unfold bind.
    destruct (print "{" w') as [[[]|e|] w1]; try reflexivity.
    destruct (when _ _ w1) as [[[]|e|] w2]; try reflexivity.
    apply bind_unit_r.
Qed.

Lemma composed_literal_rendering_witness :
  Code 4 0 0 {| ast := composed_store; printed := [] |}
  = (Ret tt, {| ast := composed_store;
                printed := ["{"; "1"; ", "; "2"; "}"] |}).
Proof.
  rewrite (composed_literal_rendering 3 2 0 0
             {| ast := composed_store; printed := [] |}
             {| arr := storage; off := 0; bytes := zeros 32;
                capacity := 40 |}).
  - vm_compute. reflexivity.
  - lia.
  - vm_compute. reflexivity.
  - vm_compute. reflexivity.
  - vm_compute. reflexivity.
  - lia.
  - vm_compute. reflexivity.
  - vm_compute. reflexivity.
Defined.

(** ** The one fault of [Code] *)

Lemma out_of_range_ret {A : Type} (a : A) : out_of_range (ret a).
Proof. intros w e. discriminate. Qed.

Lemma out_of_range_print (t : string) : out_of_range (print t).
Proof. intros w e. discriminate. Qed.

Lemma out_of_range_index (key : Z) : out_of_range (index key).
Proof. intros w e. discriminate. Qed.

Lemma out_of_range_Poke (key : Z) : out_of_range (Poke key).
Proof. intros w e. discriminate. Qed.

Lemma out_of_range_bind {A B : Type} (m : M A) (k : A -> M B) :
  out_of_range m -> (forall a, out_of_range (k a)) ->
  out_of_range (bind m k).
Proof.
  intros Hm Hk w e. unfold bind. pose proof (Hm w) as Hm'.
  destruct (m w) as [[a|e'|] w1]; cbn in *.
  - apply Hk.
  - intros [= <-]. now apply Hm'.
  - discriminate.
Qed.

Lemma out_of_range_lift {A : Type} (r : res A) :
  (forall e, r = Panic e -> e = IndexOutOfRange) -> out_of_range (lift r).
Proof. intros H w e. apply H. Qed.

Lemma out_of_range_when (b : bool) (m : M unit) :
  out_of_range m -> out_of_range (when b m).
Proof. destruct b; [trivial | intros _; apply out_of_range_ret]. Qed.

Lemma out_of_range_switch {A : Type} (x : Z) (cases : list (list Z * M A))
    (d : M A) :
  Forall (fun c => out_of_range (snd c)) cases -> out_of_range d ->
  out_of_range (switch x cases d).
Proof.
  intros Hc Hd. induction Hc as [|[ks a] rest Ha _ IH]; cbn; [exact Hd|].
  destruct (existsb (Z.eqb x) ks); [exact Ha | exact IH].
Qed.

(** The address of element 0, and the tests built on it, fail in one way
    only. *)
Lemma addr0_fault (x : byteslice) (e : fault) :
  addr0 x = Panic e -> e = IndexOutOfRange.
Proof.
  unfold addr0. destruct x as [s|]; [|congruence].
  destruct (len (Some s) =? 0); congruence.
Qed.

Lemma pure_fault (f : family) (x y : byteslice) (e : fault) :
  heads f x = Panic e \/ differs f x = Panic e \/ Which x = Panic e
  \/ nil_or y (heads f x) = Panic e \/ nil_or y (differs f x) = Panic e
  \/ nonnil_and y (heads f x) = Panic e
  \/ nonnil_and y (differs f x) = Panic e ->
  e = IndexOutOfRange.
Proof.
  unfold nil_or, nonnil_and, heads, differs, Which.
  pose proof (addr0_fault x e) as H. intros K.
  destruct (is_nil y), x as [s|];
    destruct (addr0 _) as [p|e'|];
    repeat (destruct K as [K|K]; try discriminate);
    try discriminate; apply H; congruence.
Qed.

Ltac out_of_range_pure :=
  let e := fresh "e" in
  let H := fresh "H" in
  intros e H;
  lazymatch type of H with
  | addr0 ?x = _ => exact (addr0_fault x e H)
  | Which ?x = _ =>
      apply (pure_fault RootMatter x None e); do 2 right; left; exact H
  | nil_or ?y (heads ?f ?x) = _ =>
      apply (pure_fault f x y e); do 3 right; left; exact H
  | nil_or ?y (differs ?f ?x) = _ =>
      apply (pure_fault f x y e); do 4 right; left; exact H
  | nonnil_and ?y (heads ?f ?x) = _ =>
      apply (pure_fault f x y e); do 5 right; left; exact H
  | nonnil_and ?y (differs ?f ?x) = _ =>
      apply (pure_fault f x y e); do 6 right; exact H
  end.

Ltac out_of_range_step :=
  first
    [ apply out_of_range_ret | apply out_of_range_print
    | apply out_of_range_index | apply out_of_range_Poke
    | apply out_of_range_lift; out_of_range_pure
    | apply out_of_range_bind; [ | intros ? ]
    | apply out_of_range_when
    | apply out_of_range_switch
    | match goal with
      | |- Forall _ _ => constructor; cbn [snd]
      | |- out_of_range (if ?b then _ else _) => destruct b
      | |- out_of_range (match ?x with _ => _ end) => destruct x
      end ].

Ltac out_of_range_auto := cbv zeta; repeat out_of_range_step.

Lemma out_of_range_Code_open (t : string) (iterator parent : Z) :
  out_of_range (Code_open t iterator parent).
Proof.
  unfold Code_open, open_switch, open_BlocOfCode, introducer,
    open_Expression.
  out_of_range_auto.
Qed.

Lemma out_of_range_Code_each (t : string) (iterator i : Z) :
  out_of_range (Code_each t iterator i).
Proof.
  unfold Code_each, each_switch, each_ToplevFunc, each_TypedIdent,
    each_BlocOfCode,
    each_Expression, each_AssignStmt, each_VarDefStmt, each_FileMatter,
    each_ClosureExp, each_IfceMethod.
  out_of_range_auto.
Qed.

Lemma out_of_range_Code_loop (visit : Z -> Z -> M unit)
    (after : Z -> M unit) :
  (forall a p, out_of_range (visit a p)) ->
  (forall i, out_of_range (after i)) ->
  forall fuel iterator i,
    out_of_range (Code_loop visit after fuel iterator i).
Proof.
  intros Hv Ha fuel. induction fuel as [|fuel IH]; intros iterator i.
  - rewrite Code_loop_0. destruct (i <? uint64big);
      [intros w e; discriminate | apply out_of_range_ret].
  - rewrite Code_loop_S. out_of_range_auto; auto.
Qed.

Lemma out_of_range_Code (fuel : nat) :
  forall iterator parent, out_of_range (Code fuel iterator parent).
Proof.
  induction fuel as [|fuel IH]; intros iterator parent.
  - intros w e. discriminate.
  - rewrite Code_S.
    apply out_of_range_bind; [apply out_of_range_index | intros x].
    apply out_of_range_bind; [apply out_of_range_Code_open | intros _].
    apply out_of_range_Code_loop;
      [exact IH | intros i; apply out_of_range_Code_each].
Qed.

(** X24. [Code] fails in one way only: when it panics, on whatever map, it
    is with an index out of range (the address of element 0 of a record
    without bytes), never with a slice bound. *)
Theorem Code_panics_out_of_range_only (fuel : nat) (iterator parent : Z)
    (w : world) (e : fault) :
  fst (Code fuel iterator parent w) = Panic e -> e = IndexOutOfRange.
Proof. apply out_of_range_Code. Qed.

Lemma Code_panics_out_of_range_only_witness :
  fst (Code 4 0 0 {| ast := broken_store; printed := [] |})
  = Panic IndexOutOfRange
  /\ IndexOutOfRange = IndexOutOfRange.
Proof.
  split; [vm_compute; reflexivity|].
  apply (Code_panics_out_of_range_only 4 0 0
           {| ast := broken_store; printed := [] |}).
  vm_compute. reflexivity.
Defined.

(** ** What the classifier leaves alone *)

Lemma LookupComments_upto_short (file : list byte) (start : scan) (n : nat) :
  (length file < 2)%nat -> LookupComments_upto file start n = start.
Proof.
  intros H. induction n as [|n IH]; [reflexivity|].
  cbn [LookupComments_upto]. rewrite IH.
  destruct (file !! n) as [c|] eqn:Ec; [|reflexivity].
  destruct (file !! S n) as [d|] eqn:Ed; [|reflexivity].
  apply lookup_lt_Some in Ec, Ed. lia.
Qed.

Lemma key_bounds (file : list byte) (i : nat) :
  (S i < length file)%nat -> 0 <= key i /\ 2 * key i < Z.of_nat (length file).
Proof.
  intros H. unfold key. Z.to_euclidean_division_equations. lia.
Qed.

(** X25. The keys that [LookupComments] adds do not depend on what the two
    sets held: the sets it returns are the sets it was given, each joined
    with what the scan of the same input adds to an empty set. It removes
    nothing, and a second scan of the same input adds nothing. *)
Theorem LookupComments_frame (file : list byte) (E0 E1 : gset Z) :
  LookupComments file (E0, E1)
  = (E0 ∪ fst (LookupComments file (∅, ∅)),
     E1 ∪ snd (LookupComments file (∅, ∅)))
  /\ E0 ⊆ fst (LookupComments file (E0, E1))
  /\ E1 ⊆ snd (LookupComments file (E0, E1))
  /\ LookupComments file (LookupComments file (E0, E1))
     = LookupComments file (E0, E1).
Proof.
  assert (F : forall A B,
             forall k,
               (k ∈ fst (LookupComments file (A, B))
                <-> k ∈ A \/ recorded_ender file (length file - 1) k)
               /\ (k ∈ snd (LookupComments file (A, B))
                   <-> k ∈ B \/ recorded_separ file (length file - 1) k)).
  { intros A B k. unfold LookupComments. cbn [fst snd].
    destruct (LookupComments_upto_inv file
                {| whitespace := false; cleanline := false;
                   sawender := false; Ender := A; Separ := B |}
                (length file - 1))
      as (_ & _ & _ & He & Hp); try reflexivity; try lia.
    split; [apply He | apply Hp]. }
  assert (G : forall A B,
             LookupComments file (A, B)
             = (A ∪ fst (LookupComments file (∅, ∅)),
                B ∪ snd (LookupComments file (∅, ∅)))).
  { intros A B.
    rewrite (surjective_pairing (LookupComments file (A, B))).
    f_equal; apply set_eq; intros k; rewrite elem_of_union.
    - rewrite (proj1 (F A B k)), (proj1 (F ∅ ∅ k)), elem_of_empty. tauto.
    - rewrite (proj2 (F A B k)), (proj2 (F ∅ ∅ k)), elem_of_empty. tauto. }
  split; [apply G|]. split; [|split].
  - rewrite G. cbn [fst]. apply union_subseteq_l.
  - rewrite G. cbn [snd]. apply union_subseteq_l.
  - rewrite (surjective_pairing (LookupComments file (E0, E1))) at 1.
    rewrite G. rewrite (G E0 E1). cbn [fst snd].
    f_equal; apply set_eq; intros k; rewrite !elem_of_union; tauto.
Qed.

(** X26. A key that [LookupComments] adds is half the position of a marker,
    rounded up: it is not negative, and twice the key is less than the
    length of the input. An input of fewer than two bytes adds no key. *)
Theorem LookupComments_keys_are_bounded (file : list byte)
    (E0 E1 : gset Z) :
  (forall k, k ∈ fst (LookupComments file (E0, E1)) ->
     k ∈ E0 \/ (0 <= k /\ 2 * k < Z.of_nat (length file)))
  /\ (forall k, k ∈ snd (LookupComments file (E0, E1)) ->
        k ∈ E1 \/ (1 <= k /\ 2 * k < Z.of_nat (length file)))
  /\ ((length file < 2)%nat -> LookupComments file (E0, E1) = (E0, E1)).
Proof.
  unfold LookupComments. cbn [fst snd].
  set (start := {| whitespace := false; cleanline := false;
                   sawender := false; Ender := E0; Separ := E1 |}).
  split; [|split].
  - destruct (LookupComments_upto_inv file start (length file - 1))
      as (_ & _ & _ & He & _); try reflexivity; try lia.
    intros k Hk. apply He in Hk as [Hk | (i & Hi & -> & _)]; [now left|].
    right. apply key_bounds. lia.
  - destruct (LookupComments_upto_inv file start (length file - 1))
      as (_ & _ & _ & _ & Hp); try reflexivity; try lia.
    intros k Hk.
    apply Hp in Hk as [Hk | (i & Hi & -> & _ & (a & b & Hab & _))];
      [now left|].
    right. split; [|apply key_bounds; lia].
    unfold key. Z.to_euclidean_division_equations. lia.
  - intros H. now rewrite LookupComments_upto_short.
Qed.

Lemma LookupComments_keys_are_bounded_witness :
  LookupComments (list_byte_of_string "/") ({[ 5 ]}, ∅) = ({[ 5 ]}, ∅).
Proof.
  apply (LookupComments_keys_are_bounded (list_byte_of_string "/")
           {[ 5 ]} ∅).
  cbn. lia.
Defined.
